(** * node_acl: the policy graph and permission-resolution engine

    A shallow embedding of [src/lib/acl.ts] (class [Acl] and its helpers)
    together with the properties of the engine stated in the specification.

    Embedded methods: [addUserRoles], [removeUserRoles], [userRoles],
    [roleUsers], [hasRole], [addRoleParents], [removeRoleParents],
    [removeRole], [removeResource], [allow], [_allowEx], [removeAllow],
    [removePermissions], [allowedPermissions], [optimizedAllowedPermissions],
    [isAllowed], [areAnyRolesAllowed], [whatResources], [permittedResources],
    [_rolesParents], [_allRoles], [_allUserRoles], [_rolesResources],
    [_resourcePermissions], [_checkPermissions], and the helpers [makeArray],
    [allowsBucket] and [keyFromAllowsBucket]. The Express [middleware] is
    left out: it lives on request, response and callback objects.

    Conventions of the embedding.
    - Every collection the backend hands back is a finite set of strings
      ([gset string]): [.length] is [size], [.includes(x)] is membership.
    - Arrays supplied by the caller (resources, requested permissions, roles
      of a grant) stay lists, since the code iterates over them in order.
    - An [async] method or promise chain is a computation in the monad [M]:
      it threads the backend store and a trace of backend calls, and it may
      throw or run out of fuel (the recursive traversals of the role
      hierarchy have no cycle guard in the source). *)

From stdpp Require Import gmap strings list fin_maps fin_sets relations pretty.

Local Open Scope string_scope.
Local Open Scope list_scope.
Local Open Scope nat_scope.
Local Open Scope stdpp_scope.

#[local] Set Warnings "-clear-no-such-hyp".

(** ** Values crossing the API *)

(** "All functions accept strings, objects or arrays": a string or an array
    of strings. *)
Inductive StrOrArr : Type :=
  | Str (s : string)
  | Arr (l : list string).

(** [function makeArray(arr) { return Array.isArray(arr) ? arr : [arr]; }] *)
Definition makeArray (arr : StrOrArr) : list string :=
  match arr with
  | Arr l => l
  | Str s => [s]
  end.

(** JavaScript truthiness of an optional string-or-array argument: a missing
    argument and the empty string are falsy, every array is truthy. *)
Definition truthy (a : option StrOrArr) : bool :=
  match a with
  | None => false
  | Some (Str s) => negb (String.eqb s "")
  | Some (Arr _) => true
  end.

(** [type UserID = string | number]; the query methods are untyped, so
    [null] and [undefined] can be passed as well. *)
Inductive UserID : Type :=
  | UidUndefined
  | UidNull
  | UidStr (s : string)
  | UidNum (n : Z).

(** Truthiness of a user id, as tested by [if (!userId)]. *)
Definition truthy_id (u : UserID) : bool :=
  match u with
  | UidUndefined | UidNull => false
  | UidStr s => negb (String.eqb s "")
  | UidNum n => negb (n =? 0)%Z
  end.

(** Modelled from the spec: backend keys are strings, and a user id is
    stored under its string form. *)
Definition key_of (u : UserID) : string :=
  match u with
  | UidUndefined => "undefined"
  | UidNull => "null"
  | UidStr s => s
  | UidNum n => pretty n
  end.

(** ** Bucket naming *)

(** [function allowsBucket(role) { return `allows_${role}`; }] *)
Definition allowsBucket (resource : string) : string := "allows_" +:+ resource.

(** [strip_prefix p s] is [Some r] when [s = p +:+ r], and [None] otherwise. *)
Fixpoint strip_prefix (p s : string) : option string :=
  match p with
  | EmptyString => Some s
  | String c p' =>
      match s with
      | EmptyString => None
      | String d s' => if Ascii.eqb c d then strip_prefix p' s' else None
      end
  end.

(** [function keyFromAllowsBucket(str) { return str.replace(/^allows_/, ""); }] *)
Definition keyFromAllowsBucket (str : string) : string :=
  match strip_prefix "allows_" str with
  | Some rest => rest
  | None => str
  end.

(** [options.buckets] *)
Record Options : Type := {
  buckets_meta : string;
  buckets_parents : string;
  buckets_permissions : string;
  buckets_resources : string;
  buckets_roles : string;
  buckets_users : string;
}.

(** The defaults installed by the constructor. *)
Definition defaultOptions : Options := {|
  buckets_meta := "meta";
  buckets_parents := "parents";
  buckets_permissions := "permissions";
  buckets_resources := "resources";
  buckets_roles := "roles";
  buckets_users := "users";
|}.

(** An [Acl] instance: its options, and whether its backend advertises the
    bulk [unions] capability (tested by [if (this.backend.unions)]). *)
Record Acl : Type := {
  options : Options;
  backend_has_unions : bool;
}.

(** [constructor(backend, logger?, options?)]: [{ buckets: defaults, ...options }]. *)
Definition newAcl (has_unions : bool) (opts : option Options) : Acl :=
  {| options := default defaultOptions opts; backend_has_unions := has_unions |}.

(** ** The backend *)

(** Modelled from the spec: the storage backend ([./backend] is not part of
    the sources). Section 6 of the specification gives its contract: a
    set-valued key/value store grouped into named buckets, with queued
    [add]/[remove]/[delete] mutations applied by [end], the point read [get],
    [union] over several keys of a bucket, and the optional bulk
    [unions] across buckets. *)
Definition bucket_of (st : gmap string (gmap string (gset string))) (b : string)
  : gmap string (gset string) :=
  default ∅ (st !! b).

(** Modelled from the spec: [get(bucket, key) -> set of values]. *)
Definition store_get (st : gmap string (gmap string (gset string))) (b k : string)
  : gset string :=
  default ∅ (bucket_of st b !! k).

(** Modelled from the spec: [union(bucket, keys) -> set], the union of a
    bucket's values across several keys. *)
Definition store_union (st : gmap string (gmap string (gset string))) (b : string)
    (ks : gset string) : gset string :=
  set_bind (store_get st b) ks.

(** Modelled from the spec: [unionAcrossBuckets(buckets, keys) ->
    mapping(bucket -> set)]. *)
Definition store_unions (st : gmap string (gmap string (gset string)))
    (bs : list string) (ks : gset string) : gmap string (gset string) :=
  foldl (λ acc b, <[b := store_union st b ks]> acc) ∅ bs.

(** Modelled from the spec: the queued set mutations of a batch. *)
Inductive Op : Type :=
  | OpAdd (b k : string) (vs : list string)
  | OpRemove (b k : string) (vs : list string)
  | OpDel (b : string) (ks : list string).

(** Modelled from the spec: the effect of one queued mutation on the store. *)
Definition apply_op (st : gmap string (gmap string (gset string))) (op : Op)
  : gmap string (gmap string (gset string)) :=
  match op with
  | OpAdd b k vs =>
      <[b := <[k := store_get st b k ∪ list_to_set vs]> (bucket_of st b)]> st
  | OpRemove b k vs =>
      alter (alter (λ old, old ∖ list_to_set vs) k) b st
  | OpDel b ks =>
      alter (λ m, foldr delete m ks) b st
  end.

(** Modelled from the spec: [end(transaction)] applies the batch in order. *)
Definition apply_ops (st : gmap string (gmap string (gset string))) (t : list Op)
  : gmap string (gmap string (gset string)) :=
  foldl apply_op st t.

(** ** Computations against the backend *)

(** Backend calls, as they appear in the trace. *)
Inductive Event : Type :=
  | EvGet (b k : string)
  | EvUnion (b : string) (ks : gset string)
  | EvUnions (bs : list string) (ks : gset string)
  | EvEnd (t : list Op).

(** The backend-resident state and the backend calls made so far (most
    recent first). *)
Record World : Type := {
  store : gmap string (gmap string (gset string));
  trace : list Event;
}.

Inductive Err : Type :=
  | ReferenceError (ident : string)
  | TypeError (msg : string)
  | RangeError (msg : string).

Inductive Outcome (A : Type) : Type :=
  | Ok (a : A) (w : World)
  | Throw (e : Err) (w : World)
  | OutOfFuel.
Arguments Ok {A} a w.
Arguments Throw {A} e w.
Arguments OutOfFuel {A}.

Definition M (A : Type) : Type := World → Outcome A.

Definition ret {A} (a : A) : M A := λ w, Ok a w.

Definition bind {A B} (m : M A) (f : A → M B) : M B :=
  λ w, match m w with
       | Ok a w' => f a w'
       | Throw e w' => Throw e w'
       | OutOfFuel => OutOfFuel
       end.

Definition throw {A} (e : Err) : M A := λ w, Throw e w.

Definition diverge {A} : M A := λ _, OutOfFuel.

Notation "'let*' x ':=' m 'in' k" := (bind m (λ x, k))
  (at level 10, x name, m at level 100, k at level 200).

(** [resources.forEach]/[bluebird.all(resources.map ...)] with an accumulator,
    run in array order. *)
Fixpoint forEachM {A S} (f : S → A → M S) (s : S) (l : list A) : M S :=
  match l with
  | [] => ret s
  | x :: l' => let* s' := f s x in forEachM f s' l'
  end.

Definition record (ev : Event) (w : World) : World :=
  {| store := store w; trace := ev :: trace w |}.

Definition backend_get (b k : string) : M (gset string) :=
  λ w, Ok (store_get (store w) b k) (record (EvGet b k) w).

Definition backend_union (b : string) (ks : gset string) : M (gset string) :=
  λ w, Ok (store_union (store w) b ks) (record (EvUnion b ks) w).

Definition backend_unions (bs : list string) (ks : gset string)
  : M (gmap string (gset string)) :=
  λ w, Ok (store_unions (store w) bs ks) (record (EvUnions bs ks) w).

(** [begin()]: a fresh, empty batch. *)
Definition backend_begin : list Op := [].

Definition backend_add (t : list Op) (b k : string) (vs : list string) : list Op :=
  t ++ [OpAdd b k vs].

Definition backend_remove (t : list Op) (b k : string) (vs : list string) : list Op :=
  t ++ [OpRemove b k vs].

Definition backend_del (t : list Op) (b : string) (ks : list string) : list Op :=
  t ++ [OpDel b ks].

Definition backend_end (t : list Op) : M unit :=
  λ w, Ok tt {| store := apply_ops (store w) t; trace := EvEnd t :: trace w |}.

(** ** The engine *)

Section acl.
Context (acl : Acl).

Local Abbreviation opts := (options acl).

(** [addUserRoles(userId, roles)] *)
Definition addUserRoles (userId : UserID) (roles : StrOrArr) : M unit :=
  let transaction := backend_begin in
  let transaction :=
    backend_add transaction (buckets_meta opts) "users" [key_of userId] in
  let transaction :=
    backend_add transaction (buckets_users opts) (key_of userId)
      (makeArray roles) in
  let transaction :=
    match roles with
    | Arr l =>
        foldl (λ t role, backend_add t (buckets_roles opts) role [key_of userId])
          transaction l
    | Str role =>
        backend_add transaction (buckets_roles opts) role [key_of userId]
    end in
  backend_end transaction.

(** [userRoles(userId)] *)
Definition userRoles (userId : UserID) : M (gset string) :=
  backend_get (buckets_users opts) (key_of userId).

(** [hasRole(userId, rolename)] *)
Definition hasRole (userId : UserID) (rolename : string) : M bool :=
  let* roles := userRoles userId in
  ret (bool_decide (rolename ∈ roles)).

(** [addRoleParents(role, parents)] *)
Definition addRoleParents (role : string) (parents : StrOrArr) : M unit :=
  let transaction := backend_begin in
  let transaction :=
    backend_add transaction (buckets_meta opts) "roles" [role] in
  let transaction :=
    backend_add transaction (buckets_parents opts) role (makeArray parents) in
  backend_end transaction.

(** [removeRoleParents(role, parents)]: "If `parents` is not specified,
    removes all parents." *)
Definition removeRoleParents (role : string) (parents : option StrOrArr) : M unit :=
  let transaction := backend_begin in
  let transaction :=
    match parents with
    | Some ps =>
        if truthy parents
        then backend_remove transaction (buckets_parents opts) role (makeArray ps)
        else backend_del transaction (buckets_parents opts) [role]
    | None => backend_del transaction (buckets_parents opts) [role]
    end in
  backend_end transaction.

(** [removeRole(role)] *)
Definition removeRole (role : string) : M unit :=
  let* resources := backend_get (buckets_resources opts) role in
  let transaction := backend_begin in
  let transaction :=
    foldl (λ t resource, backend_del t (allowsBucket resource) [role])
      transaction (elements resources) in
  let transaction := backend_del transaction (buckets_resources opts) [role] in
  let transaction := backend_del transaction (buckets_parents opts) [role] in
  let transaction := backend_del transaction (buckets_roles opts) [role] in
  let transaction :=
    backend_remove transaction (buckets_meta opts) "roles" [role] in
  backend_end transaction.

(** [allow(roles, resources, permissions)], the three-argument form (the
    one-argument form hands a compact specification to [_allowEx], which
    calls this form once per entry). *)
Definition allow (roles resources permissions : StrOrArr) : M unit :=
  let roles := makeArray roles in
  let resources := makeArray resources in
  let transaction := backend_begin in
  let transaction :=
    backend_add transaction (buckets_meta opts) "roles" roles in
  let transaction :=
    foldl (λ t resource,
             foldl (λ t role,
                      backend_add t (allowsBucket resource) role
                        (makeArray permissions))
               t roles)
      transaction resources in
  let transaction :=
    foldl (λ t role, backend_add t (buckets_resources opts) role resources)
      transaction roles in
  backend_end transaction.

(** [removePermissions(role, resources, permissions)] *)
Definition removePermissions (role : string) (resources : list string)
    (permissions : option StrOrArr) : M unit :=
  let transaction := backend_begin in
  let transaction :=
    foldl (λ t resource,
             let bucket := allowsBucket resource in
             match permissions with
             | Some ps =>
                 if truthy permissions
                 then backend_remove t bucket role (makeArray ps)
                 else backend_remove (backend_del t bucket [role])
                        (buckets_resources opts) role [resource]
             | None =>
                 backend_remove (backend_del t bucket [role])
                   (buckets_resources opts) role [resource]
             end)
      transaction resources in
  let* _ := backend_end transaction in
  let transaction := backend_begin in
  let* transaction :=
    forEachM (λ t resource,
                let bucket := allowsBucket resource in
                let* values := backend_get bucket role in
                if bool_decide (size values = 0)
                then ret (backend_remove t (buckets_resources opts) role
                            [resource])
                else ret t)
      transaction resources in
  backend_end transaction.

(** [removeAllow(role, resources, permissions)] *)
Definition removeAllow (role : string) (resources : StrOrArr)
    (permissions : option StrOrArr) : M unit :=
  let resources := makeArray resources in
  removePermissions role resources permissions.

(** [_rolesParents(roles)] *)
Definition _rolesParents (roles : gset string) : M (gset string) :=
  backend_union (buckets_parents opts) roles.

(** [_allRoles(roleNames)]; [_.union] is set union. *)
Fixpoint _allRoles (fuel : nat) (roleNames : gset string) : M (gset string) :=
  match fuel with
  | 0 => diverge
  | S fuel =>
      let* parents := _rolesParents roleNames in
      if bool_decide (0 < size parents)
      then
        let* parentRoles := _allRoles fuel parents in
        ret (roleNames ∪ parentRoles)
      else ret roleNames
  end.

(** [_allUserRoles(userId)] *)
Definition _allUserRoles (fuel : nat) (userId : UserID) : M (gset string) :=
  let* roles := userRoles userId in
  if bool_decide (0 < size roles)
  then _allRoles fuel roles
  else ret ∅.

(** [_resourcePermissions(roles, resource)] *)
Fixpoint _resourcePermissions (fuel : nat) (roles : gset string)
    (resource : string) : M (gset string) :=
  match fuel with
  | 0 => diverge
  | S fuel =>
      if bool_decide (size roles = 0)
      then ret ∅
      else
        let* resourcePermissions := backend_union (allowsBucket resource) roles in
        let* parents := _rolesParents roles in
        if bool_decide (size parents ≠ 0)
        then
          let* morePermissions := _resourcePermissions fuel parents resource in
          ret (resourcePermissions ∪ morePermissions)
        else ret resourcePermissions
  end.

(** [_checkPermissions(roles, resource, permissions)]: "This function will
    not handle circular dependencies and result in a crash." *)
Fixpoint _checkPermissions (fuel : nat) (roles : gset string)
    (resource : string) (permissions : list string) : M bool :=
  match fuel with
  | 0 => diverge
  | S fuel =>
      let* resourcePermissions := backend_union (allowsBucket resource) roles in
      if bool_decide ("*" ∈ resourcePermissions)
      then ret true
      else
        let permissions := filter (λ p, p ∉ resourcePermissions) permissions in
        if bool_decide (length permissions = 0)
        then ret true
        else
          let* parents := backend_union (buckets_parents opts) roles in
          if bool_decide (size parents ≠ 0)
          then _checkPermissions fuel parents resource permissions
          else ret false
  end.

(** [areAnyRolesAllowed(roles, resource, permissions)] *)
Definition areAnyRolesAllowed (fuel : nat) (roles : StrOrArr)
    (resource : string) (permissions : StrOrArr) : M bool :=
  let roles := makeArray roles in
  let permissions := makeArray permissions in
  if bool_decide (length roles = 0)
  then ret false
  else _checkPermissions fuel (list_to_set roles) resource permissions.

(** [isAllowed(userId, resource, permissions)] *)
Definition isAllowed (fuel : nat) (userId : UserID) (resource : string)
    (permissions : StrOrArr) : M bool :=
  let* roles := backend_get (buckets_users opts) (key_of userId) in
  if bool_decide (size roles ≠ 0)
  then areAnyRolesAllowed fuel (Arr (elements roles)) resource permissions
  else ret false.

(** [optimizedAllowedPermissions(userId, resources)]; [cb] is bound nowhere
    in the module, so evaluating it throws a [ReferenceError]. *)
Definition optimizedAllowedPermissions (fuel : nat) (userId : UserID)
    (resources : StrOrArr) : M (gmap string (gset string)) :=
  if negb (truthy_id userId)
  then throw (ReferenceError "cb")
  else
    let resources := makeArray resources in
    let* roles := _allUserRoles fuel userId in
    let buckets := allowsBucket <$> resources in
    let* response :=
      if bool_decide (size roles = 0)
      then ret (foldl (λ emptyResult bucket, <[bucket := ∅]> emptyResult) ∅ buckets)
      else if backend_has_unions acl
      then backend_unions buckets roles
      else throw (TypeError "self.backend.unions is not a function") in
    ret (map_fold (λ bucket perms result,
                     <[keyFromAllowsBucket bucket := perms]> result)
           ∅ response).

(** [allowedPermissions(userId, resources)] *)
Definition allowedPermissions (fuel : nat) (userId : UserID)
    (resources : StrOrArr) : M (gmap string (gset string)) :=
  if negb (truthy_id userId)
  then throw (ReferenceError "cb")
  else if backend_has_unions acl
  then optimizedAllowedPermissions fuel userId resources
  else
    let resources := makeArray resources in
    let* roles := userRoles userId in
    forEachM (λ result resource,
                let* permissions := _resourcePermissions fuel roles resource in
                ret (<[resource := permissions]> result))
      ∅ resources.

End acl.

(** ** Specification-level vocabulary *)

(** The five fixed bucket names are pairwise distinct and none of them has
    the form of a permissions bucket ["allows_..."]. *)
Definition separate_buckets (o : Options) : bool :=
  let names := [buckets_meta o; buckets_parents o; buckets_resources o;
                buckets_roles o; buckets_users o] in
  bool_decide (NoDup names)
  && forallb (λ b, bool_decide (strip_prefix "allows_" b = None)) names.

(** [p] is a parent of [r]: an edge of the role hierarchy. *)
Definition parent_edge (acl : Acl) (st : gmap string (gmap string (gset string)))
    (r p : string) : Prop :=
  p ∈ store_get st (buckets_parents (options acl)) r.

(** The hierarchy is acyclic: no role is its own ancestor. *)
Definition acyclic (acl : Acl) (st : gmap string (gmap string (gset string))) : Prop :=
  ∀ r, ¬ tc (parent_edge acl st) r r.

(** The roles [k] parent steps above the role set [roles]. *)
Fixpoint level (acl : Acl) (st : gmap string (gmap string (gset string)))
    (roles : gset string) (k : nat) : gset string :=
  match k with
  | 0 => roles
  | S k => level acl st (store_union st (buckets_parents (options acl)) roles) k
  end.

(** The permissions granted on [resource] to some role of [roles]. *)
Definition granted (st : gmap string (gmap string (gset string)))
    (resource : string) (roles : gset string) : gset string :=
  store_union st (allowsBucket resource) roles.

(** The roles of [roles] together with their ancestors up to [n] parent
    steps: what [_allRoles] accumulates. *)
Fixpoint reach (acl : Acl) (st : gmap string (gmap string (gset string)))
    (roles : gset string) (n : nat) : gset string :=
  match n with
  | 0 => roles
  | S n =>
      roles ∪ reach acl st (store_union st (buckets_parents (options acl)) roles) n
  end.

(** Every role mentioned as a parent of some role. *)
Definition all_parents (acl : Acl) (st : gmap string (gmap string (gset string)))
  : gset string :=
  ⋃ (snd <$> map_to_list (bucket_of st (buckets_parents (options acl)))).

(** A grant set covers a permission when it lists it or holds the wildcard. *)
Definition covers (g : gset string) (p : string) : Prop := p ∈ g ∨ "*" ∈ g.

(** An operation of a batch that can only shrink the store. *)
Definition removal (op : Op) : Prop :=
  match op with
  | OpAdd _ _ _ => False
  | _ => True
  end.

(** An operation that writes the set stored at key [k] of bucket [b]. *)
Definition touches (b k : string) (op : Op) : Prop :=
  match op with
  | OpAdd b' k' _ | OpRemove b' k' _ => b = b' ∧ k = k'
  | OpDel b' ks => b = b' ∧ k ∈ ks
  end.

(** A backend call that reads a permissions bucket. *)
Definition reads_allows (ev : Event) : bool :=
  match ev with
  | EvGet b _ | EvUnion b _ => bool_decide (is_Some (strip_prefix "allows_" b))
  | EvUnions bs _ =>
      existsb (λ b, bool_decide (is_Some (strip_prefix "allows_" b))) bs
  | EvEnd _ => false
  end.

(** The first batch of [removePermissions]. *)
Definition revoke_batch (acl : Acl) (role : string) (resources : list string)
    (permissions : option StrOrArr) : list Op :=
  resources ≫= λ resource,
    match permissions with
    | Some ps =>
        if truthy permissions
        then [OpRemove (allowsBucket resource) role (makeArray ps)]
        else [OpDel (allowsBucket resource) [role];
              OpRemove (buckets_resources (options acl)) role [resource]]
    | None =>
        [OpDel (allowsBucket resource) [role];
         OpRemove (buckets_resources (options acl)) role [resource]]
    end.

(** The second batch of [removePermissions], built from the store [st] that
    the first batch left behind. *)
Definition cleanup_batch (acl : Acl) (st : gmap string (gmap string (gset string)))
    (role : string) (resources : list string) : list Op :=
  resources ≫= λ resource,
    if bool_decide (size (store_get st (allowsBucket resource) role) = 0)
    then [OpRemove (buckets_resources (options acl)) role [resource]]
    else [].

(** The reads of the second phase of [removePermissions], most recent first. *)
Definition cleanup_reads (role : string) (resources : list string) : list Event :=
  reverse ((λ resource, EvGet (allowsBucket resource) role) <$> resources).

(** The permission set [permissions] revokes everything in [old]: either the
    whole entry is dropped (no or falsy argument) or every element of [old]
    is listed. *)
Definition revokes_all (permissions : option StrOrArr) (old : gset string) : Prop :=
  match permissions with
  | Some ps => truthy permissions = false ∨ old ⊆ list_to_set (makeArray ps)
  | None => True
  end.

(** The batch submitted by [removeRole] for a role recorded on [resources]. *)
Definition removeRole_batch (acl : Acl) (role : string) (resources : list string)
  : list Op :=
  ((λ resource, OpDel (allowsBucket resource) [role]) <$> resources)
  ++ [OpDel (buckets_resources (options acl)) [role];
      OpDel (buckets_parents (options acl)) [role];
      OpDel (buckets_roles (options acl)) [role];
      OpRemove (buckets_meta (options acl)) "roles" [role]].

(** ** A small policy used to exercise the engine

    [addUserRoles("u1", "A")], [addRoleParents("A", "B")] and
    [allow("B", "doc", "read")] on an empty backend. *)

Definition empty_world : World := {| store := ∅; trace := [] |}.

(** The world a computation leaves behind. *)
Definition exec {A} (m : M A) (w : World) : World :=
  match m w with
  | Ok _ w' => w'
  | Throw _ w' => w'
  | OutOfFuel => w
  end.

Definition demo_acl : Acl := newAcl false None.

Definition demo_world : World :=
  exec (allow demo_acl (Str "B") (Str "doc") (Str "read"))
    (exec (addRoleParents demo_acl "A" (Str "B"))
       (exec (addUserRoles demo_acl (UidStr "u1") (Str "A")) empty_world)).

(** The demo policy after [allow("A", "doc", "*")]. *)
Definition wild_world : World :=
  exec (allow demo_acl (Str "A") (Str "doc") (Str "*")) demo_world.

(** Height of the demo roles in the hierarchy. *)
Definition demo_rank (r : string) : nat := if decide (r = "A") then 1 else 0.

(** ** The rest of the engine *)

(** One element of the [allows] array of a compact grant:
    [{resources, permissions}]. *)
Record AllowEntry : Type := {
  entry_resources : StrOrArr;
  entry_permissions : StrOrArr;
}.

(** One element of the compact grant array: [{roles, allows: [...]}]. *)
Record AllowSpec : Type := {
  spec_roles : StrOrArr;
  spec_allows : list AllowEntry;
}.

(** The argument of [_allowEx]: one specification or an array of them, made
    an array by [makeArray]. *)
Inductive SpecOrArr : Type :=
  | OneSpec (obj : AllowSpec)
  | Specs (objs : list AllowSpec).

Definition makeSpecArray (objs : SpecOrArr) : list AllowSpec :=
  match objs with
  | Specs l => l
  | OneSpec obj => [obj]
  end.

(** ** Assignment to a property of an array

    [permittedResources] runs [result[resource] = p] on an array when
    [permissions] is given but falsy. What such an assignment does depends
    on the property name: an array index sets an element and may grow
    [length], the name ["length"] resizes the array (or throws a
    [RangeError]), and any other name is an ordinary property. Strings hold
    the UTF-8 bytes of the JavaScript string. *)

(** The value of a digit in [base], for the digits [0-9], [a-z] and [A-Z]. *)
Definition digit_of (base : N) (c : Ascii.ascii) : option N :=
  let n := Ascii.N_of_ascii c in
  let d :=
    if ((48 <=? n) && (n <=? 57))%N then Some (n - 48)%N
    else if ((97 <=? n) && (n <=? 122))%N then Some (n - 87)%N
    else if ((65 <=? n) && (n <=? 90))%N then Some (n - 55)%N
    else None in
  match d with
  | Some d => if (d <? base)%N then Some d else None
  | None => None
  end.

(** The number written by a string of digits in [base], on top of the
    digits [acc] read so far; [None] when a character is not a digit. *)
Fixpoint digits_value (base acc : N) (s : string) : option N :=
  match s with
  | EmptyString => Some acc
  | String c s' =>
      match digit_of base c with
      | Some d => digits_value base (base * acc + d)%N s'
      | None => None
      end
  end.

(** An array index is a property name [P] such that [ToString(ToUint32(P))]
    is [P] and [ToUint32(P)] is not [2^32 - 1]: the canonical decimal form
    of a number below [2^32 - 1]. *)
Definition array_index (name : string) : option N :=
  match digits_value 10 0 name with
  | Some i =>
      if bool_decide (pretty i = name ∧ (i < 4294967295)%N) then Some i else None
  | None => None
  end.

(** The string made of the given bytes. *)
Definition bytes (l : list nat) : string :=
  foldr (λ n s, String (Ascii.ascii_of_nat n) s) "" l.

(** [WhiteSpace] and [LineTerminator]: TAB, LF, VT, FF, CR, SP, U+00A0,
    U+1680, U+2000 to U+200A, U+2028, U+2029, U+202F, U+205F, U+3000 and
    U+FEFF. *)
Definition white_space : list string :=
  bytes <$> [[9]; [10]; [11]; [12]; [13]; [32]; [194; 160]; [225; 154; 128];
             [226; 128; 128]; [226; 128; 129]; [226; 128; 130]; [226; 128; 131];
             [226; 128; 132]; [226; 128; 133]; [226; 128; 134]; [226; 128; 135];
             [226; 128; 136]; [226; 128; 137]; [226; 128; 138]; [226; 128; 168];
             [226; 128; 169]; [226; 128; 175]; [226; 129; 159]; [227; 128; 128];
             [239; 187; 191]].

(** [s] without one leading occurrence of a string of [seps], if it has one. *)
Definition strip_one (seps : list string) (s : string) : option string :=
  foldr (λ sep rest, match strip_prefix sep s with
                     | Some r => Some r
                     | None => rest
                     end) None seps.

(** [s] without its leading occurrences of strings of [seps], at most [n]
    of them. *)
Fixpoint strip_all (n : nat) (seps : list string) (s : string) : string :=
  match n with
  | 0 => s
  | S n =>
      match strip_one seps s with
      | Some r => strip_all n seps r
      | None => s
      end
  end.

(** [s] without the white space at both of its ends. *)
Definition trim (s : string) : string :=
  let s := strip_all (String.length s) white_space s in
  String.rev (strip_all (String.length s) (String.rev <$> white_space) (String.rev s)).

(** The longest prefix of decimal digits, and what follows it. *)
Fixpoint span_digits (s : string) : string * string :=
  match s with
  | EmptyString => ("", "")
  | String c s' =>
      if bool_decide (is_Some (digit_of 10 c))
      then let '(ds, rest) := span_digits s' in (String c ds, rest)
      else ("", s)
  end.

(** An optional sign: whether it is [-], and what follows it. *)
Definition signed (s : string) : bool * string :=
  match strip_prefix "-" s with
  | Some r => (true, r)
  | None => (false, default s (strip_prefix "+" s))
  end.

(** [ExponentPart], optional: [e] or [E], an optional sign and at least one
    digit, up to the end of the string. *)
Definition exponent_part (s : string) : option Z :=
  if String.eqb s "" then Some 0%Z
  else
    match strip_one ["e"; "E"] s with
    | Some r =>
        let '(neg, ds) := signed r in
        if String.eqb ds "" then None
        else
          match digits_value 10 0 ds with
          | Some n => Some (if neg : bool then (- Z.of_N n)%Z else Z.of_N n)
          | None => None
          end
    | None => None
    end.

(** [StrUnsignedDecimalLiteral] other than [Infinity]: digits with an
    optional fraction and exponent, as a mantissa [m] and a decimal exponent
    [e] standing for [m * 10^e]. *)
Definition decimal_literal (s : string) : option (N * Z) :=
  let '(int, r1) := span_digits s in
  let '(frac, r2) :=
    match strip_prefix "." r1 with
    | Some r => span_digits r
    | None => ("", r1)
    end in
  if String.eqb int "" && String.eqb frac "" then None
  else
    match exponent_part r2, digits_value 10 0 (int +:+ frac) with
    | Some e, Some m => Some (m, (e - Z.of_nat (String.length frac))%Z)
    | _, _ => None
    end.

(** [StringNumericLiteral] with a finite value, as a sign, a mantissa and a
    decimal exponent; [None] for the strings [ToNumber] maps to [NaN] or to
    an infinity. The empty string is zero; a binary, octal or hexadecimal
    literal takes no sign. *)
Definition numeric_literal (s : string) : option (bool * N * Z) :=
  let s := trim s in
  if String.eqb s "" then Some (false, 0%N, 0%Z)
  else
    let based (base : N) (ds : string) :=
      if String.eqb ds "" then None
      else (λ n, (false, n, 0%Z)) <$> digits_value base 0 ds in
    match strip_one ["0x"; "0X"] s, strip_one ["0o"; "0O"] s,
          strip_one ["0b"; "0B"] s with
    | Some ds, _, _ => based 16%N ds
    | None, Some ds, _ => based 8%N ds
    | None, None, Some ds => based 2%N ds
    | None, None, None =>
        let '(neg, r) := signed s in
        (λ '(m, e), (neg, m, e)) <$> decimal_literal r
    end.

(** The array length a number stands for, if any. The value [m * 10^e],
    negated when [neg], is first rounded to the nearest double, ties to
    even, as [ToNumber] does; the result must be an integer from [0] to
    [2^32 - 1]. The doubles next to an integer [k] of that range are
    [2^(log2 k - 52)] away (half of that below a power of two, and
    [2^-1074] around zero), and ties go to [k]. *)
Definition length_of_number (neg : bool) (m : N) (e : Z) : option N :=
  if (m =? 0)%N then Some 0%N
  else if (0 <=? e)%Z
  then
    if neg then None
    else if (e <=? 9)%Z
    then
      let v := (m * 10 ^ Z.to_N e)%N in
      if (v <=? 4294967295)%N then Some v else None
    else None
  else
    let d := (10 ^ Z.to_N (- e))%N in
    if neg then (if (m * 2 ^ 1075 <=? d)%N then Some 0%N else None)
    else
      let q := (m `div` d)%N in
      let r := (m `mod` d)%N in
      let up := if (q =? 0)%N then 1075%N else (53 - N.log2 q)%N in
      let down :=
        if (2 ^ N.log2 (q + 1) =? q + 1)%N
        then (54 - N.log2 (q + 1))%N
        else (53 - N.log2 (q + 1))%N in
      if (4294967295 <? q)%N then None
      else if (r =? 0)%N then Some q
      else if (r * 2 ^ up <=? d)%N then Some q
      else if ((d - r) * 2 ^ down <=? d)%N
           then (if (q + 1 <=? 4294967295)%N then Some (q + 1)%N else None)
           else None.

(** The length that [result.length = p] sets, for an array [p] of strings:
    [ToNumber(p)] is [ToNumber(p.join(","))], which must be an integer from
    [0] to [2^32 - 1]. Two or more elements give a string with a comma,
    hence [NaN]. *)
Definition length_of_value (p : gset string) : option N :=
  match elements p with
  | [] => Some 0%N
  | [s] =>
      match numeric_literal s with
      | Some (neg, m, e) => length_of_number neg m e
      | None => None
      end
  | _ => None
  end.

(** An array whose elements are permission sets: its elements by index, its
    [length], and its other properties by name. *)
Record ArrayObject : Type := {
  array_elems : gmap N (gset string);
  array_length : N;
  array_props : gmap string (gset string);
}.

(** [[]] *)
Definition empty_array : ArrayObject :=
  {| array_elems := ∅; array_length := 0; array_props := ∅ |}.

(** [a[name] = p] on an array; [None] when it throws the [RangeError]
    "Invalid array length". *)
Definition array_assign (a : ArrayObject) (name : string) (p : gset string)
  : option ArrayObject :=
  match array_index name with
  | Some i =>
      Some {| array_elems := <[i := p]> (array_elems a);
              array_length := N.max (array_length a) (i + 1);
              array_props := array_props a |}
  | None =>
      if String.eqb name "length"
      then
        match length_of_value p with
        | Some n =>
            Some {| array_elems := filter (λ ix, (ix.1 < n)%N) (array_elems a);
                    array_length := n;
                    array_props := array_props a |}
        | None => None
        end
      else
        Some {| array_elems := array_elems a;
                array_length := array_length a;
                array_props := <[name := p]> (array_props a) |}
  end.

(** What [permittedResources] resolves to: the object [{resource: [...]}]
    when [permissions] is undefined, otherwise an array. With a truthy
    [permissions] the array is filled by [result.push(resource)]: it is
    modelled by the set of its elements (its order follows promise
    resolution), and [props], its properties by name, stays empty. With a
    falsy [permissions] the array is filled by [result[resource] = p]. *)
Inductive Permitted : Type :=
  | PermittedObject (m : gmap string (gset string))
  | PermittedArray (items : gset string) (props : gmap string (gset string))
  | PermittedIndexed (a : ArrayObject).

(** [_.intersection(permissions, p)]: the elements of the array
    [permissions] found in [p], without duplicates; a string is not
    array-like and contributes nothing. *)
Definition intersection (permissions : StrOrArr) (p : gset string) : list string :=
  match permissions with
  | Arr l => remove_dups (filter (λ x, x ∈ p) l)
  | Str _ => []
  end.

(** [removeUserRoles(userId, roles)] *)
Definition removeUserRoles (acl : Acl) (userId : UserID) (roles : StrOrArr)
  : M unit :=
  let transaction := backend_begin in
  let transaction :=
    backend_remove transaction (buckets_users (options acl)) (key_of userId)
      (makeArray roles) in
  let transaction :=
    match roles with
    | Arr l =>
        foldl (λ t role,
                 backend_remove t (buckets_roles (options acl)) role
                   [key_of userId])
          transaction l
    | Str role =>
        backend_remove transaction (buckets_roles (options acl)) role
          [key_of userId]
    end in
  backend_end transaction.

(** [roleUsers(roleName)] *)
Definition roleUsers (acl : Acl) (roleName : string) : M (gset string) :=
  backend_get (buckets_roles (options acl)) roleName.

(** [removeResource(resource)] *)
Definition removeResource (acl : Acl) (resource : string) : M unit :=
  let* roles := backend_get (buckets_meta (options acl)) "roles" in
  let transaction := backend_begin in
  let transaction :=
    backend_del transaction (allowsBucket resource) (elements roles) in
  let transaction :=
    foldl (λ t role,
             backend_remove t (buckets_resources (options acl)) role [resource])
      transaction (elements roles) in
  backend_end transaction.

(** [_allowEx(objs)]: the compact grant, one [allow] call (one batch) per
    demultiplexed entry, in sequence. *)
Definition _allowEx (acl : Acl) (objs : SpecOrArr) : M unit :=
  let objs := makeSpecArray objs in
  let demuxed :=
    objs ≫= λ obj,
      (λ entry, (spec_roles obj, entry_resources entry, entry_permissions entry))
        <$> spec_allows obj in
  forEachM (λ _ '(roles, resources, permissions),
              allow acl roles resources permissions)
    tt demuxed.

(** [_rolesResources(roles)]; the concatenated array is modelled by the set
    of its elements. *)
Definition _rolesResources (acl : Acl) (fuel : nat) (roles : StrOrArr)
  : M (gset string) :=
  let roles := makeArray roles in
  let* allRoles := _allRoles acl fuel (list_to_set roles) in
  forEachM (λ result role,
              let* resources := backend_get (buckets_resources (options acl)) role in
              ret (result ∪ resources))
    ∅ (elements allRoles).

(** [permittedResources(roles, permissions)]; the test on [permissions],
    constant through the loop, is taken once outside of it. An assignment
    that throws rejects the result; the lookups for the other resources
    have been started by then and still run. The order of the assignments
    only matters when one of them is to [length]. *)
Definition permittedResources (acl : Acl) (fuel : nat) (roles : StrOrArr)
    (permissions : option StrOrArr) : M Permitted :=
  let* resources := _rolesResources acl fuel roles in
  match permissions with
  | None =>
      let* m :=
        forEachM (λ result resource,
                    let* p := _resourcePermissions acl fuel
                                (list_to_set (makeArray roles)) resource in
                    ret (<[resource := p]> result))
          ∅ (elements resources) in
      ret (PermittedObject m)
  | Some ps =>
      if truthy permissions
      then
        let* items :=
          forEachM (λ result resource,
                      let* p := _resourcePermissions acl fuel
                                  (list_to_set (makeArray roles)) resource in
                      let commonPermissions := intersection ps p in
                      if bool_decide (0 < length commonPermissions)
                      then ret (result ∪ {[resource]})
                      else ret result)
            ∅ (elements resources) in
        ret (PermittedArray items ∅)
      else
        let* result :=
          forEachM (λ result resource,
                      let* p := _resourcePermissions acl fuel
                                  (list_to_set (makeArray roles)) resource in
                      ret (result ≫= λ a, array_assign a resource p))
            (Some empty_array) (elements resources) in
        match result with
        | Some a => ret (PermittedIndexed a)
        | None => throw (RangeError "Invalid array length")
        end
  end.

(** [whatResources(roles, permissions)] (promise form: [permissions] is not
    a callback). *)
Definition whatResources (acl : Acl) (fuel : nat) (roles : StrOrArr)
    (permissions : option StrOrArr) : M Permitted :=
  let roles := Arr (makeArray roles) in
  let permissions :=
    match permissions with
    | Some ps => if truthy permissions then Some (Arr (makeArray ps)) else permissions
    | None => None
    end in
  permittedResources acl fuel roles permissions.

(** ** Vocabulary for batches and invariants *)

(** An operation of a batch that can only grow the store. *)
Definition addition (op : Op) : Prop :=
  match op with
  | OpAdd _ _ _ => True
  | _ => False
  end.

(** What an operation adds to the set at key [k] of bucket [b]. *)
Definition added (b k : string) (op : Op) : gset string :=
  match op with
  | OpAdd b' k' vs => if decide (b = b' ∧ k = k') then list_to_set vs else ∅
  | _ => ∅
  end.

(** What an operation removes from the set at key [k] of bucket [b]. *)
Definition removed (b k : string) (op : Op) : gset string :=
  match op with
  | OpRemove b' k' vs => if decide (b = b' ∧ k = k') then list_to_set vs else ∅
  | _ => ∅
  end.

(** The operation deletes key [k] of bucket [b]. *)
Definition deletes (b k : string) (op : Op) : bool :=
  match op with
  | OpDel b' ks => bool_decide (b = b' ∧ k ∈ ks)
  | _ => false
  end.

(** The batch of [addUserRoles]. *)
Definition addUserRoles_batch (acl : Acl) (userId : UserID) (roles : StrOrArr)
  : list Op :=
  [OpAdd (buckets_meta (options acl)) "users" [key_of userId];
   OpAdd (buckets_users (options acl)) (key_of userId) (makeArray roles)]
  ++ ((λ role, OpAdd (buckets_roles (options acl)) role [key_of userId])
        <$> makeArray roles).

(** The batch of [removeUserRoles]. *)
Definition removeUserRoles_batch (acl : Acl) (userId : UserID) (roles : StrOrArr)
  : list Op :=
  OpRemove (buckets_users (options acl)) (key_of userId) (makeArray roles)
  :: ((λ role, OpRemove (buckets_roles (options acl)) role [key_of userId])
        <$> makeArray roles).

(** The batch of [allow]. *)
Definition allow_batch (acl : Acl) (roles resources permissions : StrOrArr)
  : list Op :=
  [OpAdd (buckets_meta (options acl)) "roles" (makeArray roles)]
  ++ (makeArray resources ≫= λ resource,
        (λ role, OpAdd (allowsBucket resource) role (makeArray permissions))
          <$> makeArray roles)
  ++ ((λ role, OpAdd (buckets_resources (options acl)) role (makeArray resources))
        <$> makeArray roles).

(** The batch of [removeResource] when [meta.roles] holds [roles]. *)
Definition removeResource_batch (acl : Acl) (resource : string)
    (roles : list string) : list Op :=
  OpDel (allowsBucket resource) roles
  :: ((λ role, OpRemove (buckets_resources (options acl)) role [resource])
        <$> roles).

(** [users] and [roles] mirror each other: a user lists a role exactly when
    the role lists the user. *)
Definition mirrored (acl : Acl) (st : gmap string (gmap string (gset string)))
  : Prop :=
  ∀ u r,
    r ∈ store_get st (buckets_users (options acl)) u
    ↔ u ∈ store_get st (buckets_roles (options acl)) r.

(** Every grant is indexed: a role that holds a permission on a resource
    lists the resource in [resources[role]]. *)
Definition indexed (acl : Acl) (st : gmap string (gmap string (gset string)))
  : Prop :=
  ∀ role resource,
    store_get st (allowsBucket resource) role ≠ ∅ →
    resource ∈ store_get st (buckets_resources (options acl)) role.

(** The roles reachable from [roles] along parent edges, [roles] included. *)
Definition ancestor (acl : Acl) (st : gmap string (gmap string (gset string)))
    (roles : gset string) (b : string) : Prop :=
  ∃ a, a ∈ roles ∧ rtc (parent_edge acl st) a b.

(** What a revoke with argument [permissions] leaves of the grant [old]:
    the permissions it does not list, or nothing when the whole entry is
    dropped (no argument, or a falsy one). *)
Definition left_after_revoke (permissions : option StrOrArr) (old : gset string)
  : gset string :=
  if truthy permissions
  then old ∖ list_to_set (from_option makeArray [] permissions)
  else ∅.

(** Every level above [roles] holds some role: the upward walk never ends. *)
Definition endless (acl : Acl) (st : gmap string (gmap string (gset string)))
    (roles : gset string) : Prop :=
  ∀ k, level acl st roles k ≠ ∅.

(** The entries of a compact grant, in the order [_allowEx] processes them. *)
Definition demux (objs : SpecOrArr) : list (StrOrArr * StrOrArr * StrOrArr) :=
  makeSpecArray objs ≫= λ obj,
    (λ entry, (spec_roles obj, entry_resources entry, entry_permissions entry))
      <$> spec_allows obj.

(** The resources recorded for some role of [roles]. *)
Definition recorded_resources (acl : Acl)
    (st : gmap string (gmap string (gset string))) (roles : gset string)
  : gset string :=
  store_union st (buckets_resources (options acl)) roles.

(** A role that is its own parent. *)
Definition loop_world : World :=
  exec (addRoleParents demo_acl "A" (Str "A")) empty_world.


(** * Properties *)

(** ** The bucket naming function and its inverse *)

Lemma strip_prefix_app p s : strip_prefix p (p +:+ s) = Some s.
Proof.
  induction p as [|c p IH]; simpl; [done|].
  by rewrite Ascii.eqb_refl.
Qed.

Lemma keyFromAllowsBucket_allowsBucket resource :
  keyFromAllowsBucket (allowsBucket resource) = resource.
Proof.
  unfold keyFromAllowsBucket, allowsBucket. by rewrite strip_prefix_app.
Qed.

Lemma allowsBucket_inj r1 r2 : allowsBucket r1 = allowsBucket r2 → r1 = r2.
Proof.
  intros H. rewrite <-(keyFromAllowsBucket_allowsBucket r1), H.
  apply keyFromAllowsBucket_allowsBucket.
Qed.

Lemma allowsBucket_stripped resource :
  strip_prefix "allows_" (allowsBucket resource) = Some resource.
Proof. apply strip_prefix_app. Qed.

(** ** The store under queued mutations *)

Lemma lookup_foldr_delete {V} (m : gmap string V) (ks : list string) k :
  foldr delete m ks !! k = if decide (k ∈ ks) then None else m !! k.
Proof.
  induction ks as [|k' ks IH]; simpl.
  - destruct (decide (k ∈ [])) as [H|_]; [by apply elem_of_nil in H|done].
  - rewrite lookup_delete. destruct (decide (k' = k)) as [->|Hne].
    + rewrite decide_True; [done|by left].
    + rewrite IH. repeat case_decide; set_solver.
Qed.

Lemma store_get_add st b k vs b' k' :
  store_get (apply_op st (OpAdd b k vs)) b' k' =
    if decide (b' = b ∧ k' = k)
    then store_get st b k ∪ list_to_set vs
    else store_get st b' k'.
Proof.
  unfold store_get, bucket_of; simpl.
  rewrite lookup_insert. destruct (decide (b = b')) as [->|Hb]; simpl.
  - rewrite lookup_insert. destruct (decide (k = k')) as [->|Hk]; simpl.
    + by rewrite decide_True.
    + rewrite decide_False; [done|naive_solver].
  - rewrite decide_False; [done|naive_solver].
Qed.

Lemma store_get_remove st b k vs b' k' :
  store_get (apply_op st (OpRemove b k vs)) b' k' =
    if decide (b' = b ∧ k' = k)
    then store_get st b k ∖ list_to_set vs
    else store_get st b' k'.
Proof.
  unfold store_get, bucket_of; simpl.
  rewrite lookup_alter. destruct (decide (b = b')) as [->|Hb]; simpl.
  - destruct (st !! b') as [m|] eqn:Hm; simpl.
    + rewrite lookup_alter. destruct (decide (k = k')) as [->|Hk]; simpl.
      * rewrite decide_True by done. destruct (m !! k'); simpl; set_solver.
      * rewrite decide_False; [done|naive_solver].
    + rewrite lookup_empty; simpl. case_decide; set_solver.
  - rewrite decide_False; [done|naive_solver].
Qed.

Lemma store_get_del st b ks b' k' :
  store_get (apply_op st (OpDel b ks)) b' k' =
    if decide (b' = b ∧ k' ∈ ks) then ∅ else store_get st b' k'.
Proof.
  unfold store_get, bucket_of; simpl.
  rewrite lookup_alter. destruct (decide (b = b')) as [->|Hb]; simpl.
  - destruct (st !! b') as [m|] eqn:Hm; simpl.
    + rewrite lookup_foldr_delete. destruct (decide (k' ∈ ks)); simpl.
      * by rewrite decide_True.
      * rewrite decide_False; [done|naive_solver].
    + rewrite lookup_empty; simpl. by case_decide.
  - rewrite decide_False; [done|naive_solver].
Qed.

Arguments apply_op : simpl never.

Lemma apply_ops_app st t1 t2 :
  apply_ops st (t1 ++ t2) = apply_ops (apply_ops st t1) t2.
Proof. apply foldl_app. Qed.

Lemma apply_ops_cons st op t :
  apply_ops st (op :: t) = apply_ops (apply_op st op) t.
Proof. reflexivity. Qed.

Lemma removal_shrinks st op b k :
  removal op → store_get (apply_op st op) b k ⊆ store_get st b k.
Proof.
  destruct op as [b0 k0 vs|b0 k0 vs|b0 ks]; intros Hop; [done| |].
  - rewrite store_get_remove. case_decide as H; [|done].
    destruct H as [-> ->]. set_solver.
  - rewrite store_get_del. case_decide; set_solver.
Qed.

Lemma removals_shrink t st b k :
  Forall removal t → store_get (apply_ops st t) b k ⊆ store_get st b k.
Proof.
  revert st. induction t as [|op t IH]; intros st Ht; simpl; [done|].
  inversion Ht as [|? ? Hop Ht']; subst.
  etrans; [by apply IH|by apply removal_shrinks].
Qed.

Lemma untouched_op st op b k :
  ¬ touches b k op → store_get (apply_op st op) b k = store_get st b k.
Proof.
  destruct op as [b0 k0 vs|b0 k0 vs|b0 ks]; intros Hop; simpl in Hop.
  - rewrite store_get_add. by rewrite decide_False.
  - rewrite store_get_remove. by rewrite decide_False.
  - rewrite store_get_del. by rewrite decide_False.
Qed.

Lemma untouched_ops t st b k :
  Forall (λ op, ¬ touches b k op) t →
  store_get (apply_ops st t) b k = store_get st b k.
Proof.
  revert st. induction t as [|op t IH]; intros st Ht; simpl; [done|].
  inversion Ht as [|? ? Hop Ht']; subst.
  rewrite IH by done. by apply untouched_op.
Qed.

(** ** Well-separated bucket names *)

Lemma separate_buckets_spec o :
  separate_buckets o = true →
  NoDup [buckets_meta o; buckets_parents o; buckets_resources o;
         buckets_roles o; buckets_users o]
  ∧ Forall (λ b, strip_prefix "allows_" b = None)
      [buckets_meta o; buckets_parents o; buckets_resources o;
       buckets_roles o; buckets_users o].
Proof.
  unfold separate_buckets. intros [Hnd Hall]%andb_true_iff. split.
  - by apply bool_decide_eq_true_1 in Hnd.
  - apply Forall_forall. intros b Hb. apply list_elem_of_In in Hb.
    rewrite forallb_forall in Hall. specialize (Hall b Hb).
    by apply bool_decide_eq_true_1 in Hall.
Qed.

Lemma separate_not_allows o b resource :
  separate_buckets o = true →
  b ∈ [buckets_meta o; buckets_parents o; buckets_resources o;
       buckets_roles o; buckets_users o] →
  b ≠ allowsBucket resource.
Proof.
  intros [_ Hall]%separate_buckets_spec Hb ->.
  rewrite Forall_forall in Hall. specialize (Hall _ Hb).
  by rewrite allowsBucket_stripped in Hall.
Qed.

(** ** Queries that never reach the permission buckets *)

Lemma size_zero_empty (X : gset string) : size X = 0 ↔ X = ∅.
Proof. rewrite size_empty_iff. by unfold_leibniz. Qed.

Lemma falsy_id_cases uid :
  truthy_id uid = false ↔ uid ∈ [UidStr ""; UidNum 0; UidNull; UidUndefined].
Proof.
  split.
  - destruct uid as [| |s|n]; simpl; intros H.
    + set_solver.
    + set_solver.
    + apply negb_false_iff, String.eqb_eq in H. subst. set_solver.
    + apply negb_false_iff, Z.eqb_eq in H. subst. set_solver.
  - rewrite !elem_of_cons, elem_of_nil. intros [->|[->|[->|[->|[]]]]]; done.
Qed.

(** C10. For a falsy user id, [allowedPermissions] and
    [optimizedAllowedPermissions] evaluate the unbound identifier [cb]: both
    throw a [ReferenceError] instead of returning an empty mapping, and the
    world (store and trace of backend calls) is exactly the one they were
    started in. *)
Theorem allowedPermissions_falsy_user acl fuel uid resources w :
  truthy_id uid = false →
  allowedPermissions acl fuel uid resources w = Throw (ReferenceError "cb") w
  ∧ optimizedAllowedPermissions acl fuel uid resources w
    = Throw (ReferenceError "cb") w.
Proof.
  intros Hfalsy.
  unfold allowedPermissions, optimizedAllowedPermissions.
  by rewrite Hfalsy.
Qed.

Lemma allowedPermissions_falsy_user_witness :
  allowedPermissions demo_acl 3 (UidStr "") (Str "doc") demo_world
    = Throw (ReferenceError "cb") demo_world
  ∧ optimizedAllowedPermissions demo_acl 3 (UidStr "") (Str "doc") demo_world
    = Throw (ReferenceError "cb") demo_world.
Proof. apply allowedPermissions_falsy_user. reflexivity. Defined.

(** C7. For a user whose [users[userId]] set is empty, [isAllowed] answers
    [false] after a single backend call, the read of [users[userId]]; that
    call is not a read of a permissions bucket. [areAnyRolesAllowed] on an
    empty role array answers [false] with no backend call at all. *)
Theorem isAllowed_no_roles acl fuel uid resource permissions w :
  separate_buckets (options acl) = true →
  store_get (store w) (buckets_users (options acl)) (key_of uid) = ∅ →
  isAllowed acl fuel uid resource permissions w
    = Ok false (record (EvGet (buckets_users (options acl)) (key_of uid)) w)
  ∧ reads_allows (EvGet (buckets_users (options acl)) (key_of uid)) = false
  ∧ areAnyRolesAllowed acl fuel (Arr []) resource permissions w = Ok false w.
Proof.
  intros Hsep Hnone. split; [|split].
  - unfold isAllowed, bind, backend_get. rewrite Hnone.
    by rewrite bool_decide_eq_false_2 by (rewrite size_empty; lia).
  - unfold reads_allows. apply bool_decide_eq_false_2. intros [x Hx].
    apply separate_buckets_spec in Hsep as [_ Hsep].
    rewrite Forall_forall in Hsep.
    specialize (Hsep (buckets_users (options acl))).
    rewrite Hsep in Hx; [done|]. set_solver.
  - reflexivity.
Qed.

Lemma isAllowed_no_roles_witness :
  isAllowed demo_acl 0 (UidStr "u2") "doc" (Str "read") demo_world
    = Ok false (record (EvGet "users" "u2") demo_world)
  ∧ reads_allows (EvGet "users" "u2") = false
  ∧ areAnyRolesAllowed demo_acl 0 (Arr []) "doc" (Str "read") demo_world
    = Ok false demo_world.
Proof.
  apply (isAllowed_no_roles demo_acl 0 (UidStr "u2") "doc" (Str "read") demo_world).
  - reflexivity.
  - vm_compute. reflexivity.
Defined.

(** ** The wildcard *)

Lemma elem_of_store_union st b ks x :
  x ∈ store_union st b ks ↔ ∃ k, k ∈ ks ∧ x ∈ store_get st b k.
Proof. unfold store_union. apply elem_of_set_bind. Qed.

Lemma wildcard_grant_in_union st resource roles role :
  role ∈ roles →
  "*" ∈ store_get st (allowsBucket resource) role →
  "*" ∈ store_union st (allowsBucket resource) roles.
Proof. intros ? ?. apply elem_of_store_union. eauto. Qed.

(** C2. When the union of the permissions granted on a resource to the roles
    at the current level contains ["*"], the allow check answers [true] for
    any requested permissions, granted or not; its only backend call is that
    union over the permissions bucket, so neither the remaining permissions
    nor the parents are consulted. The same holds when the check is entered
    through [areAnyRolesAllowed]. *)
Theorem checkPermissions_wildcard acl fuel roles resource permissions w :
  "*" ∈ store_union (store w) (allowsBucket resource) roles →
  _checkPermissions acl (S fuel) roles resource permissions w
    = Ok true (record (EvUnion (allowsBucket resource) roles) w)
  ∧ areAnyRolesAllowed acl (S fuel) (Arr (elements roles)) resource
      (Arr permissions) w
    = Ok true (record (EvUnion (allowsBucket resource) roles) w).
Proof.
  intros Hstar.
  assert (_checkPermissions acl (S fuel) roles resource permissions w
          = Ok true (record (EvUnion (allowsBucket resource) roles) w)) as Hcheck.
  { simpl. unfold bind, backend_union. by rewrite bool_decide_eq_true_2. }
  split; [done|].
  unfold areAnyRolesAllowed. cbv zeta. cbn [makeArray].
  rewrite bool_decide_eq_false_2.
  - by rewrite list_to_set_elements_L.
  - intros Hlen. apply nil_length_inv in Hlen.
    apply elem_of_store_union in Hstar as (role & Hrole & _).
    apply elem_of_elements in Hrole. rewrite Hlen in Hrole.
    by apply elem_of_nil in Hrole.
Qed.

Lemma checkPermissions_wildcard_witness :
  _checkPermissions demo_acl 1 {["A"]} "doc" ["delete"; "publish"] wild_world
    = Ok true (record (EvUnion "allows_doc" {["A"]}) wild_world)
  ∧ areAnyRolesAllowed demo_acl 1 (Arr (elements ({["A"]} : gset string))) "doc"
      (Arr ["delete"; "publish"]) wild_world
    = Ok true (record (EvUnion "allows_doc" {["A"]}) wild_world).
Proof.
  apply (checkPermissions_wildcard demo_acl 0 {["A"]} "doc"
           ["delete"; "publish"] wild_world).
  apply (wildcard_grant_in_union _ _ _ "A").
  - vm_compute. reflexivity.
  - vm_compute. reflexivity.
Defined.

(** ** Batches that only remove *)

Lemma removals_remove t st b k vs :
  Forall removal t → OpRemove b k vs ∈ t →
  store_get (apply_ops st t) b k ⊆ store_get st b k ∖ list_to_set vs.
Proof.
  intros Hall (t1 & t2 & ->)%list_elem_of_split.
  apply Forall_app in Hall as [H1 H2]. apply Forall_cons in H2 as [_ H2].
  rewrite apply_ops_app. simpl.
  etrans; [by apply removals_shrink|].
  rewrite store_get_remove, decide_True by done.
  pose proof (removals_shrink t1 st b k H1). set_solver.
Qed.

Lemma removals_del t st b k ks :
  Forall removal t → OpDel b ks ∈ t → k ∈ ks →
  store_get (apply_ops st t) b k = ∅.
Proof.
  intros Hall (t1 & t2 & ->)%list_elem_of_split Hk.
  apply Forall_app in Hall as [H1 H2]. apply Forall_cons in H2 as [_ H2].
  rewrite apply_ops_app. simpl.
  pose proof (removals_shrink t2 (apply_op (apply_ops st t1) (OpDel b ks)) b k H2)
    as Hsub.
  rewrite store_get_del, decide_True in Hsub by done. set_solver.
Qed.

Lemma foldl_snoc {A B} (f : A → B) (t : list B) (l : list A) :
  foldl (λ t x, (t ++ [f x])%list) t l = (t ++ (f <$> l))%list.
Proof.
  revert t. induction l as [|x l IH]; intros t; simpl.
  - by rewrite app_nil_r.
  - rewrite IH. by rewrite <-app_assoc.
Qed.

Lemma foldl_snoc_bind {A B} (f : A → list B) (t : list B) (l : list A) :
  foldl (λ t x, (t ++ f x)%list) t l = (t ++ (l ≫= f))%list.
Proof.
  revert t. induction l as [|x l IH]; intros t; simpl.
  - by rewrite app_nil_r.
  - rewrite IH. by rewrite <-app_assoc.
Qed.

(** ** Parent edges *)

(** What [removeRoleParents] does on each branch of its guard
    [if (parents)]: with a truthy argument (a non-empty string or any array)
    it removes exactly the listed parent edges of [role]; on the other
    branch it deletes the whole [parents[role]] set. The parents of every
    other role are unchanged. *)
Lemma removeRoleParents_branches acl role parents w :
  ∃ w',
    removeRoleParents acl role parents w = Ok tt w'
    ∧ ∀ r,
        store_get (store w') (buckets_parents (options acl)) r =
          if decide (r = role)
          then
            if truthy parents
            then store_get (store w) (buckets_parents (options acl)) role
                 ∖ list_to_set (from_option makeArray [] parents)
            else ∅
          else store_get (store w) (buckets_parents (options acl)) r.
Proof.
  eexists. split; [reflexivity|]. intros r. simpl.
  destruct parents as [ps|]; [destruct (truthy (Some ps)) eqn:Ht|];
    unfold backend_begin, backend_remove, backend_del; simpl.
  - rewrite store_get_remove. destruct (decide (r = role)) as [->|Hne].
    + by rewrite decide_True.
    + rewrite decide_False; [done|]. by intros [_ ?].
  - rewrite store_get_del. destruct (decide (r = role)) as [->|Hne].
    + rewrite decide_True; [done|]. split; [done|]. by left.
    + rewrite decide_False; [done|]. intros [_ Hr].
      apply list_elem_of_singleton in Hr. done.
  - rewrite store_get_del. destruct (decide (r = role)) as [->|Hne].
    + rewrite decide_True; [done|]. split; [done|]. by left.
    + rewrite decide_False; [done|]. intros [_ Hr].
      apply list_elem_of_singleton in Hr. done.
Qed.

(** C8, at the failing input. The docstring of [removeRoleParents] reads
    "If `parents` is not specified, removes all parents", and the empty
    string is a specified parent. Yet the guard [if (parents)] is a
    truthiness test, so [removeRoleParents("A", "")] takes the delete branch:
    from [parents[A] = {"", "B"}] it leaves nothing, where removing exactly
    the listed edge would leave [{"B"}]. The sibling call
    [removeRoleParents("A", "B")] on the same store removes only the edge to
    ["B"]. *)
Theorem removeRoleParents_empty_string :
  let w := exec (addRoleParents demo_acl "A" (Arr [""; "B"])) empty_world in
  let w' := exec (removeRoleParents demo_acl "A" (Some (Str ""))) w in
  let w'' := exec (removeRoleParents demo_acl "A" (Some (Str "B"))) w in
  store_get (store w) "parents" "A" = {[""; "B"]}
  ∧ store_get (store w') "parents" "A" = ∅
  ∧ store_get (store w) "parents" "A" ∖ list_to_set (makeArray (Str "")) = {["B"]}
  ∧ store_get (store w'') "parents" "A" = {[""]}.
Proof.
  cbv zeta. repeat split; apply (bool_decide_unpack _); vm_compute; exact I.
Qed.

(** ** Deleting a role *)

Lemma removeRole_run acl role w :
  let t := removeRole_batch acl role
             (elements (store_get (store w) (buckets_resources (options acl)) role)) in
  removeRole acl role w =
    Ok tt {| store := apply_ops (store w) t;
             trace := EvEnd t
                      :: EvGet (buckets_resources (options acl)) role :: trace w |}.
Proof.
  unfold removeRole, removeRole_batch, bind, backend_get, backend_end,
    backend_del, backend_remove, backend_begin. simpl.
  rewrite (foldl_snoc (λ resource, OpDel (allowsBucket resource) [role])).
  by rewrite <-!app_assoc.
Qed.

Lemma removeRole_batch_removals acl role resources :
  Forall removal (removeRole_batch acl role resources).
Proof.
  unfold removeRole_batch. apply Forall_app. split.
  - apply Forall_fmap, Forall_true. done.
  - repeat constructor.
Qed.

(** C3. [removeRole(role)] empties [allows[resource][role]] for every
    resource recorded in [resources[role]], empties [resources[role]],
    [parents[role]] and [roles[role]], and takes the role out of
    [meta.roles]; every [users[userId]] set is left as it was, so a user
    who held the role still lists it. *)
Theorem removeRole_spec acl role w :
  separate_buckets (options acl) = true →
  ∃ w',
    removeRole acl role w = Ok tt w'
    ∧ (∀ resource,
         resource ∈ store_get (store w) (buckets_resources (options acl)) role →
         store_get (store w') (allowsBucket resource) role = ∅)
    ∧ store_get (store w') (buckets_resources (options acl)) role = ∅
    ∧ store_get (store w') (buckets_parents (options acl)) role = ∅
    ∧ (role ∉ store_get (store w') (buckets_meta (options acl)) "roles")
    ∧ store_get (store w') (buckets_roles (options acl)) role = ∅
    ∧ (∀ userId,
         store_get (store w') (buckets_users (options acl)) userId
         = store_get (store w) (buckets_users (options acl)) userId).
Proof.
  intros Hsep. eexists. split; [apply removeRole_run|]. simpl.
  set (resources := elements _).
  pose proof (removeRole_batch_removals acl role resources) as Hrem.
  assert (∀ b, b ∈ [buckets_resources (options acl); buckets_parents (options acl);
                    buckets_roles (options acl)] →
               OpDel b [role] ∈ removeRole_batch acl role resources) as Hdel.
  { intros b Hb. unfold removeRole_batch. apply elem_of_app. right.
    set_solver. }
  repeat split.
  - intros resource Hres. apply (removals_del _ _ _ _ [role]); [done| |by left].
    unfold removeRole_batch. apply elem_of_app. left.
    apply list_elem_of_fmap. exists resource. split; [done|].
    by apply elem_of_elements.
  - apply (removals_del _ _ _ _ [role]); [done| |by left]. apply Hdel. set_solver.
  - apply (removals_del _ _ _ _ [role]); [done| |by left]. apply Hdel. set_solver.
  - intros Hin.
    eapply (removals_remove _ (store w) _ _ [role]) in Hin; [|done|].
    + set_solver.
    + unfold removeRole_batch. apply elem_of_app. right. set_solver.
  - apply (removals_del _ _ _ _ [role]); [done| |by left]. apply Hdel. set_solver.
  - intros userId. apply untouched_ops.
    apply separate_buckets_spec in Hsep as Hspec. destruct Hspec as [Hnd _].
    unfold removeRole_batch. apply Forall_app. split.
    + apply Forall_fmap, Forall_forall. intros resource _ [Hb _].
      apply (separate_not_allows (options acl) _ resource) in Hb;
        [done|done|set_solver].
    + apply NoDup_cons in Hnd as [Hm Hnd].
      apply NoDup_cons in Hnd as [Hp Hnd].
      apply NoDup_cons in Hnd as [Hr Hnd].
      apply NoDup_cons in Hnd as [Hro Hnd].
      repeat constructor; simpl; intros [Hb _]; set_solver.
Qed.

Lemma removeRole_spec_witness :
  ∃ w',
    removeRole demo_acl "B" demo_world = Ok tt w'
    ∧ (∀ resource,
         resource ∈ store_get (store demo_world) "resources" "B" →
         store_get (store w') (allowsBucket resource) "B" = ∅)
    ∧ store_get (store w') "resources" "B" = ∅
    ∧ store_get (store w') "parents" "B" = ∅
    ∧ ("B" ∉ store_get (store w') "meta" "roles")
    ∧ store_get (store w') "roles" "B" = ∅
    ∧ (∀ userId,
         store_get (store w') "users" userId
         = store_get (store demo_world) "users" userId).
Proof. apply (removeRole_spec demo_acl "B" demo_world). reflexivity. Defined.

(** ** Granting and revoking *)

Lemma allow_run acl role resource permissions w :
  let t := [OpAdd (buckets_meta (options acl)) "roles" [role];
            OpAdd (allowsBucket resource) role (makeArray permissions);
            OpAdd (buckets_resources (options acl)) role [resource]] in
  allow acl (Str role) (Str resource) permissions w =
    Ok tt {| store := apply_ops (store w) t; trace := EvEnd t :: trace w |}.
Proof. reflexivity. Qed.

Lemma revoke_batch_foldl acl role resources permissions t :
  foldl (λ t resource,
           let bucket := allowsBucket resource in
           match permissions with
           | Some ps =>
               if truthy permissions
               then backend_remove t bucket role (makeArray ps)
               else backend_remove (backend_del t bucket [role])
                      (buckets_resources (options acl)) role [resource]
           | None =>
               backend_remove (backend_del t bucket [role])
                 (buckets_resources (options acl)) role [resource]
           end) t resources
  = (t ++ revoke_batch acl role resources permissions)%list.
Proof.
  revert t. induction resources as [|resource resources IH]; intros t.
  - by rewrite app_nil_r.
  - cbn [foldl]. rewrite IH. unfold revoke_batch. rewrite bind_cons.
    destruct permissions as [ps|]; [destruct (truthy (Some ps))|];
      unfold backend_remove, backend_del; by rewrite <-!app_assoc.
Qed.

Lemma cleanup_forEach acl role resources t w :
  forEachM (λ t resource,
              let bucket := allowsBucket resource in
              let* values := backend_get bucket role in
              if bool_decide (size values = 0)
              then ret (backend_remove t (buckets_resources (options acl)) role
                          [resource])
              else ret t) t resources w
  = Ok (t ++ cleanup_batch acl (store w) role resources)%list
      {| store := store w; trace := (cleanup_reads role resources ++ trace w)%list |}.
Proof.
  revert t w. induction resources as [|resource resources IH]; intros t w.
  - simpl. rewrite app_nil_r. by destruct w.
  - cbn [forEachM]. unfold bind at 1. unfold bind at 1. unfold backend_get at 1.
    unfold cleanup_batch, cleanup_reads. rewrite bind_cons, fmap_cons.
    rewrite reverse_cons, <-!app_assoc.
    case_bool_decide; unfold ret; rewrite IH; simpl;
      unfold backend_remove; by rewrite <-?app_assoc.
Qed.

Lemma removePermissions_run acl role resources permissions w :
  let t1 := revoke_batch acl role resources permissions in
  let st1 := apply_ops (store w) t1 in
  let t2 := cleanup_batch acl st1 role resources in
  removePermissions acl role resources permissions w =
    Ok tt {| store := apply_ops st1 t2;
             trace := (EvEnd t2 :: cleanup_reads role resources
                       ++ EvEnd t1 :: trace w)%list |}.
Proof.
  unfold removePermissions. rewrite revoke_batch_foldl.
  unfold bind at 1. unfold backend_end at 1. unfold backend_begin.
  cbv beta iota. unfold bind at 1. rewrite cleanup_forEach. reflexivity.
Qed.

Lemma revoke_batch_removals acl role resources permissions :
  Forall removal (revoke_batch acl role resources permissions).
Proof.
  unfold revoke_batch. apply Forall_bind, Forall_true. intros resource.
  unfold compose.
  destruct permissions as [ps|]; [destruct (truthy (Some ps))|];
    repeat constructor.
Qed.

Lemma cleanup_batch_removals acl st role resources :
  Forall removal (cleanup_batch acl st role resources).
Proof.
  unfold cleanup_batch. apply Forall_bind, Forall_true. intros resource.
  unfold compose.
  destruct (bool_decide (size (store_get st (allowsBucket resource) role) = 0));
    repeat constructor.
Qed.

(** After the first batch nothing that [permissions] revokes is left in
    [allows[resource][role]]. *)
Lemma revoke_batch_effect acl role resources permissions st resource :
  resource ∈ resources →
  store_get (apply_ops st (revoke_batch acl role resources permissions))
    (allowsBucket resource) role
  ⊆ if truthy permissions
    then store_get st (allowsBucket resource) role
         ∖ list_to_set (from_option makeArray [] permissions)
    else ∅.
Proof.
  intros Hres.
  pose proof (revoke_batch_removals acl role resources permissions) as Hrem.
  destruct (truthy permissions) eqn:Ht.
  - destruct permissions as [ps|]; [|done]. simpl.
    apply removals_remove; [done|]. unfold revoke_batch.
    apply list_elem_of_bind. exists resource. split; [|done].
    rewrite Ht. by left.
  - rewrite (removals_del _ _ _ _ [role]); [done|done| |by left].
    unfold revoke_batch. apply list_elem_of_bind. exists resource.
    split; [|done]. destruct permissions as [ps|]; [rewrite Ht|]; by left.
Qed.

(** C4. Granting permissions to a role on a resource and then revoking the
    same permissions leaves none of them in [allows[resource][role]]; when
    the role held no other permission on the resource before the grant, the
    set is empty afterwards. *)
Theorem allow_then_removeAllow acl role resource permissions w :
  ∃ w1 w2,
    allow acl (Str role) (Str resource) permissions w = Ok tt w1
    ∧ removeAllow acl role (Str resource) (Some permissions) w1 = Ok tt w2
    ∧ (∀ p, p ∈ makeArray permissions →
            p ∉ store_get (store w2) (allowsBucket resource) role)
    ∧ (separate_buckets (options acl) = true →
       store_get (store w) (allowsBucket resource) role
         ⊆ list_to_set (makeArray permissions) →
       store_get (store w2) (allowsBucket resource) role = ∅).
Proof.
  eexists. eexists. split; [apply allow_run|].
  split; [unfold removeAllow; apply removePermissions_run|].
  cbn [store makeArray].
  set (st0 := apply_ops (store w) _).
  set (st1 := apply_ops st0 _).
  pose proof (removals_shrink (cleanup_batch acl st1 role [resource]) st1
                (allowsBucket resource) role
                (cleanup_batch_removals acl st1 role [resource])) as Hshrink.
  pose proof (revoke_batch_effect acl role [resource] (Some permissions) st0
                resource ltac:(by left)) as Heffect.
  fold st1 in Heffect. split.
  - intros p Hp Hin. apply Hshrink, Heffect in Hin.
    destruct (truthy (Some permissions)); [|set_solver].
    simpl in Hin. set_solver.
  - intros Hsep Hold.
    assert (store_get st0 (allowsBucket resource) role
            = store_get (store w) (allowsBucket resource) role
              ∪ list_to_set (makeArray permissions)) as Hgrant.
    { unfold st0. rewrite !apply_ops_cons. cbn [apply_ops foldl].
      rewrite store_get_add, decide_False.
      2:{ intros [Hb _]. symmetry in Hb.
          by apply (separate_not_allows (options acl) _ resource) in Hb;
            [|done|set_solver]. }
      rewrite store_get_add, decide_True by done.
      rewrite store_get_add, decide_False; [done|].
      intros [Hb _]. symmetry in Hb.
      by apply (separate_not_allows (options acl) _ resource) in Hb;
        [|done|set_solver]. }
    destruct (truthy (Some permissions)); [|set_solver].
    simpl in Heffect. set_solver.
Qed.

Lemma allow_then_removeAllow_witness :
  ∃ w1 w2,
    allow demo_acl (Str "A") (Str "doc") (Str "write") demo_world = Ok tt w1
    ∧ removeAllow demo_acl "A" (Str "doc") (Some (Str "write")) w1 = Ok tt w2
    ∧ (∀ p, p ∈ makeArray (Str "write") →
            p ∉ store_get (store w2) (allowsBucket "doc") "A")
    ∧ store_get (store w2) (allowsBucket "doc") "A" = ∅.
Proof.
  destruct (allow_then_removeAllow demo_acl "A" "doc" (Str "write") demo_world)
    as (w1 & w2 & H1 & H2 & H3 & H4).
  exists w1, w2. repeat split; [exact H1|exact H2|exact H3|].
  apply H4.
  - reflexivity.
  - apply (bool_decide_unpack _). vm_compute. exact I.
Defined.

(** C5. When the permissions revoked from [role] on [resource] are all the
    role holds there, [removePermissions] ends its first batch, re-reads
    [allows[resource][role]], finds it empty and, in a second batch, removes
    the resource from [resources[role]]: afterwards the resource is absent
    from the role's resource set. *)
Theorem removePermissions_drops_resource acl role resources permissions
    resource w :
  resource ∈ resources →
  revokes_all permissions (store_get (store w) (allowsBucket resource) role) →
  ∃ w' t1 t2,
    removePermissions acl role resources permissions w = Ok tt w'
    ∧ trace w' = (EvEnd t2 :: cleanup_reads role resources
                  ++ EvEnd t1 :: trace w)%list
    ∧ store w' = apply_ops (apply_ops (store w) t1) t2
    ∧ EvGet (allowsBucket resource) role ∈ cleanup_reads role resources
    ∧ store_get (apply_ops (store w) t1) (allowsBucket resource) role = ∅
    ∧ OpRemove (buckets_resources (options acl)) role [resource] ∈ t2
    ∧ (resource ∉ store_get (store w') (buckets_resources (options acl)) role).
Proof.
  intros Hres Hall. eexists. eexists. eexists.
  split; [apply removePermissions_run|].
  cbn [store trace]. set (st1 := apply_ops (store w) _).
  assert (store_get st1 (allowsBucket resource) role = ∅) as Hempty.
  { pose proof (revoke_batch_effect acl role resources permissions (store w)
                  resource Hres) as Heffect.
    fold st1 in Heffect. apply set_eq. intros p. split; [|set_solver].
    intros Hp. apply Heffect in Hp.
    destruct permissions as [ps|]; [|done].
    destruct (truthy (Some ps)) eqn:Ht; [|done].
    destruct Hall as [Hf|Hsub]; [congruence|]. simpl in Hp. set_solver. }
  assert (OpRemove (buckets_resources (options acl)) role [resource]
          ∈ cleanup_batch acl st1 role resources) as Hop.
  { unfold cleanup_batch. apply list_elem_of_bind. exists resource.
    split; [|done]. rewrite Hempty, size_empty.
    rewrite bool_decide_eq_true_2 by done. by left. }
  repeat split; try done.
  - unfold cleanup_reads. apply elem_of_reverse, list_elem_of_fmap. eauto.
  - intros Hin.
    eapply (removals_remove _ st1 _ _ [resource]) in Hin;
      [|apply cleanup_batch_removals|exact Hop].
    set_solver.
Qed.

Lemma removePermissions_drops_resource_witness :
  ∃ w' t1 t2,
    removePermissions demo_acl "B" ["doc"] (Some (Str "read")) demo_world = Ok tt w'
    ∧ trace w' = (EvEnd t2 :: cleanup_reads "B" ["doc"]
                  ++ EvEnd t1 :: trace demo_world)%list
    ∧ store w' = apply_ops (apply_ops (store demo_world) t1) t2
    ∧ EvGet (allowsBucket "doc") "B" ∈ cleanup_reads "B" ["doc"]
    ∧ store_get (apply_ops (store demo_world) t1) (allowsBucket "doc") "B" = ∅
    ∧ OpRemove "resources" "B" ["doc"] ∈ t2
    ∧ ("doc" ∉ store_get (store w') "resources" "B").
Proof.
  apply (removePermissions_drops_resource demo_acl "B" ["doc"]
           (Some (Str "read")) "doc" demo_world).
  - apply list_elem_of_here.
  - right. apply (bool_decide_unpack _). vm_compute. exact I.
Defined.

(** ** The role hierarchy *)

Section hierarchy.
Context (acl : Acl) (st : gmap string (gmap string (gset string))).

Local Abbreviation P := (buckets_parents (options acl)).

Lemma store_union_empty b : store_union st b ∅ = ∅.
Proof. apply set_eq. intros x. rewrite elem_of_store_union. set_solver. Qed.

Lemma store_union_union b X Y :
  store_union st b (X ∪ Y) = store_union st b X ∪ store_union st b Y.
Proof.
  apply set_eq. intros x.
  rewrite elem_of_union, !elem_of_store_union. set_solver.
Qed.

Lemma store_union_singleton b k : store_union st b {[k]} = store_get st b k.
Proof. apply set_eq. intros x. rewrite elem_of_store_union. set_solver. Qed.

Lemma level_empty k : level acl st ∅ k = ∅.
Proof. induction k as [|k IH]; simpl; [done|]. by rewrite store_union_empty. Qed.

Lemma level_union X Y k :
  level acl st (X ∪ Y) k = level acl st X k ∪ level acl st Y k.
Proof.
  revert X Y. induction k as [|k IH]; intros X Y; simpl; [done|].
  by rewrite store_union_union, IH.
Qed.

Lemma level_add X j k :
  level acl st X (j + k) = level acl st (level acl st X j) k.
Proof. revert X. induction j as [|j IH]; intros X; simpl; [done|]. apply IH. Qed.

Lemma level_vanished X (n m : nat) :
  level acl st X n = ∅ → n ≤ m → level acl st X m = ∅.
Proof.
  intros Hn Hle. replace m with (n + (m - n)) by lia.
  by rewrite level_add, Hn, level_empty.
Qed.

Lemma reach_empty n : reach acl st ∅ n = ∅.
Proof.
  induction n as [|n IH]; simpl; [done|].
  rewrite store_union_empty, IH. set_solver.
Qed.

Lemma reach_union X Y n :
  reach acl st (X ∪ Y) n = reach acl st X n ∪ reach acl st Y n.
Proof.
  revert X Y. induction n as [|n IH]; intros X Y; simpl; [done|].
  rewrite store_union_union, IH. set_solver.
Qed.

(** An ancestor of a role of [X] sits at some level above [X]. *)
Lemma tc_level X a b :
  a ∈ X → tc (parent_edge acl st) a b → ∃ k, b ∈ level acl st X (S k).
Proof.
  intros Ha Htc. revert X Ha.
  induction Htc as [a b Hab|a c b Hac _ IH]; intros X Ha.
  - exists 0. simpl. apply elem_of_store_union. eauto.
  - destruct (IH (store_union st P X)) as [k Hk].
    + apply elem_of_store_union. eauto.
    + exists (S k). exact Hk.
Qed.

Lemma parent_in_all_parents r p :
  parent_edge acl st r p → p ∈ all_parents acl st.
Proof.
  unfold parent_edge, store_get, all_parents.
  destruct (bucket_of st P !! r) as [S|] eqn:Hr; simpl; [|set_solver].
  intros Hp. apply elem_of_union_list. exists S. split; [|done].
  apply list_elem_of_fmap. exists (r, S). split; [done|].
  by apply elem_of_map_to_list.
Qed.

Lemma tc_in_all_parents r p :
  tc (parent_edge acl st) r p → p ∈ all_parents acl st.
Proof.
  induction 1 as [r p Hrp|r q p _ _ IH]; [|done].
  by eapply parent_in_all_parents.
Qed.

(** On an acyclic hierarchy every upward walk ends. *)
Lemma acyclic_sn r : acyclic acl st → sn (parent_edge acl st) r.
Proof.
  intros Hacyc. apply tc_finite_sn.
  - intros x. apply Hacyc.
  - exists (elements (all_parents acl st)). intros p Hp.
    apply elem_of_elements. by apply (tc_in_all_parents r).
Qed.

Lemma level_vanishes_set X :
  (∀ r, r ∈ X → ∃ n, level acl st {[r]} n = ∅) →
  ∃ n, level acl st X n = ∅.
Proof.
  induction X as [|x X Hx IH] using set_ind_L; intros Hall.
  - exists 0. done.
  - destruct IH as [n Hn]; [intros r Hr; apply Hall; set_solver|].
    destruct (Hall x) as [m Hm]; [set_solver|].
    exists (n `max` m). rewrite level_union.
    rewrite (level_vanished _ m), (level_vanished _ n); [set_solver|done|lia|done|lia].
Qed.

Lemma level_vanishes_role r :
  acyclic acl st → ∃ n, level acl st {[r]} n = ∅.
Proof.
  intros Hacyc. induction (acyclic_sn r Hacyc) as [r _ IH].
  destruct (level_vanishes_set (store_get st P r)) as [n Hn].
  - intros p Hp. by apply IH.
  - exists (S n). simpl. by rewrite store_union_singleton.
Qed.

(** On an acyclic hierarchy the levels above any role set are eventually
    empty: the traversals of the engine terminate. *)
Lemma level_vanishes X : acyclic acl st → ∃ n, level acl st X n = ∅.
Proof.
  intros Hacyc. apply level_vanishes_set. intros r _.
  by apply level_vanishes_role.
Qed.

(** A ranking of the roles that decreases along parent edges shows that
    the hierarchy is acyclic. *)
Lemma acyclic_of_rank (rank : string → nat) :
  (∀ r p, parent_edge acl st r p → rank p < rank r) → acyclic acl st.
Proof.
  intros Hrank.
  assert (∀ r p, tc (parent_edge acl st) r p → rank p < rank r) as Htc.
  { induction 1 as [r p Hrp|r q p Hrq _ IH]; [by apply Hrank|].
    apply Hrank in Hrq. lia. }
  intros r Hr. apply Htc in Hr. lia.
Qed.

End hierarchy.

(** ** The allow check *)

Lemma checkPermissions_step acl fuel roles resource permissions w :
  _checkPermissions acl (S fuel) roles resource permissions w =
    let w1 := record (EvUnion (allowsBucket resource) roles) w in
    let g := granted (store w) resource roles in
    if bool_decide ("*" ∈ g) then Ok true w1
    else
      let remaining := filter (λ p, p ∉ g) permissions in
      if bool_decide (length remaining = 0) then Ok true w1
      else
        let w2 := record (EvUnion (buckets_parents (options acl)) roles) w1 in
        let parents := store_union (store w) (buckets_parents (options acl)) roles in
        if bool_decide (size parents ≠ 0)
        then _checkPermissions acl fuel parents resource remaining w2
        else Ok false w2.
Proof.
  cbn [_checkPermissions]. unfold bind, backend_union, granted, ret.
  cbn beta iota zeta.
  destruct (bool_decide ("*" ∈ _)); [reflexivity|].
  destruct (bool_decide (length _ = 0)); [reflexivity|].
  cbn beta iota zeta delta [store record].
  destruct (bool_decide (size _ ≠ 0)); reflexivity.
Qed.

(** The allow check on a role set whose levels vanish after [n] steps: it
    returns, it answers [true] exactly when every requested permission is
    covered at some level, and a [false] answer comes with a permission that
    no level covers. *)
Lemma checkPermissions_spec acl resource n :
  ∀ roles permissions w fuel,
    level acl (store w) roles n = ∅ → n < fuel →
    ∃ b w',
      _checkPermissions acl fuel roles resource permissions w = Ok b w'
      ∧ store w' = store w
      ∧ (b = true ↔
         ∀ p, p ∈ permissions →
              ∃ k, covers (granted (store w) resource (level acl (store w) roles k)) p)
      ∧ (b = false →
         ∃ p, p ∈ permissions
              ∧ ∀ k, ¬ covers (granted (store w) resource
                                 (level acl (store w) roles k)) p).
Proof.
  induction n as [n IH] using lt_wf_ind.
  intros roles permissions w fuel Hlevel Hfuel.
  destruct fuel as [|fuel]; [lia|].
  rewrite checkPermissions_step. cbv zeta.
  set (g := granted (store w) resource roles).
  set (remaining := filter (λ p, p ∉ g) permissions).
  set (parents := store_union (store w) (buckets_parents (options acl)) roles).
  assert (∀ k, level acl (store w) roles (S k) = level acl (store w) parents k)
    as Hup by done.
  destruct (decide ("*" ∈ g)) as [Hstar|Hstar].
  { rewrite bool_decide_eq_true_2 by done. eexists _, _.
    split; [done|]. split; [done|]. split; [|done].
    split; [|done]. intros _ p _. exists 0. by right. }
  rewrite bool_decide_eq_false_2 by done.
  assert (∀ p, p ∈ remaining ↔ p ∈ permissions ∧ p ∉ g) as Hrem.
  { intros p. unfold remaining. rewrite list_elem_of_filter. tauto. }
  destruct (decide (length remaining = 0)) as [Hnil|Hcons].
  { rewrite bool_decide_eq_true_2 by done. eexists _, _.
    split; [done|]. split; [done|]. split; [|done].
    split; [|done]. intros _ p Hp. exists 0. left.
    destruct (decide (p ∈ g)) as [|Hpg]; [done|].
    apply nil_length_inv in Hnil.
    assert (p ∈ remaining) as Hin by (by apply Hrem).
    rewrite Hnil in Hin. by apply elem_of_nil in Hin. }
  rewrite bool_decide_eq_false_2 by done.
  assert (∀ p, p ∈ remaining →
               ¬ covers (granted (store w) resource
                           (level acl (store w) roles 0)) p) as Hzero.
  { intros p [_ Hp]%Hrem [?|?]; done. }
  destruct (decide (size parents ≠ 0)) as [Hpar|Hpar].
  - rewrite bool_decide_eq_true_2 by done.
    destruct n as [|n].
    { simpl in Hlevel. exfalso. apply Hpar. apply size_zero_empty.
      unfold parents. rewrite Hlevel. apply store_union_empty. }
    destruct (IH n ltac:(lia) parents remaining
                (record (EvUnion (buckets_parents (options acl)) roles)
                   (record (EvUnion (allowsBucket resource) roles) w))
                fuel)
      as (b & w' & Hrun & Hstore & Htrue & Hfalse); [by rewrite <-Hup|lia|].
    cbn [store record] in Hrun, Hstore, Htrue, Hfalse.
    exists b, w'. split; [done|]. split; [done|]. split.
    + rewrite Htrue. split.
      * intros Hcov p Hp. destruct (decide (p ∈ g)) as [Hpg|Hpg].
        { exists 0. by left. }
        destruct (Hcov p) as [k Hk]; [by apply Hrem|].
        exists (S k). by rewrite Hup.
      * intros Hcov p Hp. pose proof Hp as [Hp' _]%Hrem.
        destruct (Hcov p Hp') as [[|k] Hk]; [by apply Hzero in Hk|].
        exists k. by rewrite <-Hup.
    + intros Hb. destruct (Hfalse Hb) as (p & Hp & Hnone).
      exists p. split; [by apply Hrem in Hp as [? _]|].
      intros [|k]; [by apply Hzero|]. rewrite Hup. apply Hnone.
  - rewrite bool_decide_eq_false_2 by done.
    assert (parents = ∅) as Hnone.
    { apply size_zero_empty. destruct (decide (size parents = 0)); [done|].
      by destruct Hpar. }
    assert (∀ p k, ¬ covers (granted (store w) resource
                               (level acl (store w) roles (S k))) p) as Hhigh.
    { intros p k. rewrite Hup, Hnone, level_empty. unfold granted.
      rewrite store_union_empty. intros [?|?]; set_solver. }
    destruct remaining as [|p0 remaining'] eqn:Hremaining; [done|].
    assert (p0 ∈ permissions ∧ p0 ∉ g) as [Hp0 Hp0g] by (apply Hrem; by left).
    eexists _, _. split; [done|]. split; [done|]. split.
    + split; [done|]. intros Hcov.
      destruct (Hcov p0 Hp0) as [[|k] Hk].
      * exfalso. apply (Hzero p0); [by left|done].
      * by apply Hhigh in Hk.
    + intros _. exists p0. split; [done|].
      intros [|k]; [apply Hzero; by left|apply Hhigh].
Qed.

(** ** The demo policy *)

Lemma demo_parents_bucket :
  bucket_of (store demo_world) "parents" = {["A" := {["B"]}]}.
Proof. vm_compute. reflexivity. Qed.

Lemma demo_parent_edge r p :
  parent_edge demo_acl (store demo_world) r p ↔ r = "A" ∧ p = "B".
Proof.
  unfold parent_edge, store_get. cbn [demo_acl newAcl options default
    defaultOptions buckets_parents].
  rewrite demo_parents_bucket, lookup_singleton.
  case_decide as Hr; simpl; set_solver.
Qed.

Lemma demo_acyclic : acyclic demo_acl (store demo_world).
Proof.
  apply (acyclic_of_rank _ _ demo_rank).
  intros r p [-> ->]%demo_parent_edge. vm_compute. lia.
Qed.

(** ** Inheritance *)

(** C1. On an acyclic hierarchy, a user who directly holds role [a], where
    [b] is an ancestor of [a] and [b] is granted [p] on [resource], is allowed
    [p] on [resource], whatever [a] itself is granted. In general the allow
    check returns; it answers [true] exactly when every required permission
    is covered (listed, or matched by the wildcard) at some level of the
    hierarchy above the role set, and it answers [false] only when the
    hierarchy is exhausted and some required permission is covered at no
    level. *)
Theorem isAllowed_inherits acl w :
  acyclic acl (store w) →
  (∀ uid a b resource p,
     a ∈ store_get (store w) (buckets_users (options acl)) (key_of uid) →
     tc (parent_edge acl (store w)) a b →
     p ∈ store_get (store w) (allowsBucket resource) b →
     ∃ n, ∀ fuel, n ≤ fuel →
       ∃ w', isAllowed acl fuel uid resource (Str p) w = Ok true w'
             ∧ store w' = store w)
  ∧ (∀ roles resource permissions,
       ∃ n, ∀ fuel, n ≤ fuel →
         ∃ b w',
           _checkPermissions acl fuel roles resource permissions w = Ok b w'
           ∧ store w' = store w
           ∧ (b = true ↔
              ∀ p, p ∈ permissions →
                   ∃ k, covers (granted (store w) resource
                                  (level acl (store w) roles k)) p)
           ∧ (b = false →
              (∃ k, level acl (store w) roles k = ∅)
              ∧ ∃ p, p ∈ permissions
                     ∧ ∀ k, ¬ covers (granted (store w) resource
                                        (level acl (store w) roles k)) p)).
Proof.
  intros Hacyc.
  assert (∀ roles resource permissions,
            ∃ n, level acl (store w) roles n = ∅ ∧ ∀ fuel w0, n < fuel →
              store w0 = store w →
              ∃ b w',
                _checkPermissions acl fuel roles resource permissions w0 = Ok b w'
                ∧ store w' = store w
                ∧ (b = true ↔
                   ∀ p, p ∈ permissions →
                        ∃ k, covers (granted (store w) resource
                                       (level acl (store w) roles k)) p)
                ∧ (b = false →
                   ∃ p, p ∈ permissions
                        ∧ ∀ k, ¬ covers (granted (store w) resource
                                           (level acl (store w) roles k)) p))
    as Hcheck.
  { intros roles resource permissions.
    destruct (level_vanishes acl (store w) roles Hacyc) as [n Hn].
    exists n. split; [done|]. intros fuel w0 Hfuel Hw0.
    rewrite <-Hw0 in Hn |- *.
    by apply (checkPermissions_spec acl resource n). }
  split.
  - intros uid a b resource p Ha Hab Hp.
    set (roles := store_get (store w) (buckets_users (options acl)) (key_of uid)).
    destruct (Hcheck roles resource [p]) as (n & _ & Hn).
    exists (S n). intros fuel Hfuel.
    destruct (Hn fuel (record (EvGet (buckets_users (options acl)) (key_of uid)) w))
      as (ans & w' & Hrun & Hstore & Htrue & _); [lia|done|].
    exists w'. split; [|done].
    unfold isAllowed, bind, backend_get. fold roles.
    rewrite bool_decide_eq_true_2.
    2:{ rewrite size_zero_empty. set_solver. }
    unfold areAnyRolesAllowed. cbv zeta. cbn [makeArray].
    rewrite bool_decide_eq_false_2.
    2:{ intros Hlen%nil_length_inv. apply elem_of_elements in Ha.
        fold roles in Ha. rewrite Hlen in Ha. by apply elem_of_nil in Ha. }
    rewrite list_to_set_elements_L, Hrun. f_equal.
    apply Htrue. intros p' ->%list_elem_of_singleton.
    destruct (tc_level acl (store w) roles a b Ha Hab) as [k Hk].
    exists (S k). left. apply elem_of_store_union. eauto.
  - intros roles resource permissions.
    destruct (Hcheck roles resource permissions) as (n & Hlevel & Hn).
    exists (S n). intros fuel Hfuel.
    destruct (Hn fuel w) as (b & w' & Hrun & Hstore & Htrue & Hfalse);
      [lia|done|].
    exists b, w'. repeat split; try done; try apply Htrue.
    + by exists n.
    + by apply Hfalse.
Qed.

Lemma isAllowed_inherits_witness :
  ∃ n, ∀ fuel, n ≤ fuel →
    ∃ w', isAllowed demo_acl fuel (UidStr "u1") "doc" (Str "read") demo_world
          = Ok true w'
          ∧ store w' = store demo_world.
Proof.
  destruct (isAllowed_inherits demo_acl demo_world demo_acyclic) as [Hinherit _].
  apply (Hinherit (UidStr "u1") "A" "B" "doc" "read").
  - vm_compute. reflexivity.
  - apply tc_once. vm_compute. reflexivity.
  - vm_compute. reflexivity.
Defined.

(** ** Direct roles *)

(** C9. [hasRole(userId, rolename)] answers [true] exactly when the role is
    in [users[userId]], the roles directly assigned to the user; ancestors
    of those roles do not count, so it can answer [false] for a role whose
    permissions the user inherits (here: user ["u1"] holds ["A"], whose
    parent ["B"] grants ["read"] on ["doc"]). *)
Theorem hasRole_direct_only :
  (∀ acl uid rolename w,
     hasRole acl uid rolename w =
       Ok (bool_decide
             (rolename ∈ store_get (store w) (buckets_users (options acl))
                           (key_of uid)))
          (record (EvGet (buckets_users (options acl)) (key_of uid)) w))
  ∧ ∃ acl w uid a b resource p fuel w1 w2,
      a ∈ store_get (store w) (buckets_users (options acl)) (key_of uid)
      ∧ tc (parent_edge acl (store w)) a b
      ∧ p ∈ store_get (store w) (allowsBucket resource) b
      ∧ hasRole acl uid b w = Ok false w1
      ∧ isAllowed acl fuel uid resource (Str p) w = Ok true w2.
Proof.
  split; [reflexivity|].
  exists demo_acl, demo_world, (UidStr "u1"), "A", "B", "doc", "read", 2.
  eexists _, _. split; [|split; [|split; [|split]]].
  - vm_compute. reflexivity.
  - apply tc_once. apply demo_parent_edge. done.
  - vm_compute. reflexivity.
  - vm_compute. reflexivity.
  - vm_compute. reflexivity.
Qed.

(** ** Building result objects *)

Lemma lookup_foldl_insert_in {V} (f : string → string) (g : string → V)
    (l : list string) (m : gmap string V) r :
  (∀ x y, f x = f y → x = y) → r ∈ l →
  foldl (λ acc x, <[f x := g x]> acc) m l !! f r = Some (g r).
Proof.
  intros Hinj. revert m. induction l as [|x l IH]; intros m Hr.
  - by apply elem_of_nil in Hr.
  - cbn [foldl]. destruct (decide (r ∈ l)) as [Hl|Hl]; [by apply IH|].
    apply elem_of_cons in Hr as [->|Hr]; [|done].
    clear IH. revert m Hl. induction l as [|y l IH]; intros m Hl.
    + cbn [foldl]. apply lookup_insert_eq.
    + cbn [foldl]. apply not_elem_of_cons in Hl as [Hy Hl].
      rewrite insert_insert_ne by (intros Heq; apply Hy; by apply Hinj).
      by apply IH.
Qed.

Lemma lookup_foldl_insert_out {V} (f : string → string) (g : string → V)
    (l : list string) (m : gmap string V) k :
  (∀ x, x ∈ l → f x ≠ k) →
  foldl (λ acc x, <[f x := g x]> acc) m l !! k = m !! k.
Proof.
  revert m. induction l as [|x l IH]; intros m Hk; [done|].
  cbn [foldl]. rewrite IH by (intros y Hy; apply Hk; by right).
  apply lookup_insert_ne, Hk. by left.
Qed.

(** The keys of a [store_unions]-shaped response are permissions buckets,
    so renaming them with [keyFromAllowsBucket] loses nothing. *)
Lemma lookup_remap (response : gmap string (gset string)) k :
  (∀ b, is_Some (response !! b) → ∃ resource, b = allowsBucket resource) →
  map_fold (λ bucket perms (result : gmap string (gset string)),
              <[keyFromAllowsBucket bucket := perms]> result)
    ∅ response !! k
  = response !! allowsBucket k.
Proof.
  apply (map_fold_weak_ind
           (λ (result m : gmap string (gset string)),
              (∀ b, is_Some (m !! b) → ∃ resource, b = allowsBucket resource) →
              result !! k = m !! allowsBucket k)).
  - intros _. by rewrite !lookup_empty.
  - intros b perms m result Hb IH Hkeys.
    destruct (Hkeys b) as [resource ->]; [by rewrite lookup_insert_eq|].
    rewrite keyFromAllowsBucket_allowsBucket.
    destruct (decide (resource = k)) as [->|Hne].
    + by rewrite !lookup_insert_eq.
    + rewrite !lookup_insert_ne;
        [|by intros ?%allowsBucket_inj|done].
      apply IH. intros b' Hb'. apply Hkeys.
      rewrite lookup_insert_is_Some. destruct (decide (allowsBucket resource = b'));
        [by left|by right].
Qed.

(** ** The two bulk permission queries *)

Lemma allRoles_step acl fuel roleNames w :
  _allRoles acl (S fuel) roleNames w =
    let w1 := record (EvUnion (buckets_parents (options acl)) roleNames) w in
    let parents := store_union (store w) (buckets_parents (options acl)) roleNames in
    if bool_decide (0 < size parents)
    then match _allRoles acl fuel parents w1 with
         | Ok parentRoles w' => Ok (roleNames ∪ parentRoles) w'
         | Throw e w' => Throw e w'
         | OutOfFuel => OutOfFuel
         end
    else Ok roleNames w1.
Proof.
  cbn [_allRoles]. unfold _rolesParents, bind, backend_union, ret.
  cbn beta iota zeta.
  destruct (bool_decide (0 < size _)); reflexivity.
Qed.

Lemma resourcePermissions_step acl fuel roles resource w :
  _resourcePermissions acl (S fuel) roles resource w =
    if bool_decide (size roles = 0) then Ok ∅ w
    else
      let w2 := record (EvUnion (buckets_parents (options acl)) roles)
                  (record (EvUnion (allowsBucket resource) roles) w) in
      let parents := store_union (store w) (buckets_parents (options acl)) roles in
      if bool_decide (size parents ≠ 0)
      then match _resourcePermissions acl fuel parents resource w2 with
           | Ok morePermissions w' =>
               Ok (granted (store w) resource roles ∪ morePermissions) w'
           | Throw e w' => Throw e w'
           | OutOfFuel => OutOfFuel
           end
      else Ok (granted (store w) resource roles) w2.
Proof.
  cbn [_resourcePermissions]. unfold _rolesParents, bind, backend_union, ret, granted.
  destruct (bool_decide (size roles = 0)); [reflexivity|].
  cbn beta iota zeta delta [store record].
  destruct (bool_decide (size _ ≠ 0)); reflexivity.
Qed.

Lemma size_pos_nonempty (X : gset string) : 0 < size X ↔ X ≠ ∅.
Proof. rewrite <-size_zero_empty. lia. Qed.

(** [_allRoles] returns the role set closed under parents. *)
Lemma allRoles_spec acl n :
  ∀ roles w fuel,
    level acl (store w) roles n = ∅ → n < fuel →
    ∃ w', _allRoles acl fuel roles w = Ok (reach acl (store w) roles n) w'
          ∧ store w' = store w.
Proof.
  induction n as [|n IH]; intros roles w fuel Hlevel Hfuel;
    (destruct fuel as [|fuel]; [lia|]); rewrite allRoles_step; cbv zeta.
  - simpl in Hlevel. subst roles. rewrite store_union_empty.
    rewrite bool_decide_eq_false_2 by (rewrite size_empty; lia).
    by eexists.
  - destruct (decide (store_union (store w) (buckets_parents (options acl)) roles
                      = ∅)) as [Hnone|Hsome].
    + rewrite Hnone, bool_decide_eq_false_2 by (rewrite size_empty; lia).
      exists (record (EvUnion (buckets_parents (options acl)) roles) w).
      split; [|done]. cbn [reach].
      rewrite Hnone, reach_empty. f_equal. set_solver.
    + rewrite bool_decide_eq_true_2 by (by apply size_pos_nonempty).
      destruct (IH (store_union (store w) (buckets_parents (options acl)) roles)
                  (record (EvUnion (buckets_parents (options acl)) roles) w) fuel)
        as (w' & Hrun & Hstore); [done|lia|].
      rewrite Hrun. by exists w'.
Qed.

(** [_resourcePermissions] returns what is granted to the role set closed
    under parents. *)
Lemma resourcePermissions_spec acl resource n :
  ∀ roles w fuel,
    level acl (store w) roles n = ∅ → n < fuel →
    ∃ w', _resourcePermissions acl fuel roles resource w
          = Ok (granted (store w) resource (reach acl (store w) roles n)) w'
          ∧ store w' = store w.
Proof.
  induction n as [|n IH]; intros roles w fuel Hlevel Hfuel;
    (destruct fuel as [|fuel]; [lia|]); rewrite resourcePermissions_step.
  - simpl in Hlevel. subst roles.
    rewrite bool_decide_eq_true_2 by apply size_empty.
    exists w. split; [|done]. unfold granted. simpl.
    by rewrite store_union_empty.
  - destruct (decide (size roles = 0)) as [Hnil|Hcons].
    { rewrite bool_decide_eq_true_2 by done. apply size_zero_empty in Hnil.
      subst roles. exists w. split; [|done]. unfold granted.
      by rewrite reach_empty, store_union_empty. }
    rewrite bool_decide_eq_false_2 by done. cbv zeta.
    destruct (decide (store_union (store w) (buckets_parents (options acl)) roles
                      = ∅)) as [Hnone|Hsome].
    + rewrite Hnone, bool_decide_eq_false_2 by (rewrite size_empty; lia).
      exists (record (EvUnion (buckets_parents (options acl)) roles)
                (record (EvUnion (allowsBucket resource) roles) w)).
      split; [|done]. cbn [reach].
      rewrite Hnone, reach_empty. do 2 f_equal. set_solver.
    + rewrite bool_decide_eq_true_2 by (by rewrite size_zero_empty).
      destruct (IH (store_union (store w) (buckets_parents (options acl)) roles)
                  (record (EvUnion (buckets_parents (options acl)) roles)
                     (record (EvUnion (allowsBucket resource) roles) w)) fuel)
        as (w' & Hrun & Hstore); [done|lia|].
      rewrite Hrun. exists w'. split; [|done]. cbn [store record reach].
      unfold granted. by rewrite store_union_union.
Qed.

Lemma allowedPermissions_loop acl n fuel roles resources :
  ∀ (result : gmap string (gset string)) w,
    level acl (store w) roles n = ∅ → n < fuel →
    ∃ w',
      forEachM (λ result resource,
                  let* permissions := _resourcePermissions acl fuel roles resource in
                  ret (<[resource := permissions]> result))
        result resources w
      = Ok (foldl (λ acc resource,
                     <[resource := granted (store w) resource
                                     (reach acl (store w) roles n)]> acc)
              result resources) w'
      ∧ store w' = store w.
Proof.
  induction resources as [|resource resources IH]; intros result w Hlevel Hfuel.
  - by exists w.
  - cbn [forEachM foldl]. unfold bind at 1. unfold bind at 1.
    destruct (resourcePermissions_spec acl resource n roles w fuel Hlevel Hfuel)
      as (w1 & Hrun & Hstore).
    rewrite Hrun. unfold ret at 1.
    destruct (IH (<[resource := granted (store w) resource
                                  (reach acl (store w) roles n)]> result) w1)
      as (w' & Hloop & Hstore'); [by rewrite Hstore|done|].
    rewrite Hstore in Hloop, Hstore'. by exists w'.
Qed.

Lemma reach_options acl1 acl2 st roles n :
  options acl1 = options acl2 → reach acl1 st roles n = reach acl2 st roles n.
Proof.
  intros Ho. revert roles. induction n as [|n IH]; intros roles; simpl; [done|].
  by rewrite Ho, IH.
Qed.

Lemma level_options acl1 acl2 st roles n :
  options acl1 = options acl2 → level acl1 st roles n = level acl2 st roles n.
Proof.
  intros Ho. revert roles. induction n as [|n IH]; intros roles; simpl; [done|].
  by rewrite Ho, IH.
Qed.

Lemma foldl_insert_fmap {V} (f : string → string) (h : string → V)
    (l : list string) (m : gmap string V) :
  foldl (λ acc b, <[b := h b]> acc) m (f <$> l)
  = foldl (λ acc x, <[f x := h (f x)]> acc) m l.
Proof.
  revert m. induction l as [|x l IH]; intros m; [done|]. simpl. apply IH.
Qed.

Lemma empty_response st (bs : list string) (m : gmap string (gset string)) :
  foldl (λ emptyResult bucket, <[bucket := ∅]> emptyResult) m bs
  = foldl (λ acc b, <[b := store_union st b ∅]> acc) m bs.
Proof.
  revert m. induction bs as [|b bs IH]; intros m; [done|]. simpl.
  by rewrite store_union_empty, IH.
Qed.

(** The remapped result of the bulk query lists, for each requested
    resource, what is granted to [roles] on it. *)
Lemma remapped_unions st (roles : gset string) (resources : list string) :
  map_fold (λ bucket perms (result : gmap string (gset string)),
              <[keyFromAllowsBucket bucket := perms]> result)
    ∅ (store_unions st (allowsBucket <$> resources) roles)
  = foldl (λ acc resource, <[resource := granted st resource roles]> acc)
      ∅ resources.
Proof.
  unfold store_unions.
  rewrite (foldl_insert_fmap allowsBucket (λ b, store_union st b roles)).
  apply map_eq. intros k. rewrite lookup_remap.
  - destruct (decide (k ∈ resources)) as [Hk|Hk].
    + rewrite (lookup_foldl_insert_in allowsBucket
                 (λ x, store_union st (allowsBucket x) roles));
        [|apply allowsBucket_inj|done].
      symmetry.
      apply (lookup_foldl_insert_in id (λ x, granted st x roles)); [|done].
      by intros x y.
    + rewrite (lookup_foldl_insert_out allowsBucket
                 (λ x, store_union st (allowsBucket x) roles)).
      2:{ intros x Hx Heq%allowsBucket_inj. by subst. }
      rewrite lookup_empty. symmetry.
      rewrite <-(lookup_empty (M:=gmap string) (A:=gset string) k).
      apply (lookup_foldl_insert_out id (λ x, granted st x roles)).
      intros x Hx Heq. unfold id in Heq. by subst.
  - intros b Hb.
    destruct (decide (b ∈ allowsBucket <$> resources)) as [Hin|Hout].
    + apply list_elem_of_fmap in Hin as (resource & -> & _). by exists resource.
    + rewrite (lookup_foldl_insert_out allowsBucket
                 (λ x, store_union st (allowsBucket x) roles)) in Hb.
      * rewrite lookup_empty in Hb. by destruct Hb.
      * intros x Hx Heq. apply Hout. apply list_elem_of_fmap. eauto.
Qed.

(** C6. On an acyclic hierarchy and for a truthy user id, the optimized bulk
    query (role closure of the user, one [unions] call, keys mapped back
    through [keyFromAllowsBucket]) and the plain [allowedPermissions] path
    (direct roles, one recursive ancestor union per resource) both return,
    and they return the same mapping from resource to permission set. *)
Theorem optimizedAllowedPermissions_agrees o uid resources w :
  truthy_id uid = true →
  acyclic {| options := o; backend_has_unions := false |} (store w) →
  ∃ n, ∀ fuel, n ≤ fuel →
    ∃ result w1 w2,
      optimizedAllowedPermissions {| options := o; backend_has_unions := true |}
        fuel uid resources w = Ok result w1
      ∧ allowedPermissions {| options := o; backend_has_unions := false |}
          fuel uid resources w = Ok result w2
      ∧ store w1 = store w
      ∧ store w2 = store w.
Proof.
  intros Htruthy Hacyc.
  set (plain := {| options := o; backend_has_unions := false |}) in *.
  set (opt := {| options := o; backend_has_unions := true |}).
  set (roles := store_get (store w) o.(buckets_users) (key_of uid)).
  destruct (level_vanishes plain (store w) roles Hacyc) as [n Hn].
  exists (S n). intros fuel Hfuel.
  set (w0 := record (EvGet o.(buckets_users) (key_of uid)) w).
  set (closure := reach plain (store w) roles n).
  (* the plain path *)
  destruct (allowedPermissions_loop plain n fuel roles (makeArray resources) ∅ w0)
    as (w2 & Hplain & Hstore2); [done|lia|].
  (* the role closure of the optimized path *)
  assert (∃ w', _allUserRoles opt fuel uid w = Ok closure w' ∧ store w' = store w)
    as (w' & Hall & Hstore').
  { unfold _allUserRoles, userRoles, bind, backend_get. cbn [options opt].
    fold roles. fold w0.
    destruct (decide (roles = ∅)) as [Hnone|Hsome].
    - rewrite bool_decide_eq_false_2 by (rewrite Hnone, size_empty; lia).
      exists w0. split; [|done]. unfold ret, closure.
      by rewrite Hnone, reach_empty.
    - rewrite bool_decide_eq_true_2 by (by apply size_pos_nonempty).
      destruct (allRoles_spec opt n roles w0 fuel) as (w' & Hrun & Hw');
        [by rewrite (level_options opt plain)|lia|].
      exists w'. split; [|done]. rewrite Hrun. f_equal.
      by apply reach_options. }
  exists (foldl (λ acc resource, <[resource := granted (store w) resource closure]> acc)
            ∅ (makeArray resources)).
  assert (∃ w1,
            optimizedAllowedPermissions opt fuel uid resources w
            = Ok (foldl (λ acc resource,
                           <[resource := granted (store w) resource closure]> acc)
                    ∅ (makeArray resources)) w1
            ∧ store w1 = store w) as (w1 & Hopt & Hstore1).
  { unfold optimizedAllowedPermissions. rewrite Htruthy. cbn [negb].
    cbv zeta. unfold bind at 1. rewrite Hall.
    destruct (decide (size closure = 0)) as [Hnone|Hsome].
    - rewrite bool_decide_eq_true_2 by done. unfold bind, ret.
      exists w'. split; [|done]. f_equal.
      apply size_zero_empty in Hnone.
      rewrite (empty_response (store w)), <-Hnone.
      apply remapped_unions.
    - rewrite bool_decide_eq_false_2 by done. cbn [backend_has_unions opt].
      unfold bind, backend_unions, ret.
      exists (record (EvUnions (allowsBucket <$> makeArray resources) closure) w').
      split; [|exact Hstore']. f_equal. rewrite Hstore'. apply remapped_unions. }
  exists w1, w2. split; [done|]. split; [|done].
  unfold allowedPermissions. rewrite Htruthy. cbn [negb backend_has_unions plain].
  cbv zeta. unfold userRoles, bind at 1, backend_get. cbn [options plain].
  fold w0. exact Hplain.
Qed.

Lemma optimizedAllowedPermissions_agrees_witness :
  ∃ n, ∀ fuel, n ≤ fuel →
    ∃ result w1 w2,
      optimizedAllowedPermissions (newAcl true None) fuel (UidStr "u1")
        (Arr ["doc"; "blog"]) demo_world = Ok result w1
      ∧ allowedPermissions (newAcl false None) fuel (UidStr "u1")
          (Arr ["doc"; "blog"]) demo_world = Ok result w2
      ∧ store w1 = store demo_world
      ∧ store w2 = store demo_world.
Proof.
  apply (optimizedAllowedPermissions_agrees defaultOptions (UidStr "u1")
           (Arr ["doc"; "blog"]) demo_world).
  - reflexivity.
  - exact demo_acyclic.
Defined.

(** * Further properties of the engine *)

(** ** Batches, exactly *)

Lemma elem_of_added_list b k (t : list Op) x :
  x ∈ ⋃ (added b k <$> t) ↔ ∃ vs, OpAdd b k vs ∈ t ∧ x ∈ vs.
Proof.
  rewrite elem_of_union_list. split.
  - intros (X & HX & Hx). apply list_elem_of_fmap in HX as (op & -> & Hop).
    destruct op as [b' k' vs| |]; simpl in Hx; [|set_solver..].
    case_decide as Heq; [|set_solver]. destruct Heq as [-> ->].
    exists vs. split; [done|]. by apply elem_of_list_to_set in Hx.
  - intros (vs & Hop & Hx). exists (added b k (OpAdd b k vs)). split.
    + apply list_elem_of_fmap. eauto.
    + simpl. rewrite decide_True by done. by apply elem_of_list_to_set.
Qed.

Lemma elem_of_removed_list b k (t : list Op) x :
  x ∈ ⋃ (removed b k <$> t) ↔ ∃ vs, OpRemove b k vs ∈ t ∧ x ∈ vs.
Proof.
  rewrite elem_of_union_list. split.
  - intros (X & HX & Hx). apply list_elem_of_fmap in HX as (op & -> & Hop).
    destruct op as [|b' k' vs|]; simpl in Hx; [set_solver| |set_solver].
    case_decide as Heq; [|set_solver]. destruct Heq as [-> ->].
    exists vs. split; [done|]. by apply elem_of_list_to_set in Hx.
  - intros (vs & Hop & Hx). exists (removed b k (OpRemove b k vs)). split.
    + apply list_elem_of_fmap. eauto.
    + simpl. rewrite decide_True by done. by apply elem_of_list_to_set.
Qed.

Lemma existsb_deletes b k (t : list Op) :
  existsb (deletes b k) t = true ↔ ∃ ks, OpDel b ks ∈ t ∧ k ∈ ks.
Proof.
  rewrite existsb_exists. split.
  - intros (op & Hop%list_elem_of_In & Hdel).
    destruct op as [| |b' ks]; simpl in Hdel; [done..|].
    apply bool_decide_eq_true_1 in Hdel as [-> Hk]. eauto.
  - intros (ks & Hop & Hk). exists (OpDel b ks). split.
    + by apply list_elem_of_In.
    + simpl. by apply bool_decide_eq_true_2.
Qed.

(** A batch of additions leaves every set as it was, plus what the batch
    adds to it. *)
Lemma additions_exact t st b k :
  Forall addition t →
  store_get (apply_ops st t) b k = store_get st b k ∪ ⋃ (added b k <$> t).
Proof.
  revert st. induction t as [|op t IH]; intros st Ht.
  - simpl. set_solver.
  - inversion Ht as [|? ? Hop Ht']; subst.
    rewrite apply_ops_cons, IH by done. rewrite fmap_cons. simpl union_list.
    destruct op as [b' k' vs| |]; [|done..].
    rewrite store_get_add. simpl.
    destruct (decide (b = b' ∧ k = k')) as [[-> ->]|Hne]; set_solver.
Qed.

(** A batch of removals empties every set it deletes and takes out of the
    others what it removes. *)
Lemma removals_exact t st b k :
  Forall removal t →
  store_get (apply_ops st t) b k =
    if existsb (deletes b k) t then ∅
    else store_get st b k ∖ ⋃ (removed b k <$> t).
Proof.
  revert st. induction t as [|op t IH]; intros st Ht.
  - simpl. set_solver.
  - inversion Ht as [|? ? Hop Ht']; subst.
    rewrite apply_ops_cons, IH by done. rewrite fmap_cons. simpl.
    destruct op as [|b' k' vs|b' ks]; [done| |]; simpl.
    + destruct (existsb (deletes b k) t); [done|].
      rewrite store_get_remove.
      destruct (decide (b = b' ∧ k = k')) as [[-> ->]|Hne]; set_solver.
    + rewrite store_get_del.
      destruct (decide (b = b' ∧ k ∈ ks)) as [Hd|Hd].
      * rewrite bool_decide_eq_true_2 by done. simpl.
        destruct (existsb (deletes b k) t); set_solver.
      * rewrite bool_decide_eq_false_2 by done. simpl.
        destruct (existsb (deletes b k) t); set_solver.
Qed.

Lemma separate_buckets_distinct o :
  separate_buckets o = true →
  buckets_meta o ≠ buckets_parents o ∧ buckets_meta o ≠ buckets_resources o
  ∧ buckets_meta o ≠ buckets_roles o ∧ buckets_meta o ≠ buckets_users o
  ∧ buckets_parents o ≠ buckets_resources o ∧ buckets_parents o ≠ buckets_roles o
  ∧ buckets_parents o ≠ buckets_users o ∧ buckets_resources o ≠ buckets_roles o
  ∧ buckets_resources o ≠ buckets_users o ∧ buckets_roles o ≠ buckets_users o.
Proof.
  intros [Hnd _]%separate_buckets_spec.
  apply NoDup_cons in Hnd as [Hm Hnd]. apply NoDup_cons in Hnd as [Hp Hnd].
  apply NoDup_cons in Hnd as [Hr Hnd]. apply NoDup_cons in Hnd as [Hro Hnd].
  repeat split; intros Heq; set_solver.
Qed.

(** ** Users and roles *)

Lemma addUserRoles_run acl uid roles w :
  addUserRoles acl uid roles w =
    Ok tt {| store := apply_ops (store w) (addUserRoles_batch acl uid roles);
             trace := EvEnd (addUserRoles_batch acl uid roles) :: trace w |}.
Proof.
  unfold addUserRoles, addUserRoles_batch, backend_end, backend_add, backend_begin.
  destruct roles as [role|l]; [reflexivity|]. cbn [makeArray].
  rewrite (foldl_snoc (λ role, OpAdd (buckets_roles (options acl)) role [key_of uid])).
  reflexivity.
Qed.

Lemma removeUserRoles_run acl uid roles w :
  removeUserRoles acl uid roles w =
    Ok tt {| store := apply_ops (store w) (removeUserRoles_batch acl uid roles);
             trace := EvEnd (removeUserRoles_batch acl uid roles) :: trace w |}.
Proof.
  unfold removeUserRoles, removeUserRoles_batch, backend_end, backend_remove,
    backend_begin.
  destruct roles as [role|l]; [reflexivity|]. cbn [makeArray].
  rewrite (foldl_snoc (λ role, OpRemove (buckets_roles (options acl)) role [key_of uid])).
  reflexivity.
Qed.

Lemma addUserRoles_batch_additions acl uid roles :
  Forall addition (addUserRoles_batch acl uid roles).
Proof.
  unfold addUserRoles_batch. apply Forall_app. split; [repeat constructor|].
  by apply Forall_fmap, Forall_true.
Qed.

Lemma removeUserRoles_batch_removals acl uid roles :
  Forall removal (removeUserRoles_batch acl uid roles).
Proof.
  unfold removeUserRoles_batch. constructor; [done|].
  by apply Forall_fmap, Forall_true.
Qed.

Lemma removeUserRoles_batch_no_delete acl uid roles b k :
  existsb (deletes b k) (removeUserRoles_batch acl uid roles) = false.
Proof.
  apply not_true_is_false. rewrite existsb_deletes. intros (ks & Hop & _).
  unfold removeUserRoles_batch in Hop. apply elem_of_cons in Hop as [?|Hop]; [done|].
  by apply list_elem_of_fmap in Hop as (? & ? & _).
Qed.

Lemma OpAdd_in_addUserRoles_batch acl uid roles b k vs :
  OpAdd b k vs ∈ addUserRoles_batch acl uid roles ↔
    (b = buckets_meta (options acl) ∧ k = "users" ∧ vs = [key_of uid])
    ∨ (b = buckets_users (options acl) ∧ k = key_of uid ∧ vs = makeArray roles)
    ∨ (b = buckets_roles (options acl) ∧ k ∈ makeArray roles ∧ vs = [key_of uid]).
Proof.
  unfold addUserRoles_batch.
  rewrite elem_of_app, !elem_of_cons, elem_of_nil, list_elem_of_fmap. split.
  - intros [[Heq|[Heq|[]]]|(r & Heq & Hr)]; injection Heq as -> -> ->; auto.
  - intros [(-> & -> & ->)|[(-> & -> & ->)|(-> & Hk & ->)]]; eauto.
Qed.

Lemma OpRemove_in_removeUserRoles_batch acl uid roles b k vs :
  OpRemove b k vs ∈ removeUserRoles_batch acl uid roles ↔
    (b = buckets_users (options acl) ∧ k = key_of uid ∧ vs = makeArray roles)
    ∨ (b = buckets_roles (options acl) ∧ k ∈ makeArray roles ∧ vs = [key_of uid]).
Proof.
  unfold removeUserRoles_batch.
  rewrite elem_of_cons, list_elem_of_fmap. split.
  - intros [Heq|(r & Heq & Hr)]; injection Heq as -> -> ->; auto.
  - intros [(-> & -> & ->)|(-> & Hk & ->)]; eauto.
Qed.

(** The sets of [users] and [roles] after [addUserRoles]. *)
Lemma addUserRoles_store acl uid roles st :
  separate_buckets (options acl) = true →
  let st' := apply_ops st (addUserRoles_batch acl uid roles) in
  (∀ u, store_get st' (buckets_users (options acl)) u =
          if decide (u = key_of uid)
          then store_get st (buckets_users (options acl)) u
               ∪ list_to_set (makeArray roles)
          else store_get st (buckets_users (options acl)) u)
  ∧ (∀ r, store_get st' (buckets_roles (options acl)) r =
            if decide (r ∈ makeArray roles)
            then store_get st (buckets_roles (options acl)) r ∪ {[key_of uid]}
            else store_get st (buckets_roles (options acl)) r).
Proof.
  intros Hsep st'. unfold st'.
  apply separate_buckets_distinct in Hsep
    as (Hmp & Hmr & Hmro & Hmu & Hpr & Hpro & Hpu & Hrro & Hru & Hrou).
  split.
  - intros u. rewrite additions_exact by apply addUserRoles_batch_additions.
    apply set_eq. intros x. rewrite elem_of_union, elem_of_added_list.
    setoid_rewrite OpAdd_in_addUserRoles_batch.
    case_decide as Hu; [rewrite elem_of_union, elem_of_list_to_set|].
    + split; [|intros [?|?]; [by left|right; eauto 8]].
      intros [?|(vs & [(? & _)|[(_ & _ & ->)|(? & _)]] & Hx)];
        [by left|congruence|by right|congruence].
    + split; [|by left].
      intros [?|(vs & [(? & _)|[(_ & ? & _)|(? & _)]] & Hx)];
        [done|congruence..].
  - intros r. rewrite additions_exact by apply addUserRoles_batch_additions.
    apply set_eq. intros x. rewrite elem_of_union, elem_of_added_list.
    setoid_rewrite OpAdd_in_addUserRoles_batch.
    case_decide as Hr; [rewrite elem_of_union, elem_of_singleton|].
    + split.
      * intros [?|(vs & [(? & _)|[(? & _)|(_ & _ & ->)]] & Hx)];
          [by left|congruence|congruence|].
        right. by apply list_elem_of_singleton in Hx.
      * intros [?| ->]; [by left|]. right. exists [key_of uid].
        split; [auto|by left].
    + split; [|by left].
      intros [?|(vs & [(? & _)|[(? & _)|(_ & ? & _)]] & Hx)];
        [done|congruence|congruence|done].
Qed.

(** The sets of [users] and [roles] after [removeUserRoles]. *)
Lemma removeUserRoles_store acl uid roles st :
  separate_buckets (options acl) = true →
  let st' := apply_ops st (removeUserRoles_batch acl uid roles) in
  (∀ u, store_get st' (buckets_users (options acl)) u =
          if decide (u = key_of uid)
          then store_get st (buckets_users (options acl)) u
               ∖ list_to_set (makeArray roles)
          else store_get st (buckets_users (options acl)) u)
  ∧ (∀ r, store_get st' (buckets_roles (options acl)) r =
            if decide (r ∈ makeArray roles)
            then store_get st (buckets_roles (options acl)) r ∖ {[key_of uid]}
            else store_get st (buckets_roles (options acl)) r).
Proof.
  intros Hsep st'. unfold st'.
  apply separate_buckets_distinct in Hsep
    as (Hmp & Hmr & Hmro & Hmu & Hpr & Hpro & Hpu & Hrro & Hru & Hrou).
  split.
  - intros u. rewrite removals_exact by apply removeUserRoles_batch_removals.
    rewrite removeUserRoles_batch_no_delete.
    apply set_eq. intros x. rewrite elem_of_difference, elem_of_removed_list.
    setoid_rewrite OpRemove_in_removeUserRoles_batch.
    case_decide as Hu; [rewrite elem_of_difference, elem_of_list_to_set|].
    + split; intros [Hx Hno]; (split; [done|]).
      * intros Hin. apply Hno. eauto 8.
      * intros (vs & [(_ & _ & ->)|(? & _)] & Hin); [done|congruence].
    + split; [by intros [? _]|]. intros Hx. split; [done|].
      intros (vs & [(_ & ? & _)|(? & _)] & Hin); [done|congruence].
  - intros r. rewrite removals_exact by apply removeUserRoles_batch_removals.
    rewrite removeUserRoles_batch_no_delete.
    apply set_eq. intros x. rewrite elem_of_difference, elem_of_removed_list.
    setoid_rewrite OpRemove_in_removeUserRoles_batch.
    case_decide as Hr; [rewrite elem_of_difference, elem_of_singleton|].
    + split; intros [Hx Hno]; (split; [done|]).
      * intros ->. apply Hno. exists [key_of uid]. split; [auto|by left].
      * intros (vs & [(? & _)|(_ & _ & ->)] & Hin); [congruence|].
        by apply list_elem_of_singleton in Hin.
    + split; [by intros [? _]|]. intros Hx. split; [done|].
      intros (vs & [(? & _)|(_ & ? & _)] & Hin); [congruence|done].
Qed.

(** X1. After [addUserRoles(userId, roles)] every listed role is reported by
    [hasRole], [roleUsers] of the role lists the user, and the user is
    registered in [meta.users]. *)
Theorem addUserRoles_then_lookup acl uid roles role w :
  role ∈ makeArray roles →
  ∃ w1 w2 w3 users,
    addUserRoles acl uid roles w = Ok tt w1
    ∧ hasRole acl uid role w1 = Ok true w2
    ∧ roleUsers acl role w1 = Ok users w3
    ∧ key_of uid ∈ users
    ∧ key_of uid ∈ store_get (store w1) (buckets_meta (options acl)) "users".
Proof.
  intros Hrole. eexists _, _, _, _.
  split; [apply addUserRoles_run|]. cbn [store].
  assert (∀ b k vs x,
            OpAdd b k vs ∈ addUserRoles_batch acl uid roles → x ∈ vs →
            x ∈ store_get (apply_ops (store w) (addUserRoles_batch acl uid roles))
                  b k) as Hadd.
  { intros b k vs x Hop Hx.
    rewrite additions_exact by apply addUserRoles_batch_additions.
    apply elem_of_union. right. apply elem_of_added_list. eauto. }
  split; [|split; [reflexivity|split]].
  - unfold hasRole, userRoles, bind, backend_get, ret. cbn [store].
    rewrite bool_decide_eq_true_2; [done|].
    apply (Hadd _ _ (makeArray roles)); [|done].
    apply OpAdd_in_addUserRoles_batch. auto.
  - cbn [store]. apply (Hadd _ _ [key_of uid]); [|by left].
    apply OpAdd_in_addUserRoles_batch. auto.
  - apply (Hadd _ _ [key_of uid]); [|by left].
    apply OpAdd_in_addUserRoles_batch. auto.
Qed.

Lemma addUserRoles_then_lookup_witness :
  ∃ w1 w2 w3 users,
    addUserRoles demo_acl (UidStr "u2") (Arr ["A"; "B"]) demo_world = Ok tt w1
    ∧ hasRole demo_acl (UidStr "u2") "B" w1 = Ok true w2
    ∧ roleUsers demo_acl "B" w1 = Ok users w3
    ∧ key_of (UidStr "u2") ∈ users
    ∧ key_of (UidStr "u2") ∈ store_get (store w1) "meta" "users".
Proof.
  apply (addUserRoles_then_lookup demo_acl (UidStr "u2") (Arr ["A"; "B"]) "B"
           demo_world).
  cbn [makeArray]. apply list_elem_of_further, list_elem_of_here.
Defined.

(** X2. [addUserRoles] and [removeUserRoles] keep [users] and [roles]
    mirrored: if a user lists a role exactly when the role lists the user
    before the call, the same holds after it. *)
Theorem user_roles_stay_mirrored acl uid roles w :
  separate_buckets (options acl) = true →
  mirrored acl (store w) →
  (∃ w', addUserRoles acl uid roles w = Ok tt w' ∧ mirrored acl (store w'))
  ∧ (∃ w', removeUserRoles acl uid roles w = Ok tt w' ∧ mirrored acl (store w')).
Proof.
  intros Hsep Hmir. split.
  - eexists. split; [apply addUserRoles_run|]. cbn [store].
    destruct (addUserRoles_store acl uid roles (store w) Hsep) as [Hu Hr].
    intros u r. rewrite Hu, Hr.
    destruct (decide (u = key_of uid)) as [->|Hne];
      destruct (decide (r ∈ makeArray roles)) as [Hin|Hout];
      rewrite ?elem_of_union, ?elem_of_list_to_set, ?elem_of_singleton, (Hmir _ r);
      naive_solver.
  - eexists. split; [apply removeUserRoles_run|]. cbn [store].
    destruct (removeUserRoles_store acl uid roles (store w) Hsep) as [Hu Hr].
    intros u r. rewrite Hu, Hr.
    destruct (decide (u = key_of uid)) as [->|Hne];
      destruct (decide (r ∈ makeArray roles)) as [Hin|Hout];
      rewrite ?elem_of_difference, ?elem_of_list_to_set, ?elem_of_singleton,
        (Hmir _ r);
      naive_solver.
Qed.

Lemma demo_mirrored : mirrored demo_acl (store demo_world).
Proof.
  assert (bucket_of (store demo_world) "users" = {["u1" := {["A"]}]}) as Hu
    by (vm_compute; reflexivity).
  assert (bucket_of (store demo_world) "roles" = {["A" := {["u1"]}]}) as Hr
    by (vm_compute; reflexivity).
  intros u r. unfold store_get.
  cbn [demo_acl newAcl options default defaultOptions buckets_users buckets_roles].
  rewrite Hu, Hr, !lookup_singleton.
  destruct (decide ("u1" = u)) as [<-|Hu']; destruct (decide ("A" = r)) as [<-|Hr'];
    simpl; set_solver.
Qed.

Lemma user_roles_stay_mirrored_witness :
  (∃ w', addUserRoles demo_acl (UidStr "u2") (Arr ["A"; "B"]) demo_world = Ok tt w'
         ∧ mirrored demo_acl (store w'))
  ∧ (∃ w', removeUserRoles demo_acl (UidStr "u2") (Arr ["A"; "B"]) demo_world
           = Ok tt w'
           ∧ mirrored demo_acl (store w')).
Proof.
  apply (user_roles_stay_mirrored demo_acl (UidStr "u2") (Arr ["A"; "B"])
           demo_world).
  - reflexivity.
  - exact demo_mirrored.
Defined.

(** X3. [removeUserRoles] after [addUserRoles] of the same roles takes
    exactly those roles away from the user and the user away from exactly
    those roles; other users and other roles are as before the two calls.
    The user stays registered in [meta.users]: no call takes it out. *)
Theorem removeUserRoles_after_add acl uid roles w :
  separate_buckets (options acl) = true →
  ∃ w1 w2,
    addUserRoles acl uid roles w = Ok tt w1
    ∧ removeUserRoles acl uid roles w1 = Ok tt w2
    ∧ (∀ u, store_get (store w2) (buckets_users (options acl)) u =
              if decide (u = key_of uid)
              then store_get (store w) (buckets_users (options acl)) u
                   ∖ list_to_set (makeArray roles)
              else store_get (store w) (buckets_users (options acl)) u)
    ∧ (∀ r, store_get (store w2) (buckets_roles (options acl)) r =
              if decide (r ∈ makeArray roles)
              then store_get (store w) (buckets_roles (options acl)) r
                   ∖ {[key_of uid]}
              else store_get (store w) (buckets_roles (options acl)) r)
    ∧ key_of uid ∈ store_get (store w2) (buckets_meta (options acl)) "users".
Proof.
  intros Hsep. eexists _, _.
  split; [apply addUserRoles_run|]. split; [apply removeUserRoles_run|].
  cbn [store].
  destruct (addUserRoles_store acl uid roles (store w) Hsep) as [Hu1 Hr1].
  destruct (removeUserRoles_store acl uid roles
              (apply_ops (store w) (addUserRoles_batch acl uid roles)) Hsep)
    as [Hu2 Hr2].
  split; [|split].
  - intros u. rewrite Hu2, Hu1. case_decide; set_solver.
  - intros r. rewrite Hr2, Hr1. case_decide; set_solver.
  - apply separate_buckets_distinct in Hsep
      as (Hmp & Hmr & Hmro & Hmu & Hpr & Hpro & Hpu & Hrro & Hru & Hrou).
    rewrite untouched_ops.
    + rewrite additions_exact by apply addUserRoles_batch_additions.
      apply elem_of_union. right. apply elem_of_added_list.
      exists [key_of uid]. split; [|by left].
      apply OpAdd_in_addUserRoles_batch. auto.
    + unfold removeUserRoles_batch. constructor.
      * intros [? _]. done.
      * apply Forall_fmap, Forall_forall. intros r _ [? _]. done.
Qed.

Lemma removeUserRoles_after_add_witness :
  ∃ w1 w2,
    addUserRoles demo_acl (UidStr "u1") (Str "B") demo_world = Ok tt w1
    ∧ removeUserRoles demo_acl (UidStr "u1") (Str "B") w1 = Ok tt w2
    ∧ (∀ u, store_get (store w2) "users" u =
              if decide (u = "u1")
              then store_get (store demo_world) "users" u ∖ list_to_set ["B"]
              else store_get (store demo_world) "users" u)
    ∧ (∀ r, store_get (store w2) "roles" r =
              if decide (r ∈ ["B"])
              then store_get (store demo_world) "roles" r ∖ {["u1"]}
              else store_get (store demo_world) "roles" r)
    ∧ "u1" ∈ store_get (store w2) "meta" "users".
Proof.
  apply (removeUserRoles_after_add demo_acl (UidStr "u1") (Str "B") demo_world).
  reflexivity.
Defined.

(** ** Grants *)

Lemma allow_run_general acl roles resources permissions w :
  allow acl roles resources permissions w =
    Ok tt {| store := apply_ops (store w) (allow_batch acl roles resources permissions);
             trace := EvEnd (allow_batch acl roles resources permissions)
                      :: trace w |}.
Proof.
  unfold allow, allow_batch, backend_end, backend_add, backend_begin. cbv zeta.
  rewrite (foldl_snoc
             (λ role, OpAdd (buckets_resources (options acl)) role
                        (makeArray resources))).
  assert (∀ t,
            foldl (λ t resource,
                     foldl (λ t role,
                              t ++ [OpAdd (allowsBucket resource) role
                                      (makeArray permissions)])
                       t (makeArray roles))
              t (makeArray resources)
            = t ++ (makeArray resources ≫= λ resource,
                      (λ role, OpAdd (allowsBucket resource) role
                                 (makeArray permissions)) <$> makeArray roles))
    as Hnested.
  { induction (makeArray resources) as [|resource l IH]; intros t.
    - by rewrite app_nil_r.
    - cbn [foldl]. rewrite IH, bind_cons.
      rewrite (foldl_snoc (λ role, OpAdd (allowsBucket resource) role
                                     (makeArray permissions))).
      by rewrite <-app_assoc. }
  rewrite Hnested. by rewrite <-!app_assoc.
Qed.

Lemma allow_batch_additions acl roles resources permissions :
  Forall addition (allow_batch acl roles resources permissions).
Proof.
  unfold allow_batch. repeat (apply Forall_app; split).
  - repeat constructor.
  - apply Forall_bind, Forall_true. intros resource. unfold compose.
    by apply Forall_fmap, Forall_true.
  - by apply Forall_fmap, Forall_true.
Qed.

Lemma OpAdd_in_allow_batch acl roles resources permissions b k vs :
  OpAdd b k vs ∈ allow_batch acl roles resources permissions ↔
    (b = buckets_meta (options acl) ∧ k = "roles" ∧ vs = makeArray roles)
    ∨ (∃ resource, resource ∈ makeArray resources ∧ b = allowsBucket resource
                   ∧ k ∈ makeArray roles ∧ vs = makeArray permissions)
    ∨ (b = buckets_resources (options acl) ∧ k ∈ makeArray roles
       ∧ vs = makeArray resources).
Proof.
  unfold allow_batch.
  rewrite !elem_of_app, elem_of_cons, elem_of_nil, list_elem_of_bind,
    list_elem_of_fmap.
  setoid_rewrite list_elem_of_fmap. split.
  - intros [[Heq|[]]|[(resource & (role & Heq & Hrole) & Hres)|(role & Heq & Hrole)]];
      injection Heq as -> -> ->; eauto 10.
  - intros [(-> & -> & ->)|[(resource & Hres & -> & Hk & ->)|(-> & Hk & ->)]];
      eauto 10.
Qed.

(** The grants after [allow] when bucket names are well separated. *)
Lemma allow_store acl roles resources permissions st resource role :
  separate_buckets (options acl) = true →
  store_get (apply_ops st (allow_batch acl roles resources permissions))
    (allowsBucket resource) role
  = if decide (resource ∈ makeArray resources ∧ role ∈ makeArray roles)
    then store_get st (allowsBucket resource) role
         ∪ list_to_set (makeArray permissions)
    else store_get st (allowsBucket resource) role.
Proof.
  intros Hsep. rewrite additions_exact by apply allow_batch_additions.
  apply set_eq. intros x. rewrite elem_of_union, elem_of_added_list.
  setoid_rewrite OpAdd_in_allow_batch.
  assert (allowsBucket resource ≠ buckets_meta (options acl)) as Hm.
  { intros Heq. symmetry in Heq.
    apply (separate_not_allows (options acl) _ resource) in Heq;
      [done|done|set_solver]. }
  assert (allowsBucket resource ≠ buckets_resources (options acl)) as Hr.
  { intros Heq. symmetry in Heq.
    apply (separate_not_allows (options acl) _ resource) in Heq;
      [done|done|set_solver]. }
  case_decide as Hin; [rewrite elem_of_union, elem_of_list_to_set|].
  - split.
    + intros [?|(vs & [(? & _)|[(res & _ & _ & _ & ->)|(? & _)]] & Hx)];
        [by left|done|by right|done].
    + intros [?|?]; [by left|]. right. exists (makeArray permissions).
      split; [|done]. right. left. exists resource. naive_solver.
  - split; [|by left].
    intros [?|(vs & [(? & _)|[(res & Hres & Heq & Hk & ->)|(? & _)]] & Hx)];
      [done|done| |done].
    apply allowsBucket_inj in Heq as ->. naive_solver.
Qed.

(** X4. [allow(roles, resources, permissions)] grants every listed
    permission to every listed role on every listed resource, records each
    resource in [resources[role]] and each role in [meta.roles]; it removes
    nothing from any set of the store, and a grant on any other
    (resource, role) pair is exactly what it was. *)
Theorem allow_grants_cross_product acl roles resources permissions w :
  separate_buckets (options acl) = true →
  ∃ w',
    allow acl roles resources permissions w = Ok tt w'
    ∧ (∀ role resource,
         role ∈ makeArray roles → resource ∈ makeArray resources →
         list_to_set (makeArray permissions)
           ⊆ store_get (store w') (allowsBucket resource) role
         ∧ resource ∈ store_get (store w') (buckets_resources (options acl)) role
         ∧ role ∈ store_get (store w') (buckets_meta (options acl)) "roles")
    ∧ (∀ b k, store_get (store w) b k ⊆ store_get (store w') b k)
    ∧ (∀ role resource,
         ¬ (resource ∈ makeArray resources ∧ role ∈ makeArray roles) →
         store_get (store w') (allowsBucket resource) role
         = store_get (store w) (allowsBucket resource) role).
Proof.
  intros Hsep. eexists. split; [apply allow_run_general|]. cbn [store].
  assert (∀ b k vs x,
            OpAdd b k vs ∈ allow_batch acl roles resources permissions → x ∈ vs →
            x ∈ store_get (apply_ops (store w)
                             (allow_batch acl roles resources permissions)) b k)
    as Hadd.
  { intros b k vs x Hop Hx.
    rewrite additions_exact by apply allow_batch_additions.
    apply elem_of_union. right. apply elem_of_added_list. eauto. }
  split; [|split].
  - intros role resource Hrole Hres. split; [|split].
    + intros p Hp%elem_of_list_to_set.
      apply (Hadd _ _ (makeArray permissions)); [|done].
      apply OpAdd_in_allow_batch. right. left. eauto.
    + apply (Hadd _ _ (makeArray resources)); [|done].
      apply OpAdd_in_allow_batch. auto.
    + apply (Hadd _ _ (makeArray roles)); [|done].
      apply OpAdd_in_allow_batch. auto.
  - intros b k. rewrite additions_exact by apply allow_batch_additions.
    set_solver.
  - intros role resource Hnot. rewrite allow_store by done.
    by rewrite decide_False.
Qed.

Lemma allow_grants_cross_product_witness :
  ∃ w',
    allow demo_acl (Arr ["A"; "B"]) (Arr ["doc"; "blog"])
      (Arr ["read"; "write"]) demo_world = Ok tt w'
    ∧ (∀ role resource,
         role ∈ ["A"; "B"] → resource ∈ ["doc"; "blog"] →
         list_to_set ["read"; "write"]
           ⊆ store_get (store w') (allowsBucket resource) role
         ∧ resource ∈ store_get (store w') "resources" role
         ∧ role ∈ store_get (store w') "meta" "roles")
    ∧ (∀ b k, store_get (store demo_world) b k ⊆ store_get (store w') b k)
    ∧ (∀ role resource,
         ¬ (resource ∈ ["doc"; "blog"] ∧ role ∈ ["A"; "B"]) →
         store_get (store w') (allowsBucket resource) role
         = store_get (store demo_world) (allowsBucket resource) role).
Proof.
  apply (allow_grants_cross_product demo_acl (Arr ["A"; "B"])
           (Arr ["doc"; "blog"]) (Arr ["read"; "write"]) demo_world).
  reflexivity.
Defined.

(** X5. Granting twice is granting once: a second identical [allow] leaves
    every set of the store as the first one left it. *)
Theorem allow_idempotent acl roles resources permissions w :
  ∃ w1 w2,
    allow acl roles resources permissions w = Ok tt w1
    ∧ allow acl roles resources permissions w1 = Ok tt w2
    ∧ ∀ b k, store_get (store w2) b k = store_get (store w1) b k.
Proof.
  eexists _, _. split; [apply allow_run_general|].
  split; [apply allow_run_general|]. cbn [store]. intros b k.
  rewrite !additions_exact by apply allow_batch_additions. set_solver.
Qed.

(** X6. Once [allow] has granted [permissions] on a resource to some role
    that a user holds directly, [isAllowed] answers [true] for any request
    drawn from those permissions, whatever the hierarchy looks like (even a
    cyclic one): the check settles at the first level. *)
Theorem allow_then_isAllowed acl roles resources permissions w :
  ∃ w1,
    allow acl roles resources permissions w = Ok tt w1
    ∧ ∀ uid role resource requested fuel,
        role ∈ makeArray roles →
        resource ∈ makeArray resources →
        role ∈ store_get (store w1) (buckets_users (options acl)) (key_of uid) →
        requested ⊆ makeArray permissions →
        ∃ w2, isAllowed acl (S fuel) uid resource (Arr requested) w1 = Ok true w2
              ∧ store w2 = store w1.
Proof.
  eexists. split; [apply allow_run_general|].
  set (w1 := {| store := _; trace := _ |}).
  intros uid role resource requested fuel Hrole Hres Huser Hreq.
  set (held := store_get (store w1) (buckets_users (options acl)) (key_of uid)).
  assert (∀ p, p ∈ requested → p ∈ granted (store w1) resource held) as Hgranted.
  { intros p Hp. apply elem_of_store_union. exists role. split; [done|].
    unfold w1. cbn [store].
    rewrite additions_exact by apply allow_batch_additions.
    apply elem_of_union. right. apply elem_of_added_list.
    exists (makeArray permissions). split; [|by apply Hreq].
    apply OpAdd_in_allow_batch. right. left. eauto. }
  unfold isAllowed, bind, backend_get. fold held.
  rewrite bool_decide_eq_true_2 by (rewrite size_zero_empty; set_solver).
  unfold areAnyRolesAllowed. cbv zeta. cbn [makeArray].
  rewrite bool_decide_eq_false_2.
  2:{ intros Hlen%nil_length_inv. apply elem_of_elements in Huser.
      fold held in Huser. rewrite Hlen in Huser. by apply elem_of_nil in Huser. }
  rewrite list_to_set_elements_L, checkPermissions_step. cbv zeta.
  cbn [store record].
  destruct (bool_decide ("*" ∈ granted (store w1) resource held));
    [by eexists|].
  rewrite bool_decide_eq_true_2; [by eexists|].
  set (remaining := filter (λ p, p ∉ granted (store w1) resource held) requested).
  assert (∀ p, p ∈ remaining → False) as Hnone.
  { intros p [Hno Hp]%list_elem_of_filter. by apply Hgranted in Hp. }
  destruct remaining as [|p0 rest]; [done|]. exfalso. apply (Hnone p0). by left.
Qed.

(** X7. An empty list of requested permissions is allowed to every user
    who holds at least one role, and to nobody else. *)
Theorem isAllowed_nothing_requested acl fuel uid resource w :
  ∃ w',
    isAllowed acl (S fuel) uid resource (Arr []) w
    = Ok (bool_decide
            (store_get (store w) (buckets_users (options acl)) (key_of uid) ≠ ∅))
         w'
    ∧ store w' = store w.
Proof.
  unfold isAllowed, bind, backend_get.
  set (held := store_get (store w) (buckets_users (options acl)) (key_of uid)).
  destruct (decide (held = ∅)) as [Hnone|Hsome].
  - rewrite Hnone, size_empty.
    rewrite !bool_decide_eq_false_2 by (intros Hne; by apply Hne). by eexists.
  - rewrite bool_decide_eq_true_2 by (by rewrite size_zero_empty).
    rewrite (bool_decide_eq_true_2 (held ≠ ∅)) by done.
    unfold areAnyRolesAllowed. cbv zeta. cbn [makeArray].
    rewrite bool_decide_eq_false_2.
    2:{ intros Hlen%nil_length_inv. apply Hsome.
        apply set_eq. intros x. rewrite <-elem_of_elements, Hlen. set_solver. }
    rewrite checkPermissions_step. cbv zeta. cbn [store record].
    destruct (bool_decide ("*" ∈ _)); [by eexists|].
    rewrite filter_nil. rewrite bool_decide_eq_true_2 by done. by eexists.
Qed.

Lemma allow_then_isAllowed_witness :
  ∃ w1 w2,
    allow demo_acl (Str "A") (Str "doc") (Arr ["read"; "write"]) demo_world
    = Ok tt w1
    ∧ isAllowed demo_acl 1 (UidStr "u1") "doc" (Arr ["write"]) w1 = Ok true w2.
Proof.
  destruct (allow_then_isAllowed demo_acl (Str "A") (Str "doc")
              (Arr ["read"; "write"]) demo_world) as (w1 & Hrun & Hallowed).
  destruct (Hallowed (UidStr "u1") "A" "doc" ["write"] 0) as (w2 & Hw2 & _).
  - apply list_elem_of_here.
  - apply list_elem_of_here.
  - rewrite allow_run_general in Hrun. injection Hrun as <-.
    vm_compute. reflexivity.
  - intros p Hp. apply list_elem_of_singleton in Hp. subst p.
    apply list_elem_of_further, list_elem_of_here.
  - exists w1, w2. split; [exact Hrun|exact Hw2].
Defined.

(** ** Removing resources, roles and grants *)

Lemma removals_elem t st b k x :
  Forall removal t →
  x ∈ store_get (apply_ops st t) b k ↔
    x ∈ store_get st b k
    ∧ ¬ (∃ ks, OpDel b ks ∈ t ∧ k ∈ ks)
    ∧ ¬ (∃ vs, OpRemove b k vs ∈ t ∧ x ∈ vs).
Proof.
  intros Ht. rewrite removals_exact by done.
  rewrite <-existsb_deletes, <-elem_of_removed_list.
  destruct (existsb (deletes b k) t); set_solver.
Qed.

Lemma additions_elem t st b k x :
  Forall addition t →
  x ∈ store_get (apply_ops st t) b k ↔
    x ∈ store_get st b k ∨ ∃ vs, OpAdd b k vs ∈ t ∧ x ∈ vs.
Proof.
  intros Ht. rewrite additions_exact by done.
  by rewrite elem_of_union, elem_of_added_list.
Qed.

Lemma separate_allows_ne o resource b :
  separate_buckets o = true →
  b ∈ [buckets_meta o; buckets_parents o; buckets_resources o;
       buckets_roles o; buckets_users o] →
  allowsBucket resource ≠ b.
Proof. intros Hsep Hb Heq. by apply (separate_not_allows o b resource). Qed.

Lemma removeResource_run acl resource w :
  let t := removeResource_batch acl resource
             (elements (store_get (store w) (buckets_meta (options acl)) "roles")) in
  removeResource acl resource w =
    Ok tt {| store := apply_ops (store w) t;
             trace := EvEnd t :: EvGet (buckets_meta (options acl)) "roles"
                      :: trace w |}.
Proof.
  unfold removeResource, removeResource_batch, bind, backend_get, backend_end,
    backend_del, backend_remove, backend_begin. simpl.
  by rewrite (foldl_snoc (λ role, OpRemove (buckets_resources (options acl)) role
                                    [resource])).
Qed.

Lemma removeResource_batch_removals acl resource roles :
  Forall removal (removeResource_batch acl resource roles).
Proof.
  unfold removeResource_batch. constructor; [done|].
  by apply Forall_fmap, Forall_true.
Qed.

Lemma OpDel_in_removeResource_batch acl resource roles b ks :
  OpDel b ks ∈ removeResource_batch acl resource roles ↔
    b = allowsBucket resource ∧ ks = roles.
Proof.
  unfold removeResource_batch. rewrite elem_of_cons, list_elem_of_fmap. split.
  - intros [Heq|(r & Heq & _)]; [by injection Heq as -> ->|done].
  - intros [-> ->]. by left.
Qed.

Lemma OpRemove_in_removeResource_batch acl resource roles b k vs :
  OpRemove b k vs ∈ removeResource_batch acl resource roles ↔
    b = buckets_resources (options acl) ∧ k ∈ roles ∧ vs = [resource].
Proof.
  unfold removeResource_batch. rewrite elem_of_cons, list_elem_of_fmap. split.
  - intros [Heq|(r & Heq & Hr)]; [done|]. by injection Heq as -> -> ->.
  - intros (-> & Hk & ->). right. eauto.
Qed.

(** The grants and the resource index after [removeResource]. *)
Lemma removeResource_store acl resource roles st :
  separate_buckets (options acl) = true →
  let st' := apply_ops st (removeResource_batch acl resource roles) in
  (∀ res role,
     store_get st' (allowsBucket res) role =
       if decide (res = resource ∧ role ∈ roles) then ∅
       else store_get st (allowsBucket res) role)
  ∧ (∀ role,
       store_get st' (buckets_resources (options acl)) role =
         if decide (role ∈ roles)
         then store_get st (buckets_resources (options acl)) role ∖ {[resource]}
         else store_get st (buckets_resources (options acl)) role).
Proof.
  intros Hsep st'. unfold st'.
  pose proof (removeResource_batch_removals acl resource roles) as Hrem.
  split.
  - intros res role. apply set_eq. intros x. rewrite removals_elem by done.
    setoid_rewrite OpDel_in_removeResource_batch.
    setoid_rewrite OpRemove_in_removeResource_batch.
    assert (allowsBucket res ≠ buckets_resources (options acl)) as Hne
      by (apply (separate_allows_ne (options acl)); [done|set_solver]).
    case_decide as Hd.
    + destruct Hd as [-> Hrole]. split; [|set_solver].
      intros (_ & Hno & _). destruct Hno. eauto.
    + split; [by intros [? _]|]. intros Hx. split; [done|]. split.
      * intros (ks & [Heq ->] & Hk). apply allowsBucket_inj in Heq. auto.
      * intros (vs & (? & _) & _). done.
  - intros role. apply set_eq. intros x. rewrite removals_elem by done.
    setoid_rewrite OpDel_in_removeResource_batch.
    setoid_rewrite OpRemove_in_removeResource_batch.
    assert (allowsBucket resource ≠ buckets_resources (options acl)) as Hne
      by (apply (separate_allows_ne (options acl)); [done|set_solver]).
    case_decide as Hd.
    + rewrite elem_of_difference, elem_of_singleton. split.
      * intros (Hx & _ & Hno). split; [done|]. intros ->. apply Hno.
        exists [resource]. split; [done|by left].
      * intros [Hx Hxr]. split; [done|]. split.
        -- intros (ks & [Heq _] & _). done.
        -- intros (vs & (_ & _ & ->) & Hin).
           by apply list_elem_of_singleton in Hin.
    + split; [by intros [? _]|]. intros Hx. split; [done|]. split.
      * intros (ks & [Heq _] & _). done.
      * intros (vs & (_ & ? & _) & _). done.
Qed.

(** X8. [removeResource(resource)] empties the grant on the resource of
    every role registered in [meta.roles] and takes the resource out of the
    resource set of each of them. Grants on other resources are untouched,
    and so is the grant of a role that is not registered in [meta.roles]:
    the code only visits the registered roles. *)
Theorem removeResource_spec acl resource w :
  separate_buckets (options acl) = true →
  ∃ w',
    removeResource acl resource w = Ok tt w'
    ∧ (∀ role,
         role ∈ store_get (store w) (buckets_meta (options acl)) "roles" →
         store_get (store w') (allowsBucket resource) role = ∅
         ∧ resource ∉ store_get (store w') (buckets_resources (options acl)) role)
    ∧ (∀ role,
         role ∉ store_get (store w) (buckets_meta (options acl)) "roles" →
         store_get (store w') (allowsBucket resource) role
         = store_get (store w) (allowsBucket resource) role)
    ∧ (∀ res role,
         res ≠ resource →
         store_get (store w') (allowsBucket res) role
         = store_get (store w) (allowsBucket res) role).
Proof.
  intros Hsep. eexists. split; [apply removeResource_run|]. cbn [store].
  destruct (removeResource_store acl resource
              (elements (store_get (store w) (buckets_meta (options acl)) "roles"))
              (store w) Hsep) as [Hallows Hindex].
  split; [|split].
  - intros role Hrole%elem_of_elements. split.
    + rewrite Hallows. by rewrite decide_True.
    + rewrite Hindex, decide_True by done. set_solver.
  - intros role Hrole. rewrite Hallows, decide_False; [done|].
    intros [_ Hin%elem_of_elements]. done.
  - intros res role Hne. rewrite Hallows, decide_False; [done|].
    by intros [? _].
Qed.

Lemma removeResource_spec_witness :
  ∃ w',
    removeResource demo_acl "doc" demo_world = Ok tt w'
    ∧ (∀ role,
         role ∈ store_get (store demo_world) "meta" "roles" →
         store_get (store w') (allowsBucket "doc") role = ∅
         ∧ "doc" ∉ store_get (store w') "resources" role)
    ∧ (∀ role,
         role ∉ store_get (store demo_world) "meta" "roles" →
         store_get (store w') (allowsBucket "doc") role
         = store_get (store demo_world) (allowsBucket "doc") role)
    ∧ (∀ res role,
         res ≠ "doc" →
         store_get (store w') (allowsBucket res) role
         = store_get (store demo_world) (allowsBucket res) role).
Proof. apply (removeResource_spec demo_acl "doc" demo_world). reflexivity. Defined.

(** X9. [removeResource] undoes [allow]: after granting to some roles and
    then removing one of the resources, none of those roles holds a
    permission on that resource and none lists it any more. *)
Theorem allow_then_removeResource acl roles resources permissions resource w :
  ∃ w1 w2,
    allow acl roles resources permissions w = Ok tt w1
    ∧ removeResource acl resource w1 = Ok tt w2
    ∧ ∀ role,
        role ∈ makeArray roles →
        store_get (store w2) (allowsBucket resource) role = ∅
        ∧ resource ∉ store_get (store w2) (buckets_resources (options acl)) role.
Proof.
  eexists _, _. split; [apply allow_run_general|].
  split; [apply removeResource_run|]. cbn [store].
  set (st1 := apply_ops (store w) _).
  set (registered := elements (store_get st1 (buckets_meta (options acl)) "roles")).
  intros role Hrole.
  assert (role ∈ registered) as Hreg.
  { apply elem_of_elements. unfold st1.
    apply additions_elem; [apply allow_batch_additions|]. right.
    exists (makeArray roles). split; [|done].
    apply OpAdd_in_allow_batch. auto. }
  pose proof (removeResource_batch_removals acl resource registered) as Hrem.
  split.
  - apply (removals_del _ _ _ _ registered); [done| |done].
    by apply OpDel_in_removeResource_batch.
  - intros Hin. apply removals_elem in Hin as (_ & _ & Hno); [|done].
    apply Hno. exists [resource]. split; [|by left].
    by apply OpRemove_in_removeResource_batch.
Qed.

Lemma allow_then_removeResource_witness :
  ∃ w1 w2,
    allow demo_acl (Arr ["A"; "B"]) (Str "doc") (Str "write") demo_world = Ok tt w1
    ∧ removeResource demo_acl "doc" w1 = Ok tt w2
    ∧ store_get (store w2) (allowsBucket "doc") "B" = ∅
    ∧ "doc" ∉ store_get (store w2) "resources" "B".
Proof.
  destruct (allow_then_removeResource demo_acl (Arr ["A"; "B"]) (Str "doc")
              (Str "write") "doc" demo_world) as (w1 & w2 & H1 & H2 & Hgone).
  exists w1, w2. split; [exact H1|]. split; [exact H2|].
  apply (Hgone "B"). cbn [makeArray].
  apply list_elem_of_further, list_elem_of_here.
Defined.

(** X10. A removed role is denied: after [removeRole(role)] the allow check
    on that role alone answers [false] for any non-empty request on a
    resource that was recorded for the role, after reading the (now empty)
    grant and the (now empty) parents of the role. *)
Theorem removeRole_then_denied acl role w :
  ∃ w1,
    removeRole acl role w = Ok tt w1
    ∧ ∀ resource permissions fuel,
        resource ∈ store_get (store w) (buckets_resources (options acl)) role →
        makeArray permissions ≠ [] →
        areAnyRolesAllowed acl (S fuel) (Str role) resource permissions w1
        = Ok false
            (record (EvUnion (buckets_parents (options acl)) {[role]})
               (record (EvUnion (allowsBucket resource) {[role]}) w1)).
Proof.
  eexists. split; [apply removeRole_run|].
  set (w1 := {| store := _; trace := _ |}).
  intros resource permissions fuel Hres Hperms.
  set (recorded := elements (store_get (store w) (buckets_resources (options acl)) role)).
  pose proof (removeRole_batch_removals acl role recorded) as Hrem.
  assert (store_get (store w1) (allowsBucket resource) role = ∅) as Hgrant.
  { unfold w1. cbn [store]. apply (removals_del _ _ _ _ [role]); [done| |by left].
    unfold removeRole_batch. apply elem_of_app. left.
    apply list_elem_of_fmap. exists resource. split; [done|].
    by apply elem_of_elements. }
  assert (store_get (store w1) (buckets_parents (options acl)) role = ∅) as Hparents.
  { unfold w1. cbn [store]. apply (removals_del _ _ _ _ [role]); [done| |by left].
    unfold removeRole_batch. apply elem_of_app. right. set_solver. }
  unfold areAnyRolesAllowed. cbv zeta. cbn [makeArray length].
  rewrite bool_decide_eq_false_2 by done.
  assert (list_to_set [role] = ({[role]} : gset string)) as -> by set_solver.
  rewrite checkPermissions_step. cbv zeta. unfold granted.
  rewrite !store_union_singleton, Hgrant, Hparents.
  rewrite bool_decide_eq_false_2 by set_solver.
  rewrite bool_decide_eq_false_2.
  - by rewrite size_empty, bool_decide_eq_false_2 by (intros Hne; by apply Hne).
  - intros Hlen%nil_length_inv. apply Hperms.
    destruct (makeArray permissions) as [|p ps]; [done|].
    assert (p ∈ ([] : list string)) as Hp; [|by apply elem_of_nil in Hp].
    rewrite <-Hlen. apply list_elem_of_filter. split; [set_solver|by left].
Qed.

Lemma removeRole_then_denied_witness :
  ∃ w1 w2,
    removeRole demo_acl "B" demo_world = Ok tt w1
    ∧ areAnyRolesAllowed demo_acl 1 (Str "B") "doc" (Str "read") w1 = Ok false w2.
Proof.
  destruct (removeRole_then_denied demo_acl "B" demo_world) as (w1 & Hrun & Hdenied).
  exists w1. eexists. split; [exact Hrun|].
  apply (Hdenied "doc" (Str "read") 0).
  - vm_compute. reflexivity.
  - discriminate.
Defined.

(** ** Revoking, exactly *)

Lemma OpRemove_in_revoke_batch acl role resources permissions b k vs :
  OpRemove b k vs ∈ revoke_batch acl role resources permissions ↔
    ∃ resource, resource ∈ resources ∧ k = role
      ∧ ((truthy permissions = true ∧ b = allowsBucket resource
          ∧ vs = from_option makeArray [] permissions)
         ∨ (truthy permissions = false ∧ b = buckets_resources (options acl)
            ∧ vs = [resource])).
Proof.
  unfold revoke_batch. rewrite list_elem_of_bind. split.
  - intros (resource & Hop & Hres). exists resource. split; [done|].
    destruct permissions as [ps|]; [destruct (truthy (Some ps)) eqn:Ht|].
    + apply list_elem_of_singleton in Hop. injection Hop as -> -> ->. auto.
    + rewrite !elem_of_cons, elem_of_nil in Hop.
      destruct Hop as [?|[Hop|[]]]; [done|]. injection Hop as -> -> ->. auto.
    + rewrite !elem_of_cons, elem_of_nil in Hop.
      destruct Hop as [?|[Hop|[]]]; [done|]. injection Hop as -> -> ->. auto.
  - intros (resource & Hres & -> & Hcase). exists resource. split; [|done].
    destruct permissions as [ps|]; [destruct (truthy (Some ps)) eqn:Ht|];
      destruct Hcase as [(? & -> & ->)|(? & -> & ->)]; try done.
    + by left.
    + right. by left.
    + right. by left.
Qed.

Lemma OpDel_in_revoke_batch acl role resources permissions b ks :
  OpDel b ks ∈ revoke_batch acl role resources permissions ↔
    ∃ resource, resource ∈ resources ∧ truthy permissions = false
                ∧ b = allowsBucket resource ∧ ks = [role].
Proof.
  unfold revoke_batch. rewrite list_elem_of_bind. split.
  - intros (resource & Hop & Hres). exists resource. split; [done|].
    destruct permissions as [ps|]; [destruct (truthy (Some ps)) eqn:Ht|].
    + by apply list_elem_of_singleton in Hop.
    + rewrite !elem_of_cons, elem_of_nil in Hop.
      destruct Hop as [Hop|[?|[]]]; [|done]. by injection Hop as -> ->.
    + rewrite !elem_of_cons, elem_of_nil in Hop.
      destruct Hop as [Hop|[?|[]]]; [|done]. by injection Hop as -> ->.
  - intros (resource & Hres & Ht & -> & ->). exists resource. split; [|done].
    destruct permissions as [ps|]; [rewrite Ht|]; by left.
Qed.

Lemma OpRemove_in_cleanup_batch acl st role resources b k vs :
  OpRemove b k vs ∈ cleanup_batch acl st role resources ↔
    ∃ resource, resource ∈ resources
                ∧ store_get st (allowsBucket resource) role = ∅
                ∧ b = buckets_resources (options acl) ∧ k = role
                ∧ vs = [resource].
Proof.
  unfold cleanup_batch. rewrite list_elem_of_bind. split.
  - intros (resource & Hop & Hres). exists resource. split; [done|].
    case_bool_decide as Hsize; [|by apply elem_of_nil in Hop].
    apply list_elem_of_singleton in Hop. injection Hop as -> -> ->.
    by apply size_zero_empty in Hsize.
  - intros (resource & Hres & Hempty & -> & -> & ->). exists resource.
    split; [|done]. rewrite Hempty, size_empty.
    rewrite bool_decide_eq_true_2 by done. by left.
Qed.

Lemma OpDel_in_cleanup_batch acl st role resources b ks :
  ¬ OpDel b ks ∈ cleanup_batch acl st role resources.
Proof.
  unfold cleanup_batch. rewrite list_elem_of_bind.
  intros (resource & Hop & _).
  case_bool_decide; [by apply list_elem_of_singleton in Hop|].
  by apply elem_of_nil in Hop.
Qed.

(** The grants after the first batch of [removePermissions]. *)
Lemma revoke_batch_store acl role resources permissions st res r :
  separate_buckets (options acl) = true →
  store_get (apply_ops st (revoke_batch acl role resources permissions))
    (allowsBucket res) r
  = if decide (res ∈ resources ∧ r = role)
    then left_after_revoke permissions (store_get st (allowsBucket res) r)
    else store_get st (allowsBucket res) r.
Proof.
  intros Hsep. apply set_eq. intros x.
  rewrite removals_elem by apply revoke_batch_removals.
  setoid_rewrite OpDel_in_revoke_batch.
  setoid_rewrite OpRemove_in_revoke_batch.
  assert (allowsBucket res ≠ buckets_resources (options acl)) as Hne
    by (apply (separate_allows_ne (options acl)); [done|set_solver]).
  unfold left_after_revoke. case_decide as Hd.
  - destruct Hd as [Hres ->]. destruct (truthy permissions) eqn:Ht.
    + rewrite elem_of_difference. split.
      * intros (Hx & _ & Hno). split; [done|]. intros Hin. apply Hno.
        exists (from_option makeArray [] permissions).
        split; [|by apply elem_of_list_to_set in Hin]. exists res.
        split; [done|]. split; [done|]. by left.
      * intros [Hx Hno]. split; [done|]. split.
        -- intros (ks & (? & _ & ? & _) & _). done.
        -- intros (vs & (res' & _ & _ & [(_ & _ & ->)|(_ & ? & _)]) & Hin);
             [|done]. apply Hno. by apply elem_of_list_to_set.
    + split; [|set_solver]. intros (_ & Hno & _). destruct Hno.
      exists [role]. split; [|by left]. by exists res.
  - split; [by intros [? _]|]. intros Hx. split; [done|]. split.
    + intros (ks & (res' & Hres' & _ & Heq & ->) & Hk).
      apply allowsBucket_inj in Heq as ->.
      apply list_elem_of_singleton in Hk. auto.
    + intros (vs & (res' & Hres' & -> & [(_ & Heq & _)|(_ & ? & _)]) & _);
        [|done]. apply allowsBucket_inj in Heq as ->. auto.
Qed.

(** The grants and the resource index after both batches of
    [removePermissions]. *)
Lemma removePermissions_store acl role resources permissions st :
  separate_buckets (options acl) = true →
  let st1 := apply_ops st (revoke_batch acl role resources permissions) in
  let st2 := apply_ops st1 (cleanup_batch acl st1 role resources) in
  (∀ res r,
     store_get st2 (allowsBucket res) r =
       if decide (res ∈ resources ∧ r = role)
       then left_after_revoke permissions (store_get st (allowsBucket res) r)
       else store_get st (allowsBucket res) r)
  ∧ (∀ r x,
       x ∈ store_get st2 (buckets_resources (options acl)) r ↔
         x ∈ store_get st (buckets_resources (options acl)) r
         ∧ ¬ (r = role ∧ x ∈ resources
              ∧ left_after_revoke permissions
                  (store_get st (allowsBucket x) role) = ∅)).
Proof.
  intros Hsep st1 st2. unfold st2.
  set (t1 := revoke_batch acl role resources permissions) in *.
  set (t2 := cleanup_batch acl st1 role resources).
  pose proof (revoke_batch_removals acl role resources permissions) as Hrem1.
  pose proof (cleanup_batch_removals acl st1 role resources) as Hrem2.
  assert (∀ res, allowsBucket res ≠ buckets_resources (options acl)) as Hne.
  { intros res. apply (separate_allows_ne (options acl)); [done|set_solver]. }
  assert (∀ res r, store_get st1 (allowsBucket res) r =
            if decide (res ∈ resources ∧ r = role)
            then left_after_revoke permissions (store_get st (allowsBucket res) r)
            else store_get st (allowsBucket res) r) as Hst1.
  { intros res r. by apply revoke_batch_store. }
  split.
  - intros res r. rewrite <-Hst1. apply untouched_ops.
    apply Forall_forall. intros op Hop Htouch.
    destruct op as [b k vs|b k vs|b ks].
    + by apply (proj1 (Forall_forall _ _) Hrem2) in Hop.
    + apply OpRemove_in_cleanup_batch in Hop as (? & _ & _ & -> & _).
      destruct Htouch as [? _]. by apply (Hne res).
    + by apply OpDel_in_cleanup_batch in Hop.
  - intros r x. rewrite removals_elem by done.
    unfold t2. setoid_rewrite OpRemove_in_cleanup_batch.
    unfold st1 at 1. rewrite removals_elem by done.
    unfold t1. setoid_rewrite OpRemove_in_revoke_batch.
    setoid_rewrite OpDel_in_revoke_batch.
    split.
    + intros ((Hx & _ & Hno1) & _ & Hno2). split; [done|].
      intros (-> & Hres & Hleft).
      apply Hno2. exists [x]. split; [|by left]. exists x.
      split; [done|]. split; [|done]. rewrite Hst1, decide_True; done.
    + intros [Hx Hkeep]. split; [split; [done|split]|split].
      * intros (ks & (res & _ & _ & Heq & _) & _). symmetry in Heq.
        by apply Hne in Heq.
      * intros (vs & (res & Hres & -> & [(_ & Heq & _)|(Ht & _ & ->)]) & Hin).
        { symmetry in Heq. by apply Hne in Heq. }
        apply list_elem_of_singleton in Hin as ->. apply Hkeep.
        split; [done|]. split; [done|]. unfold left_after_revoke. by rewrite Ht.
      * intros (ks & Hop & _). by apply OpDel_in_cleanup_batch in Hop.
      * intros (vs & (res & Hres & Hempty & _ & -> & ->) & Hin).
        apply list_elem_of_singleton in Hin as ->. apply Hkeep.
        split; [done|]. split; [done|].
        rewrite Hst1, decide_True in Hempty; done.
Qed.

(** X11. What [removePermissions(role, resources, permissions)] does to the
    store, in full. The grant of [role] on each listed resource loses the
    listed permissions (or is dropped, when [permissions] is missing or
    falsy); a listed resource leaves [resources[role]] exactly when nothing
    is left of that grant. Grants and resource sets of every other role, and
    grants on resources that are not listed, are untouched. *)
Theorem removePermissions_exact acl role resources permissions w :
  separate_buckets (options acl) = true →
  ∃ w',
    removePermissions acl role resources permissions w = Ok tt w'
    ∧ (∀ res r,
         store_get (store w') (allowsBucket res) r =
           if decide (res ∈ resources ∧ r = role)
           then left_after_revoke permissions
                  (store_get (store w) (allowsBucket res) r)
           else store_get (store w) (allowsBucket res) r)
    ∧ (∀ r x,
         x ∈ store_get (store w') (buckets_resources (options acl)) r ↔
           x ∈ store_get (store w) (buckets_resources (options acl)) r
           ∧ ¬ (r = role ∧ x ∈ resources
                ∧ left_after_revoke permissions
                    (store_get (store w) (allowsBucket x) role) = ∅)).
Proof.
  intros Hsep. eexists. split; [apply removePermissions_run|]. cbn [store].
  by apply removePermissions_store.
Qed.

Lemma removePermissions_exact_witness :
  ∃ w',
    removePermissions demo_acl "B" ["doc"] (Some (Str "read")) demo_world = Ok tt w'
    ∧ (∀ res r,
         store_get (store w') (allowsBucket res) r =
           if decide (res ∈ ["doc"] ∧ r = "B")
           then left_after_revoke (Some (Str "read"))
                  (store_get (store demo_world) (allowsBucket res) r)
           else store_get (store demo_world) (allowsBucket res) r)
    ∧ (∀ r x,
         x ∈ store_get (store w') "resources" r ↔
           x ∈ store_get (store demo_world) "resources" r
           ∧ ¬ (r = "B" ∧ x ∈ ["doc"]
                ∧ left_after_revoke (Some (Str "read"))
                    (store_get (store demo_world) (allowsBucket x) "B") = ∅)).
Proof.
  apply (removePermissions_exact demo_acl "B" ["doc"] (Some (Str "read"))
           demo_world).
  reflexivity.
Defined.

(** ** The resource index *)

Lemma OpDel_in_removeRole_batch acl role recorded b ks :
  OpDel b ks ∈ removeRole_batch acl role recorded ↔
    ks = [role]
    ∧ ((∃ resource, resource ∈ recorded ∧ b = allowsBucket resource)
       ∨ b = buckets_resources (options acl)
       ∨ b = buckets_parents (options acl)
       ∨ b = buckets_roles (options acl)).
Proof.
  unfold removeRole_batch.
  rewrite elem_of_app, list_elem_of_fmap, !elem_of_cons, elem_of_nil. split.
  - intros [(resource & Heq & Hres)|[Heq|[Heq|[Heq|[?|[]]]]]]; try done;
      injection Heq as -> ->; eauto 6.
  - intros [-> [(resource & Hres & ->)|[-> |[-> | ->]]]]; eauto 8.
Qed.

Lemma OpRemove_in_removeRole_batch acl role recorded b k vs :
  OpRemove b k vs ∈ removeRole_batch acl role recorded ↔
    b = buckets_meta (options acl) ∧ k = "roles" ∧ vs = [role].
Proof.
  unfold removeRole_batch.
  rewrite elem_of_app, list_elem_of_fmap, !elem_of_cons, elem_of_nil. split.
  - intros [(resource & Heq & Hres)|[?|[?|[?|[Heq|[]]]]]]; try done.
    by injection Heq as -> -> ->.
  - intros (-> & -> & ->). eauto 8.
Qed.

(** The grants and the resource index after [removeRole]. *)
Lemma removeRole_store acl role recorded st :
  separate_buckets (options acl) = true →
  let st' := apply_ops st (removeRole_batch acl role recorded) in
  (∀ res r,
     store_get st' (allowsBucket res) r =
       if decide (r = role ∧ res ∈ recorded) then ∅
       else store_get st (allowsBucket res) r)
  ∧ (∀ r,
       store_get st' (buckets_resources (options acl)) r =
         if decide (r = role) then ∅
         else store_get st (buckets_resources (options acl)) r).
Proof.
  intros Hsep st'. unfold st'.
  pose proof (removeRole_batch_removals acl role recorded) as Hrem.
  pose proof (separate_buckets_distinct _ Hsep)
    as (Hmp & Hmr & Hmro & Hmu & Hpr & Hpro & Hpu & Hrro & Hru & Hrou).
  split.
  - intros res r. apply set_eq. intros x. rewrite removals_elem by done.
    setoid_rewrite OpDel_in_removeRole_batch.
    setoid_rewrite OpRemove_in_removeRole_batch.
    assert (∀ b, b ∈ [buckets_meta (options acl); buckets_parents (options acl);
                      buckets_resources (options acl); buckets_roles (options acl);
                      buckets_users (options acl)] → allowsBucket res ≠ b) as Hne
      by (intros b Hb; by apply (separate_allows_ne (options acl))).
    case_decide as Hd.
    + destruct Hd as [-> Hres]. split; [|set_solver].
      intros (_ & Hno & _). destruct Hno. exists [role]. split; [|by left].
      split; [done|]. left. eauto.
    + split; [by intros [? _]|]. intros Hx. split; [done|]. split.
      * intros (ks & (-> & [(res' & Hres' & Heq)|[Heq|[Heq|Heq]]]) & Hk).
        -- apply allowsBucket_inj in Heq as ->.
           apply list_elem_of_singleton in Hk. auto.
        -- apply Hne in Heq; [done|set_solver].
        -- apply Hne in Heq; [done|set_solver].
        -- apply Hne in Heq; [done|set_solver].
      * intros (vs & (Heq & _) & _). apply Hne in Heq; [done|set_solver].
  - intros r. apply set_eq. intros x. rewrite removals_elem by done.
    setoid_rewrite OpDel_in_removeRole_batch.
    setoid_rewrite OpRemove_in_removeRole_batch.
    case_decide as Hd.
    + subst r. split; [|set_solver].
      intros (_ & Hno & _). destruct Hno. exists [role]. split; [|by left]. auto.
    + split; [by intros [? _]|]. intros Hx. split; [done|]. split.
      * intros (ks & (-> & _) & Hk). by apply list_elem_of_singleton in Hk.
      * intros (vs & (? & _) & _). done.
Qed.

Lemma addRoleParents_run acl role parents w :
  let t := [OpAdd (buckets_meta (options acl)) "roles" [role];
            OpAdd (buckets_parents (options acl)) role (makeArray parents)] in
  addRoleParents acl role parents w =
    Ok tt {| store := apply_ops (store w) t; trace := EvEnd t :: trace w |}.
Proof. reflexivity. Qed.

Lemma removeRoleParents_run acl role parents w :
  let t := [if truthy parents
            then OpRemove (buckets_parents (options acl)) role
                   (from_option makeArray [] parents)
            else OpDel (buckets_parents (options acl)) [role]] in
  removeRoleParents acl role parents w =
    Ok tt {| store := apply_ops (store w) t; trace := EvEnd t :: trace w |}.
Proof.
  unfold removeRoleParents. destruct parents as [ps|]; [|reflexivity].
  destruct (truthy (Some ps)); reflexivity.
Qed.

(** A batch that writes neither a permissions bucket nor [resources] keeps
    the index. *)
Lemma indexed_untouched acl st t :
  indexed acl st →
  Forall (λ op, ∀ b k, touches b k op →
                       b ≠ buckets_resources (options acl)
                       ∧ ∀ res, b ≠ allowsBucket res) t →
  indexed acl (apply_ops st t).
Proof.
  intros Hidx Ht role resource.
  rewrite !untouched_ops; [apply Hidx| |].
  - eapply Forall_impl; [exact Ht|]. intros op Hop Htouch.
    by destruct (Hop _ _ Htouch) as [? _].
  - eapply Forall_impl; [exact Ht|]. intros op Hop Htouch.
    destruct (Hop _ _ Htouch) as [_ Hno]. by apply (Hno resource).
Qed.

Lemma indexed_allow_batch acl st roles resources permissions :
  separate_buckets (options acl) = true →
  indexed acl st →
  indexed acl (apply_ops st (allow_batch acl roles resources permissions)).
Proof.
  intros Hsep Hidx role resource Hgrant.
  rewrite allow_store in Hgrant by done.
  apply additions_elem; [apply allow_batch_additions|].
  destruct (decide (resource ∈ makeArray resources ∧ role ∈ makeArray roles))
    as [[Hres Hrole]|Hout].
  - right. exists (makeArray resources). split; [|done].
    apply OpAdd_in_allow_batch. auto.
  - left. by apply Hidx.
Qed.

Lemma indexed_addUserRoles_batch acl st uid roles :
  separate_buckets (options acl) = true →
  indexed acl st →
  indexed acl (apply_ops st (addUserRoles_batch acl uid roles)).
Proof.
  intros Hsep Hidx.
  pose proof (separate_buckets_distinct _ Hsep)
    as (Hmp & Hmr & Hmro & Hmu & Hpr & Hpro & Hpu & Hrro & Hru & Hrou).
  apply indexed_untouched; [done|]. apply Forall_forall.
  intros op Hop b k Htouch.
  destruct op as [b' k' vs| |];
    [|by apply (proj1 (Forall_forall _ _)
                  (addUserRoles_batch_additions acl uid roles)) in Hop..].
  destruct Htouch as [-> ->].
  apply OpAdd_in_addUserRoles_batch in Hop
    as [(-> & _)|[(-> & _)|(-> & _)]];
    (split; [done|intros res; apply (separate_not_allows (options acl));
                  [done|set_solver]]).
Qed.

Lemma indexed_addRoleParents_batch acl st role parents :
  separate_buckets (options acl) = true →
  indexed acl st →
  indexed acl
    (apply_ops st [OpAdd (buckets_meta (options acl)) "roles" [role];
                   OpAdd (buckets_parents (options acl)) role (makeArray parents)]).
Proof.
  intros Hsep Hidx.
  pose proof (separate_buckets_distinct _ Hsep)
    as (Hmp & Hmr & Hmro & Hmu & Hpr & Hpro & Hpu & Hrro & Hru & Hrou).
  apply indexed_untouched; [done|].
  apply Forall_cons. split; [|apply Forall_cons; split; [|by constructor]];
    intros b k [-> ->];
    (split; [done|intros res; apply (separate_not_allows (options acl));
                  [done|set_solver]]).
Qed.

Lemma indexed_empty acl : indexed acl ∅.
Proof. intros role resource Hgrant. by destruct Hgrant. Qed.

Lemma demo_indexed : indexed demo_acl (store demo_world).
Proof.
  unfold demo_world, exec.
  rewrite addUserRoles_run, addRoleParents_run, allow_run_general. cbv zeta.
  cbn [store].
  apply indexed_allow_batch; [done|].
  apply indexed_addRoleParents_batch; [done|].
  apply indexed_addUserRoles_batch; [done|].
  apply indexed_empty.
Qed.

(** X12. Every mutation of the engine keeps the resource index: if each
    role lists in [resources[role]] every resource it holds a permission on,
    this still holds after [allow], [removeAllow], [removeRole],
    [removeResource], [addUserRoles], [removeUserRoles], [addRoleParents] and
    [removeRoleParents]. *)
Theorem mutations_keep_index acl w :
  separate_buckets (options acl) = true →
  indexed acl (store w) →
  (∀ roles resources permissions,
     ∃ w', allow acl roles resources permissions w = Ok tt w'
           ∧ indexed acl (store w'))
  ∧ (∀ role resources permissions,
       ∃ w', removeAllow acl role resources permissions w = Ok tt w'
             ∧ indexed acl (store w'))
  ∧ (∀ role, ∃ w', removeRole acl role w = Ok tt w' ∧ indexed acl (store w'))
  ∧ (∀ resource,
       ∃ w', removeResource acl resource w = Ok tt w' ∧ indexed acl (store w'))
  ∧ (∀ uid roles,
       ∃ w', addUserRoles acl uid roles w = Ok tt w' ∧ indexed acl (store w'))
  ∧ (∀ uid roles,
       ∃ w', removeUserRoles acl uid roles w = Ok tt w' ∧ indexed acl (store w'))
  ∧ (∀ role parents,
       ∃ w', addRoleParents acl role parents w = Ok tt w' ∧ indexed acl (store w'))
  ∧ (∀ role parents,
       ∃ w', removeRoleParents acl role parents w = Ok tt w'
             ∧ indexed acl (store w')).
Proof.
  intros Hsep Hidx.
  pose proof (separate_buckets_distinct _ Hsep)
    as (Hmp & Hmr & Hmro & Hmu & Hpr & Hpro & Hpu & Hrro & Hru & Hrou).
  assert (∀ b res, b ∈ [buckets_meta (options acl); buckets_parents (options acl);
                        buckets_roles (options acl); buckets_users (options acl)] →
                   b ≠ allowsBucket res) as Hna.
  { intros b res Hb. apply (separate_not_allows (options acl)); [done|set_solver]. }
  split; [|split; [|split; [|split; [|split; [|split; [|split]]]]]].
  - intros roles resources permissions. eexists.
    split; [apply allow_run_general|]. cbn [store]. by apply indexed_allow_batch.
  - intros role resources permissions. eexists.
    split; [unfold removeAllow; apply removePermissions_run|]. cbn [store].
    destruct (removePermissions_store acl role (makeArray resources) permissions
                (store w) Hsep) as [Hallows Hindex].
    intros r x Hgrant. rewrite Hallows in Hgrant. apply Hindex.
    destruct (decide (x ∈ makeArray resources ∧ r = role)) as [[Hx ->]|Hout].
    + split.
      * apply Hidx. intros Hempty. apply Hgrant. unfold left_after_revoke.
        rewrite Hempty. destruct (truthy permissions); set_solver.
      * intros (_ & _ & Hleft). done.
    + split; [by apply Hidx|]. intros (-> & Hx & _). auto.
  - intros role. eexists. split; [apply removeRole_run|]. cbn [store].
    set (recorded := elements _).
    destruct (removeRole_store acl role recorded (store w) Hsep) as [Hallows Hindex].
    intros r x Hgrant. rewrite Hallows in Hgrant. rewrite Hindex.
    destruct (decide (r = role)) as [->|Hne].
    + exfalso. case_decide as Hd; [done|]. apply Hd. split; [done|].
      apply elem_of_elements. by apply Hidx.
    + rewrite decide_False in Hgrant by (by intros [? _]). by apply Hidx.
  - intros resource. eexists. split; [apply removeResource_run|]. cbn [store].
    set (registered := elements _).
    destruct (removeResource_store acl resource registered (store w) Hsep)
      as [Hallows Hindex].
    intros r x Hgrant. rewrite Hallows in Hgrant. rewrite Hindex.
    case_decide as Hd; [done|]. apply Hidx in Hgrant.
    case_decide as Hreg; [|done]. apply elem_of_difference. split; [done|].
    intros ->%elem_of_singleton. auto.
  - intros uid roles. eexists. split; [apply addUserRoles_run|]. cbn [store].
    by apply indexed_addUserRoles_batch.
  - intros uid roles. eexists. split; [apply removeUserRoles_run|]. cbn [store].
    apply indexed_untouched; [done|]. apply Forall_forall.
    intros op Hop b k Htouch.
    destruct op as [|b' k' vs|b' ks].
    + by apply (proj1 (Forall_forall _ _)
                  (removeUserRoles_batch_removals acl uid roles)) in Hop.
    + destruct Htouch as [-> ->].
      apply OpRemove_in_removeUserRoles_batch in Hop as [(-> & _)|(-> & _)];
        (split; [done|intros res; apply Hna; set_solver]).
    + exfalso. unfold removeUserRoles_batch in Hop.
      apply elem_of_cons in Hop as [?|Hop]; [done|].
      by apply list_elem_of_fmap in Hop as (? & ? & _).
  - intros role parents. eexists. split; [apply addRoleParents_run|]. cbv zeta.
    cbn [store]. by apply indexed_addRoleParents_batch.
  - intros role parents. eexists. split; [apply removeRoleParents_run|].
    cbv zeta. cbn [store].
    apply indexed_untouched; [done|].
    apply Forall_cons. split; [|by constructor].
    destruct (truthy parents); intros b k [-> _];
      (split; [done|intros res; apply Hna; set_solver]).
Qed.

(** X13. On an indexed store [removeRole(role)] leaves the role without a
    permission on any resource at all. *)
Theorem removeRole_leaves_no_grant acl role w :
  separate_buckets (options acl) = true →
  indexed acl (store w) →
  ∃ w',
    removeRole acl role w = Ok tt w'
    ∧ ∀ resource, store_get (store w') (allowsBucket resource) role = ∅.
Proof.
  intros Hsep Hidx. eexists. split; [apply removeRole_run|]. cbn [store].
  set (recorded := elements _). intros resource.
  destruct (removeRole_store acl role recorded (store w) Hsep) as [Hallows _].
  rewrite Hallows. case_decide as Hd; [done|].
  destruct (decide (store_get (store w) (allowsBucket resource) role = ∅))
    as [?|Hsome]; [done|].
  exfalso. apply Hd. split; [done|]. apply elem_of_elements. by apply Hidx.
Qed.

Lemma mutations_keep_index_witness :
  (∃ w', allow demo_acl (Str "A") (Arr ["doc"; "blog"]) (Str "write") demo_world
         = Ok tt w'
         ∧ indexed demo_acl (store w'))
  ∧ (∃ w', removeAllow demo_acl "B" (Str "doc") (Some (Str "read")) demo_world
           = Ok tt w'
           ∧ indexed demo_acl (store w'))
  ∧ (∃ w', removeRole demo_acl "B" demo_world = Ok tt w'
           ∧ indexed demo_acl (store w'))
  ∧ (∃ w', removeResource demo_acl "doc" demo_world = Ok tt w'
           ∧ indexed demo_acl (store w')).
Proof.
  destruct (mutations_keep_index demo_acl demo_world eq_refl demo_indexed)
    as (Hallow & Hrevoke & Hrole & Hresource & _).
  split; [apply Hallow|]. split; [apply Hrevoke|]. split; [apply Hrole|].
  apply Hresource.
Defined.

Lemma removeRole_leaves_no_grant_witness :
  ∃ w',
    removeRole demo_acl "B" demo_world = Ok tt w'
    ∧ ∀ resource, store_get (store w') (allowsBucket resource) "B" = ∅.
Proof.
  apply (removeRole_leaves_no_grant demo_acl "B" demo_world).
  - reflexivity.
  - exact demo_indexed.
Defined.

(** ** The closure of a role set *)

Section closure.
Context (acl : Acl) (st : gmap string (gmap string (gset string))).

Lemma level_succ roles k :
  level acl st roles (S k)
  = store_union st (buckets_parents (options acl)) (level acl st roles k).
Proof.
  revert roles. induction k as [|k IH]; intros roles; [done|].
  change (level acl st roles (S (S k)))
    with (level acl st (store_union st (buckets_parents (options acl)) roles) (S k)).
  by rewrite IH.
Qed.

Lemma reach_includes roles n : roles ⊆ reach acl st roles n.
Proof. destruct n; simpl; set_solver. Qed.

Lemma level_subseteq_reach roles k n :
  k ≤ n → level acl st roles k ⊆ reach acl st roles n.
Proof.
  revert roles k. induction n as [|n IH]; intros roles k Hk.
  - replace k with 0 by lia. done.
  - destruct k as [|k]; [apply reach_includes|]. simpl.
    etrans; [apply IH; lia|]. set_solver.
Qed.

Lemma rtc_level roles a x :
  a ∈ roles → rtc (parent_edge acl st) a x → ∃ k, x ∈ level acl st roles k.
Proof.
  intros Ha Hrtc. revert roles Ha.
  induction Hrtc as [a|a b x Hab _ IH]; intros roles Ha.
  - by exists 0.
  - destruct (IH (store_union st (buckets_parents (options acl)) roles)) as [k Hk].
    + apply elem_of_store_union. eauto.
    + by exists (S k).
Qed.

Lemma reach_ancestor roles n x :
  x ∈ reach acl st roles n → ancestor acl st roles x.
Proof.
  revert roles. induction n as [|n IH]; intros roles; simpl.
  - intros Hx. exists x. split; [done|apply rtc_refl].
  - intros [Hx|Hx]%elem_of_union.
    + exists x. split; [done|apply rtc_refl].
    + apply IH in Hx as (b & Hb & Hbx).
      apply elem_of_store_union in Hb as (a & Ha & Hab).
      exists a. split; [done|]. by eapply rtc_l.
Qed.

(** Once the levels above [roles] have vanished, [reach] is the set of all
    ancestors. *)
Lemma elem_of_reach roles n x :
  level acl st roles n = ∅ →
  x ∈ reach acl st roles n ↔ ancestor acl st roles x.
Proof.
  intros Hlevel. split; [apply reach_ancestor|].
  intros (a & Ha & Hax). destruct (rtc_level roles a x Ha Hax) as [k Hk].
  destruct (decide (k ≤ n)) as [Hle|Hgt].
  - by apply (level_subseteq_reach roles k n).
  - rewrite (level_vanished acl st roles n k) in Hk; [set_solver|done|lia].
Qed.

Lemma cycle_step x :
  tc (parent_edge acl st) x x →
  ∃ y, parent_edge acl st x y ∧ tc (parent_edge acl st) y y.
Proof.
  intros Hx. inversion Hx as [? ? Hxx|? y ? Hxy Hyx]; subst.
  - by exists x.
  - exists y. split; [done|]. eapply tc_r; done.
Qed.

(** A role set that meets a cycle of the hierarchy has a role at every
    level above it. *)
Lemma cycle_endless roles a :
  a ∈ roles → tc (parent_edge acl st) a a → endless acl st roles.
Proof.
  intros Ha Hcycle k.
  cut (∃ x, x ∈ level acl st roles k ∧ tc (parent_edge acl st) x x);
    [set_solver|].
  induction k as [|k (x & Hx & Hxx)]; [by exists a|].
  destruct (cycle_step x Hxx) as (y & Hxy & Hyy).
  exists y. split; [|done]. rewrite level_succ.
  apply elem_of_store_union. eauto.
Qed.

Lemma endless_parents roles :
  endless acl st roles →
  endless acl st (store_union st (buckets_parents (options acl)) roles).
Proof. intros Hend k. apply (Hend (S k)). Qed.

End closure.

(** X14. On an acyclic hierarchy [_allRoles(roles)] returns exactly the roles
    reachable from [roles] along parent edges, the roles themselves
    included; [_allUserRoles(userId)] returns the same closure of the roles
    of the user. *)
Theorem allRoles_is_closure acl roles uid w :
  acyclic acl (store w) →
  ∃ n, ∀ fuel, n ≤ fuel →
    (∃ closure w',
       _allRoles acl fuel roles w = Ok closure w'
       ∧ store w' = store w
       ∧ ∀ x, x ∈ closure ↔ ancestor acl (store w) roles x)
    ∧ (∃ closure w',
         _allUserRoles acl fuel uid w = Ok closure w'
         ∧ store w' = store w
         ∧ ∀ x, x ∈ closure ↔
                ancestor acl (store w)
                  (store_get (store w) (buckets_users (options acl)) (key_of uid))
                  x).
Proof.
  intros Hacyc.
  set (held := store_get (store w) (buckets_users (options acl)) (key_of uid)).
  destruct (level_vanishes acl (store w) roles Hacyc) as [n Hn].
  destruct (level_vanishes acl (store w) held Hacyc) as [m Hm].
  exists (S (n `max` m)). intros fuel Hfuel. split.
  - destruct (allRoles_spec acl n roles w fuel Hn) as (w' & Hrun & Hstore); [lia|].
    eexists _, w'. split; [done|]. split; [done|].
    intros x. by apply elem_of_reach.
  - unfold _allUserRoles, userRoles, bind, backend_get. fold held.
    destruct (decide (held = ∅)) as [Hnone|Hsome].
    + rewrite bool_decide_eq_false_2 by (rewrite Hnone, size_empty; lia).
      eexists _, _. split; [done|]. split; [done|]. intros x. split; [set_solver|].
      intros (a & Ha & _). rewrite Hnone in Ha. set_solver.
    + rewrite bool_decide_eq_true_2 by (by apply size_pos_nonempty).
      destruct (allRoles_spec acl m held
                  (record (EvGet (buckets_users (options acl)) (key_of uid)) w)
                  fuel Hm) as (w' & Hrun & Hstore); [lia|].
      eexists _, w'. split; [done|]. split; [done|].
      intros x. by apply (elem_of_reach acl (store w) held m).
Qed.

Lemma allRoles_is_closure_witness :
  ∃ n, ∀ fuel, n ≤ fuel →
    (∃ closure w',
       _allRoles demo_acl fuel {["A"]} demo_world = Ok closure w'
       ∧ store w' = store demo_world
       ∧ ∀ x, x ∈ closure ↔ ancestor demo_acl (store demo_world) {["A"]} x)
    ∧ (∃ closure w',
         _allUserRoles demo_acl fuel (UidStr "u1") demo_world = Ok closure w'
         ∧ store w' = store demo_world
         ∧ ∀ x, x ∈ closure ↔
                ancestor demo_acl (store demo_world)
                  (store_get (store demo_world) "users" "u1") x).
Proof.
  apply (allRoles_is_closure demo_acl {["A"]} (UidStr "u1") demo_world).
  exact demo_acyclic.
Defined.

(** ** Cycles *)

Lemma allRoles_endless acl fuel :
  ∀ roles w, endless acl (store w) roles → _allRoles acl fuel roles w = OutOfFuel.
Proof.
  induction fuel as [|fuel IH]; intros roles w Hend; [done|].
  rewrite allRoles_step. cbv zeta.
  rewrite bool_decide_eq_true_2.
  - rewrite (IH _ (record _ w)); [done|]. by apply endless_parents.
  - apply size_pos_nonempty. apply (Hend 1).
Qed.

Lemma resourcePermissions_endless acl resource fuel :
  ∀ roles w,
    endless acl (store w) roles →
    _resourcePermissions acl fuel roles resource w = OutOfFuel.
Proof.
  induction fuel as [|fuel IH]; intros roles w Hend; [done|].
  rewrite resourcePermissions_step.
  rewrite bool_decide_eq_false_2 by (rewrite size_zero_empty; apply (Hend 0)).
  cbv zeta. rewrite bool_decide_eq_true_2.
  - rewrite (IH _ (record _ (record _ w))); [done|]. by apply endless_parents.
  - rewrite size_zero_empty. apply (Hend 1).
Qed.

Lemma checkPermissions_endless acl resource p fuel :
  ∀ roles permissions w,
    endless acl (store w) roles →
    p ∈ permissions →
    (∀ k, ¬ covers (granted (store w) resource (level acl (store w) roles k)) p) →
    _checkPermissions acl fuel roles resource permissions w = OutOfFuel.
Proof.
  induction fuel as [|fuel IH]; intros roles permissions w Hend Hp Hunmet; [done|].
  rewrite checkPermissions_step. cbv zeta.
  pose proof (Hunmet 0) as Hzero. simpl in Hzero.
  rewrite bool_decide_eq_false_2 by (intros ?; apply Hzero; by right).
  assert (p ∈ filter (λ q, q ∉ granted (store w) resource roles) permissions)
    as Hrem.
  { apply list_elem_of_filter. split; [|done]. intros ?. apply Hzero. by left. }
  rewrite bool_decide_eq_false_2.
  2:{ intros Hlen%nil_length_inv. rewrite Hlen in Hrem. by apply elem_of_nil in Hrem. }
  rewrite bool_decide_eq_true_2 by (rewrite size_zero_empty; apply (Hend 1)).
  apply (IH _ _ (record _ (record _ w))); [by apply endless_parents|done|].
  intros k. apply (Hunmet (S k)).
Qed.

(** X15. The traversals have no cycle guard: when some role of the set lies
    on a cycle of the hierarchy, [_allRoles] and [_resourcePermissions] never
    return, however much fuel they get, and neither does the allow check as
    long as a requested permission is covered at no level. *)
Theorem cycle_never_returns acl roles a resource permissions p w :
  a ∈ roles →
  tc (parent_edge acl (store w)) a a →
  p ∈ permissions →
  (∀ k, ¬ covers (granted (store w) resource (level acl (store w) roles k)) p) →
  ∀ fuel,
    _allRoles acl fuel roles w = OutOfFuel
    ∧ _resourcePermissions acl fuel roles resource w = OutOfFuel
    ∧ _checkPermissions acl fuel roles resource permissions w = OutOfFuel.
Proof.
  intros Ha Hcycle Hp Hunmet fuel.
  pose proof (cycle_endless acl (store w) roles a Ha Hcycle) as Hend.
  split; [by apply allRoles_endless|].
  split; [by apply resourcePermissions_endless|].
  by apply (checkPermissions_endless acl resource p).
Qed.

Lemma loop_parents k :
  level demo_acl (store loop_world) {["A"]} k = {["A"]}.
Proof.
  induction k as [|k IH]; [done|]. rewrite level_succ, IH.
  apply set_eq. intros x. rewrite elem_of_store_union.
  assert (bucket_of (store loop_world) "parents" = {["A" := {["A"]}]}) as Hb
    by (vm_compute; reflexivity).
  unfold store_get.
  cbn [demo_acl newAcl options default defaultOptions buckets_parents].
  rewrite Hb. split.
  - intros (r & ->%elem_of_singleton & Hx).
    by rewrite lookup_singleton_eq in Hx.
  - intros Hx. exists "A". rewrite lookup_singleton_eq. set_solver.
Qed.

Lemma cycle_never_returns_witness :
  _allRoles demo_acl 1000 {["A"]} loop_world = OutOfFuel
  ∧ _resourcePermissions demo_acl 1000 {["A"]} "doc" loop_world = OutOfFuel
  ∧ _checkPermissions demo_acl 1000 {["A"]} "doc" ["read"] loop_world = OutOfFuel.
Proof.
  refine (cycle_never_returns demo_acl {["A"]} "A" "doc" ["read"] "read"
            loop_world _ _ _ _ 1000).
  - apply elem_of_singleton. reflexivity.
  - apply tc_once. vm_compute. reflexivity.
  - apply list_elem_of_here.
  - intros k. rewrite loop_parents. unfold covers, granted.
    rewrite store_union_singleton.
    assert (store_get (store loop_world) (allowsBucket "doc") "A" = ∅) as ->
      by (vm_compute; reflexivity).
    intros [H|H]; by apply not_elem_of_empty in H.
Defined.

(** ** Cutting a role off its parents *)

(** X16. After [removeRoleParents(role)] with no [parents] argument the role
    inherits nothing: the allow check on that role alone is decided by its
    own grant on the resource, after one read of the grant and, when that
    does not settle it, one read of the (empty) parents. *)
Theorem removeRoleParents_cuts_inheritance acl role w :
  ∃ w1,
    removeRoleParents acl role None w = Ok tt w1
    ∧ ∀ resource permissions fuel,
        ∃ b w2,
          areAnyRolesAllowed acl (S fuel) (Str role) resource permissions w1
          = Ok b w2
          ∧ store w2 = store w1
          ∧ (b = true ↔
             ∀ p, p ∈ makeArray permissions →
                  covers (store_get (store w1) (allowsBucket resource) role) p).
Proof.
  eexists. split; [apply removeRoleParents_run|]. cbv zeta. cbn [truthy].
  set (w1 := {| store := _; trace := _ |}).
  intros resource permissions fuel.
  assert (store_get (store w1) (buckets_parents (options acl)) role = ∅) as Hparents.
  { unfold w1. cbn [store]. rewrite apply_ops_cons. cbn [apply_ops foldl].
    rewrite store_get_del, decide_True; [done|]. split; [done|by left]. }
  set (own := store_get (store w1) (allowsBucket resource) role).
  unfold areAnyRolesAllowed. cbv zeta. cbn [makeArray length].
  rewrite bool_decide_eq_false_2 by done.
  assert (list_to_set [role] = ({[role]} : gset string)) as -> by set_solver.
  rewrite checkPermissions_step. cbv zeta. unfold granted.
  rewrite !store_union_singleton, Hparents. fold own.
  destruct (decide ("*" ∈ own)) as [Hstar|Hstar].
  { rewrite bool_decide_eq_true_2 by done. eexists _, _.
    split; [done|]. split; [done|]. split; [|done]. intros _ p _. by right. }
  rewrite bool_decide_eq_false_2 by done.
  set (remaining := filter (λ p, p ∉ own) (makeArray permissions)).
  assert (∀ p, p ∈ remaining ↔ (p ∉ own) ∧ p ∈ makeArray permissions) as Hrem
    by (intros p; unfold remaining; by rewrite list_elem_of_filter).
  destruct remaining as [|p0 rest] eqn:Hremaining.
  - rewrite bool_decide_eq_true_2 by done. eexists _, _.
    split; [done|]. split; [done|]. split; [|done]. intros _ p Hp. left.
    destruct (decide (p ∈ own)) as [|Hno]; [done|].
    assert (p ∈ ([] : list string)) as Hin by (by apply Hrem).
    by apply elem_of_nil in Hin.
  - rewrite bool_decide_eq_false_2 by done.
    rewrite size_empty, bool_decide_eq_false_2 by (intros Hne; by apply Hne).
    eexists _, _. split; [done|]. split; [done|]. split; [done|].
    intros Hall. assert ((p0 ∉ own) ∧ p0 ∈ makeArray permissions) as [Hno Hp0]
      by (apply Hrem; by left).
    destruct (Hall p0 Hp0); done.
Qed.

Lemma removeRoleParents_cuts_inheritance_witness :
  ∃ w1 w2,
    removeRoleParents demo_acl "A" None demo_world = Ok tt w1
    ∧ areAnyRolesAllowed demo_acl 1 (Str "A") "doc" (Str "read") w1 = Ok false w2.
Proof.
  destruct (removeRoleParents_cuts_inheritance demo_acl "A" demo_world)
    as (w1 & Hrun & Hcut).
  destruct (Hcut "doc" (Str "read") 0) as (b & w2 & Hcheck & _ & Htrue).
  exists w1, w2. split; [exact Hrun|].
  destruct b; [|exact Hcheck]. exfalso.
  destruct Htrue as [Hcov _]. specialize (Hcov eq_refl "read").
  rewrite removeRoleParents_run in Hrun. injection Hrun as <-.
  destruct Hcov as [Hin|Hin].
  - apply list_elem_of_here.
  - vm_compute in Hin. discriminate.
  - vm_compute in Hin. discriminate.
Defined.

(** ** What the bulk queries return *)









(** ** The compact grant *)

Lemma allowEx_loop acl (l : list (StrOrArr * StrOrArr * StrOrArr)) w :
  forEachM (λ _ '(roles, resources, permissions),
              allow acl roles resources permissions) tt l w
  = Ok tt
      {| store := foldl (λ st '(roles, resources, permissions),
                           apply_ops st (allow_batch acl roles resources permissions))
                    (store w) l;
         trace := reverse ((λ '(roles, resources, permissions),
                              EvEnd (allow_batch acl roles resources permissions))
                             <$> l) ++ trace w |}.
Proof.
  revert w. induction l as [|[[roles resources] permissions] l IH]; intros w.
  - by destruct w.
  - cbn [forEachM]. unfold bind. rewrite allow_run_general, IH.
    cbn [store trace foldl]. rewrite fmap_cons, reverse_cons, <-app_assoc.
    reflexivity.
Qed.

Lemma allow_batches_grow acl (l : list (StrOrArr * StrOrArr * StrOrArr)) st b k :
  store_get st b k
  ⊆ store_get (foldl (λ st '(roles, resources, permissions),
                        apply_ops st (allow_batch acl roles resources permissions))
                 st l) b k.
Proof.
  revert st. induction l as [|[[roles resources] permissions] l IH]; intros st;
    [done|].
  cbn [foldl]. etrans; [|apply IH].
  rewrite additions_exact by apply allow_batch_additions. set_solver.
Qed.

(** X19. The compact form of [allow] submits one batch per
    [{roles, allows: [{resources, permissions}]}] entry, in the order of the
    specification, never one batch for the whole list. When it is done every
    listed permission is granted to every listed role on every listed
    resource, and nothing has been taken out of the store. *)
Theorem allowEx_spec acl objs w :
  ∃ w',
    _allowEx acl objs w = Ok tt w'
    ∧ trace w' = reverse ((λ '(roles, resources, permissions),
                             EvEnd (allow_batch acl roles resources permissions))
                            <$> demux objs) ++ trace w
    ∧ (∀ roles resources permissions role resource p,
         (roles, resources, permissions) ∈ demux objs →
         role ∈ makeArray roles →
         resource ∈ makeArray resources →
         p ∈ makeArray permissions →
         p ∈ store_get (store w') (allowsBucket resource) role)
    ∧ (∀ b k, store_get (store w) b k ⊆ store_get (store w') b k).
Proof.
  eexists. split; [apply allowEx_loop|]. cbn [store trace].
  split; [reflexivity|]. split; [|intros b k; apply allow_batches_grow].
  fold (demux objs). generalize (store w). clear w.
  induction (demux objs) as [|[[roles0 resources0] permissions0] l IH];
    intros st roles resources permissions role resource p Hentry Hrole Hres Hp.
  - by apply elem_of_nil in Hentry.
  - cbn [foldl]. apply elem_of_cons in Hentry as [Heq|Hentry].
    + injection Heq as <- <- <-. apply allow_batches_grow.
      apply additions_elem; [apply allow_batch_additions|]. right.
      exists (makeArray permissions). split; [|done].
      apply OpAdd_in_allow_batch. right. left. eauto.
    + by apply (IH _ roles resources permissions).
Qed.

Lemma allowEx_spec_witness :
  ∃ w',
    _allowEx demo_acl
      (OneSpec {| spec_roles := Str "A";
                  spec_allows :=
                    [{| entry_resources := Str "doc";
                        entry_permissions := Arr ["read"; "write"] |};
                     {| entry_resources := Arr ["blog"; "wiki"];
                        entry_permissions := Str "read" |}] |})
      demo_world = Ok tt w'
    ∧ "write" ∈ store_get (store w') (allowsBucket "doc") "A"
    ∧ "read" ∈ store_get (store w') (allowsBucket "wiki") "A".
Proof.
  destruct (allowEx_spec demo_acl
              (OneSpec {| spec_roles := Str "A";
                          spec_allows :=
                            [{| entry_resources := Str "doc";
                                entry_permissions := Arr ["read"; "write"] |};
                             {| entry_resources := Arr ["blog"; "wiki"];
                                entry_permissions := Str "read" |}] |})
              demo_world) as (w' & Hrun & _ & Hgrants & _).
  exists w'. split; [exact Hrun|]. split.
  - apply (Hgrants (Str "A") (Str "doc") (Arr ["read"; "write"])).
    + apply list_elem_of_here.
    + apply list_elem_of_here.
    + apply list_elem_of_here.
    + apply list_elem_of_further, list_elem_of_here.
  - apply (Hgrants (Str "A") (Arr ["blog"; "wiki"]) (Str "read")).
    + apply list_elem_of_further, list_elem_of_here.
    + apply list_elem_of_here.
    + apply list_elem_of_further, list_elem_of_here.
    + apply list_elem_of_here.
Defined.

(** ** What resources a role set can reach *)

Lemma rolesResources_loop acl (l : list string) :
  ∀ (acc : gset string) w,
    ∃ w',
      forEachM (λ result role,
                  let* resources := backend_get (buckets_resources (options acl)) role in
                  ret (result ∪ resources)) acc l w
      = Ok (acc ∪ ⋃ (store_get (store w) (buckets_resources (options acl)) <$> l)) w'
      ∧ store w' = store w.
Proof.
  induction l as [|role l IH]; intros acc w.
  - exists w. split; [|done]. simpl. unfold ret. f_equal. set_solver.
  - cbn [forEachM]. unfold bind at 1. unfold bind at 1, backend_get at 1, ret at 1.
    destruct (IH (acc ∪ store_get (store w) (buckets_resources (options acl)) role)
                (record (EvGet (buckets_resources (options acl)) role) w))
      as (w' & Hrun & Hstore).
    exists w'. split; [|done]. rewrite Hrun. cbn [store record].
    f_equal. rewrite fmap_cons. simpl. set_solver.
Qed.

Lemma rolesResources_spec acl n fuel roles w :
  level acl (store w) (list_to_set (makeArray roles)) n = ∅ →
  n < fuel →
  ∃ w',
    _rolesResources acl fuel roles w
    = Ok (recorded_resources acl (store w)
            (reach acl (store w) (list_to_set (makeArray roles)) n)) w'
    ∧ store w' = store w.
Proof.
  intros Hn Hfuel. unfold _rolesResources. cbv zeta. unfold bind at 1.
  destruct (allRoles_spec acl n (list_to_set (makeArray roles)) w fuel Hn Hfuel)
    as (w1 & -> & Hstore1).
  set (closure := reach _ _ _ _).
  destruct (rolesResources_loop acl (elements closure) ∅ w1) as (w' & -> & Hstore).
  exists w'. split; [|congruence]. f_equal. rewrite Hstore1.
  unfold recorded_resources, store_union, set_bind. set_solver.
Qed.

Lemma intersection_nonempty (l : list string) (X : gset string) :
  0 < length (intersection (Arr l) X) ↔ ∃ p, p ∈ l ∧ p ∈ X.
Proof.
  unfold intersection. split.
  - intros Hlen. destruct (remove_dups _) as [|p rest] eqn:Hdups; [simpl in Hlen; lia|].
    assert (p ∈ remove_dups (filter (λ x, x ∈ X) l)) as Hp
      by (rewrite Hdups; by left).
    apply elem_of_remove_dups, list_elem_of_filter in Hp as [? ?]. eauto.
  - intros (p & Hp & HpX).
    assert (p ∈ remove_dups (filter (λ x, x ∈ X) l)) as Hin.
    { apply elem_of_remove_dups, list_elem_of_filter. done. }
    destruct (remove_dups _); [by apply elem_of_nil in Hin|simpl; lia].
Qed.

Lemma permitted_items_loop acl n fuel roles ps (l : list string) :
  ∀ (acc : gset string) w,
    level acl (store w) roles n = ∅ → n < fuel →
    ∃ w',
      forEachM (λ result resource,
                  let* p := _resourcePermissions acl fuel roles resource in
                  if bool_decide (0 < length (intersection ps p))
                  then ret (result ∪ {[resource]})
                  else ret result) acc l w
      = Ok (acc ∪ list_to_set
                    (filter (λ resource,
                               0 < length (intersection ps
                                             (granted (store w) resource
                                                (reach acl (store w) roles n))))
                       l)) w'
      ∧ store w' = store w.
Proof.
  induction l as [|resource l IH]; intros acc w Hn Hfuel.
  - exists w. split; [|done]. simpl. unfold ret. f_equal. set_solver.
  - cbn [forEachM]. unfold bind at 1. unfold bind at 1.
    destruct (resourcePermissions_spec acl resource n roles w fuel Hn Hfuel)
      as (w1 & -> & Hstore1).
    set (common := intersection ps _).
    destruct (decide (0 < length common)) as [Hyes|Hno].
    + rewrite bool_decide_eq_true_2 by done. unfold ret at 1.
      destruct (IH (acc ∪ {[resource]}) w1) as (w' & -> & Hstore);
        [by rewrite Hstore1|done|].
      exists w'. split; [|congruence]. f_equal. rewrite Hstore1.
      rewrite filter_cons_True by done. set_solver.
    + rewrite bool_decide_eq_false_2 by done. unfold ret at 1.
      destruct (IH acc w1) as (w' & -> & Hstore); [by rewrite Hstore1|done|].
      exists w'. split; [|congruence]. f_equal. rewrite Hstore1.
      by rewrite filter_cons_False by done.
Qed.

(** X20. [whatResources(roles, permissions)] with a truthy [permissions]
    lists a resource exactly when it is recorded for a role of the closure of
    [roles] and some requested permission is itself granted on it to a role
    of that closure. The wildcard gets no special treatment here: a resource
    on which the closure only holds ["*"] is listed only if ["*"] is among
    the requested permissions, although [isAllowed] would allow anything on
    it. *)
Theorem whatResources_with_permissions acl roles ps w :
  truthy (Some ps) = true →
  acyclic acl (store w) →
  ∃ n, ∀ fuel, n ≤ fuel →
    ∃ items w',
      whatResources acl fuel roles (Some ps) w = Ok (PermittedArray items ∅) w'
      ∧ store w' = store w
      ∧ (∀ resource,
           resource ∈ items ↔
             (∃ b, ancestor acl (store w) (list_to_set (makeArray roles)) b
                   ∧ resource ∈ store_get (store w)
                                  (buckets_resources (options acl)) b)
             ∧ ∃ p b, p ∈ makeArray ps
                      ∧ ancestor acl (store w) (list_to_set (makeArray roles)) b
                      ∧ p ∈ store_get (store w) (allowsBucket resource) b)
      ∧ (∀ resource,
           "*" ∉ makeArray ps →
           (∀ b, ancestor acl (store w) (list_to_set (makeArray roles)) b →
                 store_get (store w) (allowsBucket resource) b ⊆ {["*"]}) →
           resource ∉ items).
Proof.
  intros Htruthy Hacyc.
  set (R := list_to_set (makeArray roles) : gset string).
  destruct (level_vanishes acl (store w) R Hacyc) as [n Hn].
  exists (S n). intros fuel Hfuel.
  set (closure := reach acl (store w) R n).
  assert (∀ b, b ∈ closure ↔ ancestor acl (store w) R b) as Hclosure
    by (intros b; by apply elem_of_reach).
  unfold whatResources. cbv zeta. rewrite Htruthy.
  unfold permittedResources. unfold bind at 1.
  destruct (rolesResources_spec acl n fuel (Arr (makeArray roles)) w)
    as (w1 & -> & Hstore1); [done|lia|].
  cbn [makeArray truthy]. fold R. fold closure.
  unfold bind at 1. cbv zeta.
  destruct (permitted_items_loop acl n fuel R (Arr (makeArray ps))
              (elements (recorded_resources acl (store w) closure)) ∅ w1)
    as (w' & -> & Hstore); [by rewrite Hstore1|lia|].
  rewrite Hstore1. fold closure. unfold ret.
  eexists _, w'. split; [reflexivity|]. split; [congruence|].
  assert (∀ resource,
            resource ∈ (∅ : gset string) ∪ list_to_set
              (filter (λ resource,
                         0 < length (intersection (Arr (makeArray ps))
                                       (granted (store w) resource closure)))
                 (elements (recorded_resources acl (store w) closure)))
            ↔ (∃ b, b ∈ closure
                    ∧ resource ∈ store_get (store w)
                                   (buckets_resources (options acl)) b)
              ∧ ∃ p b, p ∈ makeArray ps ∧ b ∈ closure
                       ∧ p ∈ store_get (store w) (allowsBucket resource) b)
    as Hitems.
  { intros resource.
    rewrite elem_of_union, elem_of_list_to_set, list_elem_of_filter,
      intersection_nonempty, elem_of_elements.
    unfold recorded_resources, granted.
    setoid_rewrite elem_of_store_union. split.
    - intros [[]%not_elem_of_empty|[(p & Hp & b & Hb & Hpb) Hrec]]. eauto 8.
    - intros [Hrec (p & b & Hp & Hb & Hpb)]. right. eauto 8. }
  split.
  - intros resource. rewrite Hitems. by setoid_rewrite Hclosure.
  - intros resource Hstar Honly Hin.
    apply Hitems in Hin as [_ (p & b & Hp & Hb & Hpb)].
    apply Hclosure in Hb. apply Honly in Hb. apply Hb in Hpb.
    apply elem_of_singleton in Hpb. by subst p.
Qed.

Lemma whatResources_with_permissions_witness :
  ∃ n, ∀ fuel, n ≤ fuel →
    ∃ items w',
      whatResources demo_acl fuel (Str "A") (Some (Str "read")) wild_world
      = Ok (PermittedArray items ∅) w'
      ∧ store w' = store wild_world
      ∧ (∀ resource,
           resource ∈ items ↔
             (∃ b, ancestor demo_acl (store wild_world) (list_to_set ["A"]) b
                   ∧ resource ∈ store_get (store wild_world) "resources" b)
             ∧ ∃ p b, p ∈ ["read"]
                      ∧ ancestor demo_acl (store wild_world) (list_to_set ["A"]) b
                      ∧ p ∈ store_get (store wild_world) (allowsBucket resource) b)
      ∧ (∀ resource,
           "*" ∉ ["read"] →
           (∀ b, ancestor demo_acl (store wild_world) (list_to_set ["A"]) b →
                 store_get (store wild_world) (allowsBucket resource) b ⊆ {["*"]}) →
           resource ∉ items).
Proof.
  apply (whatResources_with_permissions demo_acl (Str "A") (Str "read") wild_world).
  - reflexivity.
  - apply (acyclic_of_rank _ _ demo_rank). intros r p Hedge.
    assert (bucket_of (store wild_world) "parents" = {["A" := {["B"]}]}) as Hb
      by (vm_compute; reflexivity).
    unfold parent_edge, store_get in Hedge.
    cbn [demo_acl newAcl options default defaultOptions buckets_parents] in Hedge.
    rewrite Hb, lookup_singleton in Hedge.
    destruct (decide ("A" = r)) as [<-|Hne]; simpl in Hedge.
    + apply elem_of_singleton in Hedge. subst p. vm_compute. lia.
    + by apply not_elem_of_empty in Hedge.
Defined.

(** ** Resources assigned on an array *)










(** ** Granting never takes access away *)

Lemma level_ext acl st st' roles k :
  (∀ r, store_get st' (buckets_parents (options acl)) r
        = store_get st (buckets_parents (options acl)) r) →
  level acl st' roles k = level acl st roles k.
Proof.
  intros Hsame. revert roles. induction k as [|k IH]; intros roles; [done|].
  simpl. rewrite IH. f_equal. apply set_eq. intros x.
  rewrite !elem_of_store_union. by setoid_rewrite Hsame.
Qed.

Lemma isAllowed_spec acl n fuel uid resource permissions w :
  level acl (store w)
    (store_get (store w) (buckets_users (options acl)) (key_of uid)) n = ∅ →
  n < fuel →
  ∃ b w',
    isAllowed acl fuel uid resource permissions w = Ok b w'
    ∧ store w' = store w
    ∧ (b = true ↔
       store_get (store w) (buckets_users (options acl)) (key_of uid) ≠ ∅
       ∧ ∀ p, p ∈ makeArray permissions →
              ∃ k, covers (granted (store w) resource
                             (level acl (store w)
                                (store_get (store w) (buckets_users (options acl))
                                   (key_of uid)) k)) p).
Proof.
  intros Hn Hfuel.
  set (held := store_get (store w) (buckets_users (options acl)) (key_of uid)) in *.
  unfold isAllowed, bind, backend_get. fold held.
  destruct (decide (held = ∅)) as [Hnone|Hsome].
  - rewrite bool_decide_eq_false_2 by (rewrite Hnone, size_empty; lia).
    eexists _, _. split; [done|]. split; [done|]. split; [done|].
    by intros [? _].
  - rewrite bool_decide_eq_true_2 by (by rewrite size_zero_empty).
    unfold areAnyRolesAllowed. cbv zeta. cbn [makeArray].
    rewrite bool_decide_eq_false_2.
    2:{ intros Hlen%nil_length_inv. apply Hsome. apply set_eq. intros x.
        rewrite <-elem_of_elements, Hlen. set_solver. }
    rewrite list_to_set_elements_L.
    destruct (checkPermissions_spec acl resource n held (makeArray permissions)
                (record (EvGet (buckets_users (options acl)) (key_of uid)) w)
                fuel Hn Hfuel) as (b & w' & Hrun & Hstore & Htrue & _).
    exists b, w'. split; [done|]. split; [done|].
    cbn [store record] in Htrue. rewrite Htrue. naive_solver.
Qed.

(** X22. Granting never takes access away: on an acyclic hierarchy, whatever
    [isAllowed] answered [true] to before an [allow], it still answers [true]
    to after it. *)
Theorem allow_keeps_access acl roles resources permissions w :
  separate_buckets (options acl) = true →
  acyclic acl (store w) →
  ∃ w1,
    allow acl roles resources permissions w = Ok tt w1
    ∧ ∀ uid resource requested,
        ∃ n, ∀ fuel, n ≤ fuel →
          ∃ b b' w2 w3,
            isAllowed acl fuel uid resource requested w = Ok b w2
            ∧ isAllowed acl fuel uid resource requested w1 = Ok b' w3
            ∧ (b = true → b' = true).
Proof.
  intros Hsep Hacyc. eexists. split; [apply allow_run_general|].
  set (w1 := {| store := _; trace := _ |}).
  intros uid resource requested.
  pose proof (separate_buckets_distinct _ Hsep)
    as (Hmp & Hmr & Hmro & Hmu & Hpr & Hpro & Hpu & Hrro & Hru & Hrou).
  assert (∀ b k, b = buckets_parents (options acl) ∨ b = buckets_users (options acl) →
                 store_get (store w1) b k = store_get (store w) b k) as Hsame.
  { intros b k Hb. unfold w1. cbn [store]. apply untouched_ops, Forall_forall.
    intros op Hop Htouch.
    destruct op as [b' k' vs| |];
      [|by apply (proj1 (Forall_forall _ _)
                    (allow_batch_additions acl roles resources permissions)) in Hop..].
    destruct Htouch as [-> ->].
    apply OpAdd_in_allow_batch in Hop
      as [(-> & _)|[(res & _ & -> & _)|(-> & _)]].
    - destruct Hb; congruence.
    - destruct Hb as [Hb|Hb]; symmetry in Hb;
        apply (separate_not_allows (options acl) _ res) in Hb; try done; set_solver.
    - destruct Hb; congruence. }
  assert (∀ b k, store_get (store w) b k ⊆ store_get (store w1) b k) as Hgrow.
  { intros b k. unfold w1. cbn [store].
    rewrite additions_exact by apply allow_batch_additions. set_solver. }
  set (held := store_get (store w) (buckets_users (options acl)) (key_of uid)).
  assert (store_get (store w1) (buckets_users (options acl)) (key_of uid) = held)
    as Hheld by (apply Hsame; auto).
  assert (∀ k, level acl (store w1) held k = level acl (store w) held k) as Hlevel.
  { intros k. apply level_ext. intros r. apply Hsame. auto. }
  destruct (level_vanishes acl (store w) held Hacyc) as [n Hn].
  exists (S n). intros fuel Hfuel.
  destruct (isAllowed_spec acl n fuel uid resource requested w)
    as (b & w2 & Hrun & _ & Htrue); [done|lia|].
  destruct (isAllowed_spec acl n fuel uid resource requested w1)
    as (b' & w3 & Hrun' & _ & Htrue'); [by rewrite Hheld, Hlevel|lia|].
  exists b, b', w2, w3. split; [done|]. split; [done|].
  rewrite Htrue, Htrue', Hheld. fold held.
  intros [Hsome Hcov]. split; [done|]. intros p Hp.
  destruct (Hcov p Hp) as [k Hk]. exists k. rewrite Hlevel.
  destruct Hk as [Hk|Hk]; [left|right];
    apply elem_of_store_union in Hk as (r & Hr & Hin);
    apply elem_of_store_union; exists r; (split; [done|]); by apply Hgrow.
Qed.

Lemma allow_keeps_access_witness :
  ∃ w1,
    allow demo_acl (Str "A") (Str "doc") (Str "write") demo_world = Ok tt w1
    ∧ ∀ uid resource requested,
        ∃ n, ∀ fuel, n ≤ fuel →
          ∃ b b' w2 w3,
            isAllowed demo_acl fuel uid resource requested demo_world = Ok b w2
            ∧ isAllowed demo_acl fuel uid resource requested w1 = Ok b' w3
            ∧ (b = true → b' = true).
Proof.
  apply (allow_keeps_access demo_acl (Str "A") (Str "doc") (Str "write") demo_world).
  - reflexivity.
  - exact demo_acyclic.
Defined.

(** ** Bucket names *)

(** X23. [keyFromAllowsBucket] undoes [allowsBucket], and [allowsBucket] is
    injective, so distinct resources never share a permissions bucket. In
    the other direction [allowsBucket] undoes [keyFromAllowsBucket] only on
    names that carry the prefix: a name without it is returned unchanged. *)
Theorem allowsBucket_round_trip :
  (∀ resource, keyFromAllowsBucket (allowsBucket resource) = resource)
  ∧ (∀ r1 r2, allowsBucket r1 = allowsBucket r2 → r1 = r2)
  ∧ (∀ name, allowsBucket (keyFromAllowsBucket name) = name ↔
             is_Some (strip_prefix "allows_" name))
  ∧ (∀ name, strip_prefix "allows_" name = None → keyFromAllowsBucket name = name).
Proof.
  assert (∀ p s rest, strip_prefix p s = Some rest → s = p +:+ rest) as Hstrip.
  { induction p as [|c p IH]; intros s rest; simpl.
    - by intros [= ->].
    - destruct s as [|d s]; [done|].
      destruct (Ascii.eqb c d) eqn:Hcd; [|done].
      apply Ascii.eqb_eq in Hcd as ->. intros Hs. by rewrite (IH _ _ Hs). }
  split; [apply keyFromAllowsBucket_allowsBucket|].
  split; [apply allowsBucket_inj|]. split.
  - intros name. unfold keyFromAllowsBucket.
    destruct (strip_prefix "allows_" name) as [rest|] eqn:Hname.
    + split; [by eexists|]. intros _. symmetry. by apply Hstrip.
    + split; [|by intros [? ?]]. intros Heq.
      rewrite <-Heq, allowsBucket_stripped in Hname. done.
  - intros name Hname. unfold keyFromAllowsBucket. by rewrite Hname.
Qed.

Lemma allowsBucket_round_trip_witness :
  keyFromAllowsBucket (allowsBucket "doc") = "doc"
  ∧ keyFromAllowsBucket "doc" = "doc"
  ∧ allowsBucket (keyFromAllowsBucket "allows_doc") = "allows_doc".
Proof.
  destruct allowsBucket_round_trip as (Hkey & _ & Hback & Hplain).
  split; [apply Hkey|]. split; [apply Hplain; reflexivity|].
  apply Hback. eexists. reflexivity.
Defined.

(** ** Unassigning the last role *)

(** X24. When [removeUserRoles] takes away every role a user holds, the user
    is denied everything: [isAllowed] answers [false] after the single read
    of the (now empty) role set of the user. *)
Theorem removeUserRoles_then_denied acl uid roles w :
  store_get (store w) (buckets_users (options acl)) (key_of uid)
    ⊆ list_to_set (makeArray roles) →
  ∃ w1,
    removeUserRoles acl uid roles w = Ok tt w1
    ∧ ∀ resource permissions fuel,
        isAllowed acl fuel uid resource permissions w1
        = Ok false (record (EvGet (buckets_users (options acl)) (key_of uid)) w1).
Proof.
  intros Hall. eexists. split; [apply removeUserRoles_run|].
  set (w1 := {| store := _; trace := _ |}).
  intros resource permissions fuel.
  assert (store_get (store w1) (buckets_users (options acl)) (key_of uid) = ∅)
    as Hnone.
  { unfold w1. cbn [store].
    pose proof (removals_remove (removeUserRoles_batch acl uid roles) (store w)
                  (buckets_users (options acl)) (key_of uid) (makeArray roles)
                  (removeUserRoles_batch_removals acl uid roles)) as Hsub.
    apply set_eq. intros x. split; [|set_solver]. intros Hx.
    apply Hsub in Hx; [set_solver|]. by left. }
  unfold isAllowed, bind, backend_get. rewrite Hnone, size_empty.
  by rewrite bool_decide_eq_false_2 by (intros Hne; by apply Hne).
Qed.

Lemma removeUserRoles_then_denied_witness :
  ∃ w1,
    removeUserRoles demo_acl (UidStr "u1") (Arr ["A"; "B"]) demo_world = Ok tt w1
    ∧ ∀ resource permissions fuel,
        isAllowed demo_acl fuel (UidStr "u1") resource permissions w1
        = Ok false (record (EvGet "users" "u1") w1).
Proof.
  apply (removeUserRoles_then_denied demo_acl (UidStr "u1") (Arr ["A"; "B"])
           demo_world).
  apply (bool_decide_unpack _). vm_compute. exact I.
Defined.
